(** * The conversion engine of [convert]: registry, catalog, pathfinder, executor

    A shallow embedding of [src/lib/types.ts], [src/lib/utils.ts] and
    [src/lib/converter.ts].  Module-level mutable state becomes an explicit
    [ConverterState]; exceptions and the observable side effects (progress
    callbacks, console output, calls into handlers) are threaded through a
    small state/error/trace monad.  Numbers that the source computes in
    double precision are computed here with the same roundings. *)

From Stdlib Require Import ZArith Lia Sorted Permutation OrdersEx Ascii.
From Stdlib Require Import QArith Qround Qpower Lqa.
From Stdlib Require Import Floats.PrimFloat Floats.FloatOps Floats.SpecFloat Uint63.
From stdpp Require Import base list gmap strings sets pretty.

Local Open Scope string_scope.
Local Open Scope list_scope.

(** ** Data model ([types.ts]) *)

Inductive Category := image | video | audio | document | archive | other.

Record FileFormat := {
  name : string;
  format : string;
  extension : string;
  mime : string;
  from : bool;
  to : bool;
  internal : string;
  category : Category
}.

Record FileData := {
  file_name : string;
  bytes : list Byte.byte
}.

(** A thrown JavaScript value, as far as the engine can observe it.  Beyond
    handing it to the console, all the engine does with a caught value [e] is
    to interpolate [e instanceof Error ? e.message : String(e)] into a
    message, and that can go three ways:
    - [JsError msg]: [e] is an [Error] and its message reads [msg];
    - [JsValue repr]: [e] is any other value and [String(e)] is [repr];
    - [JsOpaque raised]: evaluating the expression throws [raised] in turn,
      as it does for an object without a string conversion (such as
      [Object.create(null)], where [String(e)] throws a [TypeError]) or for
      an [Error] whose [message] cannot be interpolated. *)
Inductive Exn :=
| JsError (msg : string)
| JsValue (repr : string)
| JsOpaque (raised : Exn).

(** [e instanceof Error ? e.message : String(e)], interpolated into a
    template: the text, or the value thrown on the way. *)
Definition exn_message (e : Exn) : Exn + string :=
  match e with
  | JsError msg => inr msg
  | JsValue repr => inr repr
  | JsOpaque raised => inl raised
  end.

(** A DOM [File] as [convert] uses it: its [name], and what
    [await file.arrayBuffer()] gives, the bytes or the rejection. *)
Record File := {
  upload_name : string;
  arrayBuffer : Exn + list Byte.byte
}.

(** What [init()] does to the handler object it is called on: it raises, or it
    returns after assigning the two public mutable fields. *)
Inductive InitOutcome :=
| InitRaises (e : Exn)
| InitSets (ready' : bool) (supportedFormats' : option (list FileFormat)).

Record FormatHandler := {
  handler_name : string;
  supportedFormats : option (list FileFormat);
  ready : bool;
  init : InitOutcome;
  doConvert : list FileData -> FileFormat -> FileFormat -> Exn + list FileData
}.

Inductive Stage := initializing | converting | complete | error.

Record ConversionProgress := {
  stage : Stage;
  progress : Z;
  message : string
}.

Record ConversionResult := {
  success : bool;
  result_message : string;
  path : option (list string);
  files : option (list FileData)
}.

(** One element of [ConversionPath['steps']]. *)
Record Step := {
  handler : FormatHandler;
  inputFormat : FileFormat;
  outputFormat : FileFormat
}.

(** ** Helpers from [utils.ts] and the JavaScript built-ins the engine uses *)

Definition normalizeMimeType (m : string) : string :=
  if m =? "audio/x-wav" then "audio/wav"
  else if m =? "audio/vnd.wave" then "audio/wav"
  else if m =? "image/x-icon" then "image/vnd.microsoft.icon"
  else if m =? "image/qoi" then "image/x-qoi"
  else if m =? "video/bink" then "video/vnd.radgamettools.bink"
  else if m =? "video/binka" then "audio/vnd.radgamettools.bink"
  else m.

(** [s.includes(sub)] *)
Definition includes (s sub : string) : bool :=
  match String.index 0 sub s with
  | Some _ => true
  | None => false
  end.

Definition getCategoryFromMime (m : string) : Category :=
  if String.prefix "image/" m then image
  else if String.prefix "video/" m then video
  else if String.prefix "audio/" m then audio
  else if String.prefix "text/" m || (m =? "application/pdf")
          || (m =? "application/json") || (m =? "application/xml") then document
  else if includes m "zip" || includes m "tar" || includes m "rar"
          || includes m "7z" || includes m "gzip" || includes m "archive" then archive
  else other.

(** [c || d] on categories: each of the six category literals is a non-empty
    string, hence truthy, so the left operand is the value. *)
Definition category_or (c d : Category) : Category := c.

(** [String.prototype.toUpperCase] is a built-in of the host, defined by the
    Unicode case mappings; the engine takes it as a parameter.  On a string
    of ASCII characters it maps the letters a to z to A to Z and leaves every
    other character alone, which is all the function below does; it stands
    in for the built-in where sample data, all ASCII, is run. *)
Definition upper_ascii (c : Ascii.ascii) : Ascii.ascii :=
  let n := Ascii.nat_of_ascii c in
  if (97 <=? n)%nat && (n <=? 122)%nat then Ascii.ascii_of_nat (n - 32) else c.

Fixpoint ascii_toUpperCase (s : string) : string :=
  match s with
  | EmptyString => EmptyString
  | String c s' => String (upper_ascii c) (ascii_toUpperCase s')
  end.

(** [xs.join(sep)] *)
Fixpoint join (sep : string) (xs : list string) : string :=
  match xs with
  | [] => ""
  | [x] => x
  | x :: rest => x ++ sep ++ join sep rest
  end.

(** The integer nearest to [num / den] for [den > 0], halves going up: what
    [Math.round(num / den)] would be if the quotient were exact.  It serves
    to state what the percentages approximate; the percentages themselves
    are computed as the source computes them, in double precision (below). *)
Definition round_div (num den : Z) : Z := ((2 * num + den) / (2 * den))%Z.

(** ** Double-precision arithmetic

    A JavaScript number is an IEEE 754 binary64 value, and every arithmetic
    operation returns the double nearest to the exact result, ties going to
    the even significand.  The numbers the engine computes are positive and
    far from the overflow and underflow thresholds, so a double is modelled
    as the rational it denotes and an operation as the exact operation on
    rationals followed by [fl]. *)

(** [floor(log2 x)] for [x > 0]. *)
Definition ilog2 (x : Q) : Z :=
  let k := (Z.log2 (Qnum x) - Z.log2 (Z.pos (Qden x)))%Z in
  if Qle_bool (2 ^ k) x then k else (k - 1)%Z.

(** The integer nearest to [s], ties going to the even one. *)
Definition rne (s : Q) : Z :=
  let q := Qfloor s in
  match Qcompare (s - inject_Z q) (1 # 2) with
  | Lt => q
  | Gt => (q + 1)%Z
  | Eq => if Z.even q then q else (q + 1)%Z
  end.

(** The double nearest to [x > 0]: [x] scaled into the binade of 53-bit
    significands, rounded there, and scaled back. *)
Definition fl (x : Q) : Q :=
  let e := (ilog2 x - 52)%Z in (inject_Z (rne (x / 2 ^ e)) * 2 ^ e)%Q.

(** [Math.round(x)]: the nearest integer, halves going up; exact. *)
Definition Math_round (x : Q) : Z := Qfloor (x + (1 # 2)).

(** [Math.round(((i + 0.5) / n) * 100)]: the sum is exact, the quotient and
    the product are rounded. *)
Definition init_progress (i n : nat) : Z :=
  Math_round
    (fl (fl ((inject_Z (Z.of_nat i) + (1 # 2)) / inject_Z (Z.of_nat n)) * 100)).

(** The same expression evaluated by the machine's own double arithmetic,
    through Rocq's primitive floats; it serves to check [fl] against the
    hardware on a range of arguments. *)
Definition double_value (f : float) : Q :=
  match Prim2SF f with
  | S754_finite s m e => ((if s then -1 else 1) * inject_Z (Z.pos m) * 2 ^ e)%Q
  | _ => 0%Q
  end.

Definition double_of_nat (n : nat) : float := of_uint63 (Uint63.of_Z (Z.of_nat n)).

Definition init_progress_hw (i n : nat) : Z :=
  Math_round (double_value (((double_of_nat i + 0.5) / double_of_nat n) * 100)%float).

(** [Math.round(((i + 1) / n) * 80)], likewise. *)
Definition step_ratio_hw (i n : nat) : Z :=
  Math_round (double_value (((double_of_nat i + 1) / double_of_nat n) * 80)%float).

(** [Array.prototype.sort(cmp)]: ECMAScript requires a stable sort, and for a
    consistent comparator the result is the one stable sorted permutation;
    insertion computes it. *)
Fixpoint insert_by {A} (cmp : A -> A -> Z) (x : A) (l : list A) : list A :=
  match l with
  | [] => [x]
  | y :: l' => if (cmp x y <=? 0)%Z then x :: y :: l' else y :: insert_by cmp x l'
  end.

Definition sort_by {A} (cmp : A -> A -> Z) (l : list A) : list A :=
  foldr (insert_by cmp) [] l.

(** ** Pathfinder ([findHandler], [findConversionPath]) *)

Definition canInput (fs : list FileFormat) (m : string) : bool :=
  existsb (fun f => (mime f =? m) && from f) fs.

Definition canOutput (fs : list FileFormat) (m : string) : bool :=
  existsb (fun f => (mime f =? m) && to f) fs.

(** The predicate passed to [handlers.find] in [findHandler]. *)
Definition can_handle (inp out : FileFormat) (h : FormatHandler) : bool :=
  match supportedFormats h with
  | None => false
  | Some fs =>
      if negb (ready h) then false
      else canInput fs (mime inp) && canOutput fs (mime out)
  end.

Definition findHandler (handlers : list FormatHandler)
    (inp out : FileFormat) : option FormatHandler :=
  find (can_handle inp out) handlers.

(** An element of the search queue. *)
Record QueueEntry := {
  entry_format : FileFormat;
  entry_path : list Step
}.

Definition entry_mime (e : QueueEntry) : string := mime (entry_format e).
Definition depth (e : QueueEntry) : nat := length (entry_path e).

(** The two local variables of the search, [visited] and [queue], with a
    ghost log [pushes] of the mime type of every [queue.push], in order. *)
Record Frontier := {
  visited : gset string;
  queue : list QueueEntry;
  pushes : list string
}.

Definition empty_frontier : Frontier :=
  {| visited := ∅; queue := []; pushes := [] |}.

(** [visited.add(format.mime); queue.push({format, path: [...path, step]})] *)
Definition enqueue (h : FormatHandler) (cur : FileFormat) (p : list Step)
    (fr : Frontier) (f : FileFormat) : Frontier :=
  {| visited := {[ mime f ]} ∪ visited fr;
     queue := queue fr ++
       [ {| entry_format := f;
            entry_path := p ++ [ {| handler := h; inputFormat := cur; outputFormat := f |} ] |} ];
     pushes := pushes fr ++ [ mime f ] |}.

(** Body of the inner [for (const format of handler.supportedFormats)] loop.
    Both expansion loops of [findConversionPath] share it; the seeding loop
    passes [skip := fun f => mime f =? mime inputFormat], the loop inside the
    [while] passes [skip := fun _ => false]. *)
Definition expand_format (skip : FileFormat -> bool) (h : FormatHandler)
    (cur : FileFormat) (p : list Step) (fr : Frontier) (f : FileFormat) : Frontier :=
  if negb (to f) || skip f then fr
  else if bool_decide (mime f ∈ visited fr) then fr
  else enqueue h cur p fr f.

(** Body of the outer [for (const handler of handlers)] loop. *)
Definition expand_handler (skip : FileFormat -> bool) (cur : FileFormat)
    (p : list Step) (fr : Frontier) (h : FormatHandler) : Frontier :=
  match supportedFormats h with
  | None => fr
  | Some fs =>
      if negb (ready h) then fr
      else if negb (canInput fs (mime cur)) then fr
      else fold_left (expand_format skip h cur p) fs fr
  end.

Definition expand (skip : FileFormat -> bool) (handlers : list FormatHandler)
    (cur : FileFormat) (p : list Step) (fr : Frontier) : Frontier :=
  fold_left (expand_handler skip cur p) handlers fr.

(** The frontier built by the first loop, "find all formats we can convert
    the input to". *)
Definition seed (handlers : list FormatHandler) (inp : FileFormat) : Frontier :=
  expand (fun f => mime f =? mime inp) handlers inp [] empty_frontier.

(** [queue.shift()] *)
Definition shift (fr : Frontier) (rest : list QueueEntry) : Frontier :=
  {| visited := visited fr; queue := rest; pushes := pushes fr |}.

(** The [while (queue.length > 0)] loop.  [fuel] bounds the number of
    iterations; [None] means the bound was hit before the loop finished,
    [Some (r, fr)] that the loop left with result [r] and frontier [fr]. *)
Fixpoint bfs_loop (handlers : list FormatHandler) (out : FileFormat)
    (maxDepth : Z) (fuel : nat) (fr : Frontier)
    : option (option (list Step) * Frontier) :=
  match fuel with
  | O => None
  | S fuel' =>
      match queue fr with
      | [] => Some (None, fr)
      | current :: rest =>
          if (maxDepth <=? Z.of_nat (depth current))%Z
          then bfs_loop handlers out maxDepth fuel' (shift fr rest)
          else
            match findHandler handlers (entry_format current) out with
            | Some h =>
                Some (Some (entry_path current ++
                              [ {| handler := h;
                                   inputFormat := entry_format current;
                                   outputFormat := out |} ]),
                      shift fr rest)
            | None =>
                bfs_loop handlers out maxDepth fuel'
                  (expand (fun _ => false) handlers (entry_format current)
                     (entry_path current) (shift fr rest))
            end
      end
  end.

(** Every mime type declared by some handler. *)
Definition all_mimes (handlers : list FormatHandler) : gset string :=
  list_to_set
    (flat_map (fun h => map mime (default [] (supportedFormats h))) handlers).

(** Number of loop iterations that a frontier can still cause, plus one. *)
Definition iterations_bound (handlers : list FormatHandler) (fr : Frontier) : nat :=
  S (length (queue fr) + size (all_mimes handlers ∖ visited fr)).

(** [findConversionPath(inputFormat, outputFormat, maxDepth)]; [None] is the
    source's [null]. *)
Definition findConversionPath (handlers : list FormatHandler)
    (inp out : FileFormat) (maxDepth : Z) : option (list Step) :=
  match findHandler handlers inp out with
  | Some h => Some [ {| handler := h; inputFormat := inp; outputFormat := out |} ]
  | None =>
      if (maxDepth <=? 1)%Z then None
      else
        let fr := seed handlers inp in
        match bfs_loop handlers out maxDepth (iterations_bound handlers fr) fr with
        | Some (r, _) => r
        | None => None
        end
  end.

(** ** Module state and effects ([converter.ts]) *)

Record ConverterState := {
  handlers : list FormatHandler;
  allFormats : list FileFormat;
  initialized : bool
}.

(** The state of a freshly loaded module. *)
Definition initial_state : ConverterState :=
  {| handlers := []; allFormats := []; initialized := false |}.

(** What a run does that the outside can observe.  The progress callback is
    the caller's sink, fire-and-forget by its contract: a call of it is
    recorded and taken to return normally. *)
Inductive Event :=
| EvProgress (p : ConversionProgress)            (* onProgress?.(p) *)
| EvInit (h : string)                            (* handler.init() entered *)
| EvWarn (e : Exn)                               (* console.warn(..., e) *)
| EvConvert (h : string) (inputs : list FileData)
    (hin hout : FileFormat)                      (* handler.doConvert(...) entered *)
| EvError (e : Exn).                             (* console.error(..., e) *)

(** A computation over the module state that returns or throws, and leaves
    a trace.  State changes made before a throw stay, as in JavaScript. *)
Definition M (A : Type) : Type :=
  ConverterState -> (Exn + A) * ConverterState * list Event.

#[export] Instance M_ret : MRet M := fun A x st => (inr x, st, []).

#[export] Instance M_bind : MBind M := fun A B k m st =>
  match m st with
  | (inl e, st', tr) => (inl e, st', tr)
  | (inr x, st', tr) =>
      let '(r, st'', tr') := k x st' in (r, st'', tr ++ tr')
  end.

Definition throw {A} (e : Exn) : M A := fun st => (inl e, st, []).

(** A step that has no effect of its own: it returns, or it throws. *)
Definition of_result {A} (r : Exn + A) : M A :=
  match r with
  | inl e => throw e
  | inr x => mret x
  end.

Definition try_catch {A} (body : M A) (handle : Exn -> M A) : M A := fun st =>
  match body st with
  | (inl e, st', tr) =>
      let '(r, st'', tr') := handle e st' in (r, st'', tr ++ tr')
  | (inr x, st', tr) => (inr x, st', tr)
  end.

Definition emit (ev : Event) : M unit := fun st => (inr tt, st, [ev]).
Definition get_state : M ConverterState := fun st => (inr st, st, []).
Definition put_state (st' : ConverterState) : M unit := fun _ => (inr tt, st', []).

Definition set_handlers (hs : list FormatHandler) : M unit :=
  st ← get_state;
  put_state {| handlers := hs; allFormats := allFormats st; initialized := initialized st |}.

Definition set_allFormats (fs : list FileFormat) : M unit :=
  st ← get_state;
  put_state {| handlers := handlers st; allFormats := fs; initialized := initialized st |}.

Definition set_initialized (b : bool) : M unit :=
  st ← get_state;
  put_state {| handlers := handlers st; allFormats := allFormats st; initialized := b |}.

(** [await handler.init()]: the handler object after the call, or the
    exception the call raised. *)
Definition call_init (h : FormatHandler) : M FormatHandler :=
  emit (EvInit (handler_name h));;
  match init h with
  | InitRaises e => throw e
  | InitSets r fs =>
      mret {| handler_name := handler_name h; supportedFormats := fs; ready := r;
              init := init h; doConvert := doConvert h |}
  end.

(** [await handler.doConvert(files, hin, hout)] *)
Definition call_doConvert (h : FormatHandler) (fs : list FileData)
    (hin hout : FileFormat) : M (list FileData) :=
  emit (EvConvert (handler_name h) fs hin hout);;
  match doConvert h fs hin hout with
  | inl e => throw e
  | inr out => mret out
  end.

(** ** Handler registry ([initializeConverter]) and catalog accessors *)

(** The test [g.mime === f.mime && g.format === f.format] on a catalog entry
    [g], for the format [f] at hand. *)
Definition same_key (f g : FileFormat) : bool :=
  (mime g =? mime f) && (format g =? format f).

(** [allFormats.some(g => g.mime === format.mime && g.format === format.format)] *)
Definition declared (catalog : list FileFormat) (f : FileFormat) : bool :=
  existsb (same_key f) catalog.

(** One iteration of "collect formats from this handler". *)
Definition collect_format (catalog : list FileFormat) (f : FileFormat) : list FileFormat :=
  if declared catalog f then catalog
  else catalog ++
    [ {| name := name f; format := format f; extension := extension f;
         mime := mime f; from := from f; to := to f; internal := internal f;
         category := category_or (category f) (getCategoryFromMime (mime f)) |} ].

(** [order.indexOf(c)] for
    [order = ['image', 'video', 'audio', 'document', 'archive', 'other']]. *)
Definition category_index (c : Category) : Z :=
  match c with
  | image => 0 | video => 1 | audio => 2 | document => 3 | archive => 4 | other => 5
  end.

#[export] Instance Category_eq_dec : EqDecision Category.
Proof. solve_decision. Defined.

Section Engine.

(** [String.prototype.localeCompare] depends on the host's locale. *)
Variable localeCompare : string -> string -> Z.

(** [String.prototype.toUpperCase], the host's. *)
Variable toUpperCase : string -> string.

(** For each entry of the source's [handlerClasses], the object that
    [new HandlerClass()] yields. *)
Variable handlerClasses : list FormatHandler.

(** The comparator passed to [allFormats.sort]. *)
Definition compare_formats (a b : FileFormat) : Z :=
  if bool_decide (category a ≠ category b)
  then (category_index (category a) - category_index (category b))%Z
  else localeCompare (name a) (name b).

(** Body of the [try] block for the handler class at index [i]. *)
Definition init_handler (i : nat) (h : FormatHandler) : M unit :=
  emit (EvProgress
          {| stage := initializing;
             progress := init_progress i (length handlerClasses);
             message := "Initializing " ++ handler_name h ++ "..." |});;
  h' ← call_init h;
  st ← get_state;
  set_handlers (handlers st ++ [h']);;
  match supportedFormats h' with
  | Some fs =>
      st ← get_state;
      set_allFormats (fold_left collect_format fs (allFormats st))
  | None => mret tt
  end.

(** The [for] loop over [handlerClasses], from index [i] on. *)
Fixpoint init_loop (i : nat) (classes : list FormatHandler) : M unit :=
  match classes with
  | [] => mret tt
  | h :: rest =>
      try_catch (init_handler i h) (fun e => emit (EvWarn e));;
      init_loop (S i) rest
  end.

Definition initializeConverter : M (list FileFormat) :=
  st ← get_state;
  if initialized st && (0 <? length (allFormats st))%nat then mret (allFormats st)
  else
    emit (EvProgress {| stage := initializing; progress := 0;
                        message := "Loading conversion tools..." |});;
    set_handlers [];;
    set_allFormats [];;
    init_loop 0 handlerClasses;;
    st ← get_state;
    set_allFormats (sort_by compare_formats (allFormats st));;
    set_initialized true;;
    st ← get_state;
    emit (EvProgress {| stage := initializing; progress := 100;
                        message := "Loaded " ++ pretty (length (allFormats st)) ++ " formats" |});;
    mret (allFormats st).

Definition getFormats (st : ConverterState) : list FileFormat := allFormats st.

Definition getInputFormats (st : ConverterState) : list FileFormat :=
  filter (fun f => from f = true) (allFormats st).


Definition findFormatByMime (st : ConverterState) (m : string) : option FileFormat :=
  let normalizedMime := normalizeMimeType m in
  find (fun f => mime f =? normalizedMime) (allFormats st).

(** ** Executor ([convert]) *)

(** [{ name: file.name, bytes: new Uint8Array(await file.arrayBuffer()) }] *)
Definition read_file (f : File) : Exn + FileData :=
  match arrayBuffer f with
  | inl e => inl e
  | inr buffer => inr {| file_name := upload_name f; bytes := buffer |}
  end.

(** The loop [for (const file of files)] that fills the list of [FileData];
    it stops at the first file whose read is rejected. *)
Fixpoint read_files (files : list File) : Exn + list FileData :=
  match files with
  | [] => inr []
  | f :: rest =>
      match read_file f with
      | inl e => inl e
      | inr d =>
          match read_files rest with
          | inl e => inl e
          | inr ds => inr (d :: ds)
          end
      end
  end.

(** [10 + Math.round(((i + 1) / n) * 80)], the percentage reported before the
    step at 0-based index [i] of [n]: the quotient and the product are
    rounded to doubles, the sum is exact. *)
Definition step_progress (i n : nat) : Z :=
  (10 + Math_round
          (fl (fl (inject_Z (Z.of_nat i + 1) / inject_Z (Z.of_nat n)) * 80)))%Z.

(** [handler.supportedFormats?.find(f => f.mime === m && pick(f))] *)
Definition own_format (h : FormatHandler) (pick : FileFormat -> bool)
    (m : string) : option FileFormat :=
  fs ← supportedFormats h; find (fun f => (mime f =? m) && pick f) fs.

(** The statements of the [try] block that can throw. *)
Definition run_step (s : Step) (currentFiles : list FileData) : M (list FileData) :=
  match own_format (handler s) from (mime (inputFormat s)),
        own_format (handler s) to (mime (outputFormat s)) with
  | Some hin, Some hout => call_doConvert (handler s) currentFiles hin hout
  | _, _ => throw (JsError "Format not supported by handler")
  end.

(** The object the [catch] block returns, [text] being the value of
    [e instanceof Error ? e.message : String(e)]. *)
Definition failure_at (i : nat) (text : string) (pathFormats : list string)
    : ConversionResult :=
  {| success := false;
     result_message := "Conversion failed at step " ++ pretty (i + 1)%nat ++ ": " ++ text;
     path := Some pathFormats;
     files := None |}.

(** The [for] loop over [path.steps], from index [i] on; [n] is
    [path.steps.length].  [inl r] is the [return r] of the [catch] block,
    [inr] the loop running to its end.  The [catch] block itself throws when
    the message of the caught value cannot be read. *)
Fixpoint run_steps (steps : list Step) (i n : nat) (currentFiles : list FileData)
    (pathFormats : list string)
    : M (ConversionResult + list FileData * list string) :=
  match steps with
  | [] => mret (inr (currentFiles, pathFormats))
  | s :: rest =>
      emit (EvProgress
              {| stage := converting; progress := step_progress i n;
                 message := "Converting to " ++ toUpperCase (format (outputFormat s)) ++ "..." |});;
      r ← try_catch
            (out ← run_step s currentFiles;
             mret (inr (out, pathFormats ++ [toUpperCase (format (outputFormat s))])))
            (fun e =>
               emit (EvError e);;
               text ← of_result (exn_message e);
               mret (inl (failure_at i text pathFormats)));
      match r with
      | inl res => mret (inl res)
      | inr (out, labels) => run_steps rest (S i) n out labels
      end
  end.

Definition no_route (inp out : FileFormat) : ConversionResult :=
  {| success := false;
     result_message := "No conversion path found from " ++ toUpperCase (format inp)
                         ++ " to " ++ toUpperCase (format out)
                         ++ ". Try a different output format.";
     path := None;
     files := None |}.

Definition convert (files : list File) (inp out : FileFormat) : M ConversionResult :=
  st ← get_state;
  (if negb (initialized st) then initializeConverter;; mret tt else mret tt);;
  emit (EvProgress {| stage := converting; progress := 0;
                      message := "Finding conversion route..." |});;
  if mime inp =? mime out then
    fileData ← of_result (read_files files);
    mret {| success := true;
            result_message := "Files are already in the target format.";
            path := Some [toUpperCase (format inp)];
            files := Some fileData |}
  else
    st ← get_state;
    match findConversionPath (handlers st) inp out 3 with
    | None => mret (no_route inp out)
    | Some steps =>
        emit (EvProgress
                {| stage := converting; progress := 10;
                   message := "Converting: " ++
                     join " → " (map (fun s => toUpperCase (format (outputFormat s))) steps) |});;
        currentFiles ← of_result (read_files files);
        r ← run_steps steps 0 (length steps) currentFiles [toUpperCase (format inp)];
        match r with
        | inl res => mret res
        | inr (out_files, pathFormats) =>
            emit (EvProgress {| stage := complete; progress := 100;
                                message := "Conversion complete!" |});;
            mret {| success := true;
                    result_message := "Successfully converted to " ++ toUpperCase (format out);
                    path := Some pathFormats;
                    files := Some out_files |}
        end
    end.

End Engine.

(** ** The capability graph the pathfinder searches

    Nodes are mime types; there is an edge from [a] to [b] when some ready
    handler declares an input format of mime [a] and an output format of
    mime [b]. *)

Definition edge (hs : list FormatHandler) (a b : string) : Prop :=
  ∃ h fs, h ∈ hs ∧ supportedFormats h = Some fs ∧ ready h = true ∧
          canInput fs a = true ∧ canOutput fs b = true.

(** [walk hs n a b]: the graph has a conversion path of [n] edges from [a]
    to [b]. *)
Inductive walk (hs : list FormatHandler) : nat -> string -> string -> Prop :=
| walk_nil a : walk hs 0 a a
| walk_cons n a b c : edge hs a b -> walk hs n b c -> walk hs (S n) a c.

(** [route hs a b p]: the steps of [p] lead from format [a] to format [b],
    each through a handler of [hs] that [findHandler] would accept for it. *)
Inductive route (hs : list FormatHandler) : FileFormat -> FileFormat -> list Step -> Prop :=
| route_nil a : route hs a a []
| route_snoc a b c p h :
    route hs a b p -> h ∈ hs -> can_handle b c h = true ->
    route hs a c (p ++ [ {| handler := h; inputFormat := b; outputFormat := c |} ]).

(** ** Predicates used to reason about the search *)

Definition pushed_from (hs : list FormatHandler) (skip : FileFormat -> bool)
    (cur : FileFormat) (p : list Step) (e : QueueEntry) : Prop :=
  ∃ h fs, h ∈ hs ∧ supportedFormats h = Some fs ∧ ready h = true ∧
          canInput fs (mime cur) = true ∧ entry_format e ∈ fs ∧
          to (entry_format e) = true ∧ skip (entry_format e) = false ∧
          entry_path e = p ++ [ {| handler := h; inputFormat := cur;
                                   outputFormat := entry_format e |} ].

Definition grows (P : QueueEntry -> Prop) (fr fr' : Frontier) : Prop :=
  ∃ news, queue fr' = queue fr ++ news ∧
          pushes fr' = pushes fr ++ map entry_mime news ∧
          visited fr' = list_to_set (map entry_mime news) ∪ visited fr ∧
          NoDup (map entry_mime news) ∧
          Forall (fun e => (entry_mime e ∉ visited fr) ∧ P e) news.

(** Entries of a search queue come in at most two consecutive depths,
    shallower ones first. *)
Fixpoint levels (q : list QueueEntry) : Prop :=
  match q with
  | [] => True
  | x :: rest =>
      Forall (fun e => depth x <= depth e <= S (depth x)) rest ∧ levels rest
  end.

(** A walk to [t] none of whose inner nodes after the first is in [V]. *)
Inductive owalk (hs : list FormatHandler) (V : gset string)
    : nat -> string -> string -> Prop :=
| owalk_last a t : edge hs a t -> owalk hs V 1 a t
| owalk_step n a b t :
    edge hs a b -> b ∉ V -> owalk hs V n b t -> owalk hs V (S n) a t.

(** Some queued entry still lies on an unexplored walk to [t] that is short
    enough to give a path of at most [k] steps. *)
Definition on_track (hs : list FormatHandler) (k : nat) (t : string)
    (fr : Frontier) : Prop :=
  ∃ e r, e ∈ queue fr ∧ owalk hs (visited fr) r (entry_mime e) t ∧ depth e + r <= k.

(** The ghost log lists each visited mime type exactly once. *)
Definition log_ok (fr : Frontier) : Prop :=
  NoDup (pushes fr) ∧ list_to_set (pushes fr) = visited fr.

(** Every queued entry carries a route from the source format to itself. *)
Definition sound (hs : list FormatHandler) (inp : FileFormat) (fr : Frontier) : Prop :=
  Forall (fun e => route hs inp (entry_format e) (entry_path e)) (queue fr).

(** ** What a run of the registry amounts to *)

(** The (mime, format-code) pair that identifies a catalog entry. *)
Definition key (f : FileFormat) : string * string := (mime f, format f).

(** The handler object after [init()], if [init()] returns. *)
Definition initialised (h : FormatHandler) : option FormatHandler :=
  match init h with
  | InitRaises _ => None
  | InitSets r fs =>
      Some {| handler_name := handler_name h; supportedFormats := fs; ready := r;
              init := init h; doConvert := doConvert h |}
  end.

(** All formats the given handlers declare, in registration order. *)
Definition declared_formats (hs : list FormatHandler) : list FileFormat :=
  flat_map (fun h => default [] (supportedFormats h)) hs.

(** The state after [handlers.push(h')] and the collection of its formats. *)
Definition register (st : ConverterState) (h' : FormatHandler) : ConverterState :=
  {| handlers := handlers st ++ [h'];
     allFormats := fold_left collect_format (default [] (supportedFormats h')) (allFormats st);
     initialized := initialized st |}.

(** The state after one iteration of the loop over [handlerClasses]. *)
Definition settle (st : ConverterState) (h : FormatHandler) : ConverterState :=
  match initialised h with
  | Some h' => register st h'
  | None => st
  end.

Section Runs.

Variable localeCompare : string -> string -> Z.
Variable handlerClasses : list FormatHandler.

(** The events of the loop iteration for the class [h] at index [i]. *)
Definition init_events_of (i : nat) (h : FormatHandler) : list Event :=
  [ EvProgress
      {| stage := initializing;
         progress := init_progress i (length handlerClasses);
         message := "Initializing " ++ handler_name h ++ "..." |};
    EvInit (handler_name h) ]
  ++ match init h with
     | InitRaises e => [ EvWarn e ]
     | InitSets _ _ => []
     end.

Fixpoint init_events (i : nat) (classes : list FormatHandler) : list Event :=
  match classes with
  | [] => []
  | h :: rest => init_events_of i h ++ init_events (S i) rest
  end.

(** The state every completed run of [initializeConverter] leaves. *)
Definition loaded_state : ConverterState :=
  {| handlers := omap initialised handlerClasses;
     allFormats :=
       sort_by (compare_formats localeCompare)
         (fold_left collect_format (declared_formats (omap initialised handlerClasses)) []);
     initialized := true |}.

(** The trace of a run of [initializeConverter] that passes the guard. *)
Definition loading_events : list Event :=
  [ EvProgress {| stage := initializing; progress := 0;
                  message := "Loading conversion tools..." |} ]
  ++ init_events 0 handlerClasses
  ++ [ EvProgress {| stage := initializing; progress := 100;
         message := "Loaded " ++ pretty (length (allFormats loaded_state)) ++ " formats" |} ].

(** The states the module can be in: the fresh one, and whatever calls of the
    two exported procedures lead to, whether they return or throw. *)
Inductive reachable : ConverterState -> Prop :=
| reach_initial : reachable initial_state
| reach_initialize st r st' tr :
    reachable st ->
    initializeConverter localeCompare handlerClasses st = (r, st', tr) ->
    reachable st'
| reach_convert toUpperCase st files inp out r st' tr :
    reachable st ->
    convert localeCompare toUpperCase handlerClasses files inp out st = (r, st', tr) ->
    reachable st'.

(** The order the catalog is meant to have: categories in the fixed order,
    display names ascending within a category. *)
Definition catalog_le (a b : FileFormat) : Prop :=
  (category_index (category a) < category_index (category b))%Z ∨
  (category a = category b ∧ (localeCompare (name a) (name b) <= 0)%Z).

End Runs.

(** *** The executor, as a function from inputs to result and trace *)

Section Traces.

Variable toUpperCase : string -> string.

(** What the [try] block of one step yields: the thrown value or the files
    the handler returned, and the events on the way. *)
Definition step_outcome (s : Step) (currentFiles : list FileData)
    : (Exn + list FileData) * list Event :=
  match own_format (handler s) from (mime (inputFormat s)),
        own_format (handler s) to (mime (outputFormat s)) with
  | Some hin, Some hout =>
      (doConvert (handler s) currentFiles hin hout,
       [ EvConvert (handler_name (handler s)) currentFiles hin hout ])
  | _, _ => (inl (JsError "Format not supported by handler"), [])
  end.

(** The progress record reported before the step [s] at index [i] of [n]. *)
Definition step_report (s : Step) (i n : nat) : ConversionProgress :=
  {| stage := converting; progress := step_progress i n;
     message := "Converting to " ++ toUpperCase (format (outputFormat s)) ++ "..." |}.

(** What the [catch] block makes of the caught value [e] at step index [i]:
    the failure it returns, or what it throws while reading the message. *)
Definition caught (i : nat) (e : Exn) (pathFormats : list string)
    : Exn + ConversionResult :=
  match exn_message e with
  | inl raised => inl raised
  | inr text => inr (failure_at i text pathFormats)
  end.

(** The loop over the steps: [inl e] when the [catch] block throws [e],
    [inr (inl r)] when it returns the failure [r], [inr (inr _)] when the
    loop runs to its end. *)
Fixpoint exec_steps (steps : list Step) (i n : nat) (currentFiles : list FileData)
    (pathFormats : list string)
    : (Exn + (ConversionResult + list FileData * list string)) * list Event :=
  match steps with
  | [] => (inr (inr (currentFiles, pathFormats)), [])
  | s :: rest =>
      match step_outcome s currentFiles with
      | (inr out, tr) =>
          let '(r, tr') :=
            exec_steps rest (S i) n out
              (pathFormats ++ [toUpperCase (format (outputFormat s))]) in
          (r, EvProgress (step_report s i n) :: tr ++ tr')
      | (inl e, tr) =>
          (match caught i e pathFormats with
           | inl raised => inl raised
           | inr res => inr (inl res)
           end,
           EvProgress (step_report s i n) :: tr ++ [ EvError e ])
      end
  end.

Definition identity_result (fileData : list FileData) (inp : FileFormat)
    : ConversionResult :=
  {| success := true;
     result_message := "Files are already in the target format.";
     path := Some [toUpperCase (format inp)];
     files := Some fileData |}.

Definition success_result (out : FileFormat) (outFiles : list FileData)
    (pathFormats : list string) : ConversionResult :=
  {| success := true;
     result_message := "Successfully converted to " ++ toUpperCase (format out);
     path := Some pathFormats;
     files := Some outFiles |}.

Definition route_report (steps : list Step) : ConversionProgress :=
  {| stage := converting; progress := 10;
     message := "Converting: " ++
       join " → " (map (fun s => toUpperCase (format (outputFormat s))) steps) |}.

Definition complete_report : ConversionProgress :=
  {| stage := complete; progress := 100; message := "Conversion complete!" |}.

Definition finding_report : ConversionProgress :=
  {| stage := converting; progress := 0; message := "Finding conversion route..." |}.

(** [convert] from the point where the registry [hs] is in place and the
    "finding route" report is out. *)
Definition route_and_run (hs : list FormatHandler) (files : list File)
    (inp out : FileFormat) : (Exn + ConversionResult) * list Event :=
  if mime inp =? mime out then
    match read_files files with
    | inl e => (inl e, [])
    | inr fileData => (inr (identity_result fileData inp), [])
    end
  else
    match findConversionPath hs inp out 3 with
    | None => (inr (no_route toUpperCase inp out), [])
    | Some steps =>
        match read_files files with
        | inl e => (inl e, [ EvProgress (route_report steps) ])
        | inr currentFiles =>
            match exec_steps steps 0 (length steps) currentFiles
                    [toUpperCase (format inp)] with
            | (inl e, tr) => (inl e, EvProgress (route_report steps) :: tr)
            | (inr (inl res), tr) => (inr res, EvProgress (route_report steps) :: tr)
            | (inr (inr (outFiles, pathFormats)), tr) =>
                (inr (success_result out outFiles pathFormats),
                 EvProgress (route_report steps) :: tr ++ [ EvProgress complete_report ])
            end
        end
    end.

End Traces.

(** The names of the handlers whose [init()] a trace enters, in order. *)
Definition init_calls (tr : list Event) : list string :=
  omap (fun ev => match ev with EvInit h => Some h | _ => None end) tr.

(** The handlers whose [doConvert] a trace enters, in order. *)
Definition convert_calls (tr : list Event) : list string :=
  omap (fun ev => match ev with EvConvert h _ _ _ => Some h | _ => None end) tr.

(** The progress records a trace reports, in order. *)
Definition progress_reports (tr : list Event) : list ConversionProgress :=
  omap (fun ev => match ev with EvProgress p => Some p | _ => None end) tr.

(** A progress record whose percentage is a percentage. *)
Definition in_range (p : ConversionProgress) : Prop := (0 <= progress p <= 100)%Z.

(** ** Sample registries for the worked examples *)

Definition sample_format (n code m : string) (f t : bool) (c : Category) : FileFormat :=
  {| name := n; format := code; extension := code; mime := m;
     from := f; to := t; internal := code; category := c |}.

(** A handler that initialises without error and hands its input back. *)
Definition sample_handler (n : string) (fs : list FileFormat) : FormatHandler :=
  {| handler_name := n; supportedFormats := Some fs; ready := true;
     init := InitSets true (Some fs);
     doConvert := fun files _ _ => inr files |}.

Definition png_format :=
  sample_format "Portable Network Graphics" "png" "image/png" true true image.
Definition jpeg_format := sample_format "JPEG Image" "jpeg" "image/jpeg" true true image.
Definition html_format := sample_format "HTML Document" "html" "text/html" true false document.
Definition svg_output := sample_format "SVG Vector" "svg" "image/svg+xml" false true image.
Definition svg_input := sample_format "SVG Vector" "svg" "image/svg+xml" true false image.

Definition png_output := sample_format "PNG Image" "png" "image/png" false true image.
Definition apng_format := sample_format "Animated PNG" "apng" "image/png" true true image.

Definition raster_handler := sample_handler "raster" [png_format; jpeg_format].
Definition html_handler := sample_handler "html" [html_format; svg_output].
Definition svg_handler := sample_handler "svg" [svg_input; png_output].
Definition apng_handler := sample_handler "apng" [apng_format].

(** A handler whose [init()] throws. *)
Definition broken_handler : FormatHandler :=
  {| handler_name := "broken"; supportedFormats := Some [png_format; jpeg_format];
     ready := false; init := InitRaises (JsError "document is not defined");
     doConvert := fun files _ _ => inr files |}.

(** A handler in the manner of [handlers/ffmpeg.ts] when the codec fails to
    load: [init()] swallows the failure and returns, leaving the handler not
    ready and without formats. *)
Definition unloaded_handler : FormatHandler :=
  {| handler_name := "FFmpeg"; supportedFormats := Some [];
     ready := false; init := InitSets false (Some []);
     doConvert := fun _ _ _ => inl (JsError "FFmpeg not initialized") |}.

(** A handler that declares SVG to PNG but whose conversion throws. *)
Definition failing_svg_handler : FormatHandler :=
  {| handler_name := "svg"; supportedFormats := Some [svg_input; png_output];
     ready := true; init := InitSets true (Some [svg_input; png_output]);
     doConvert := fun _ _ _ => inl (JsError "Failed to load image") |}.

(** A stand-in for [localeCompare]: strings compared code unit by code unit. *)
Definition ordinal_compare (a b : string) : Z :=
  match OrdersEx.String_as_OT.compare a b with
  | Lt => -1
  | Eq => 0
  | Gt => 1
  end%Z.

(** ** File names: the rest of [utils.ts] *)

(** [s.split(c)] for a one-character separator [c]. *)
Fixpoint split_on (c : Ascii.ascii) (s : string) : list string :=
  match s with
  | EmptyString => [ "" ]
  | String a s' =>
      if Ascii.eqb a c then "" :: split_on c s'
      else
        match split_on c s' with
        | [] => [ String a "" ]
        | seg :: rest => String a seg :: rest
        end
  end.

(** [fileName.split('.').slice(0, -1).join('.')] *)
Definition stem (fileName : string) : string :=
  join "." (removelast (split_on "."%char fileName)).

(** [getBaseFileName]: [stem || fileName], the empty string being falsy. *)
Definition getBaseFileName (fileName : string) : string :=
  if stem fileName =? "" then fileName else stem fileName.

(** ** The pass-through renamer ([handlers/rename.ts]) *)

Definition zip_format : FileFormat :=
  {| name := "ZIP Archive"; format := "zip"; extension := "zip";
     mime := "application/zip"; from := true; to := true;
     internal := "zip"; category := archive |}.

Definition docx_format : FileFormat :=
  {| name := "Microsoft Word Document"; format := "docx"; extension := "docx";
     mime := "application/vnd.openxmlformats-officedocument.wordprocessingml.document";
     from := true; to := false; internal := "docx"; category := document |}.

Definition rename_formats : list FileFormat :=
  [ zip_format;
    docx_format;
    {| name := "Microsoft Excel Workbook"; format := "xlsx"; extension := "xlsx";
       mime := "application/vnd.openxmlformats-officedocument.spreadsheetml.sheet";
       from := true; to := false; internal := "xlsx"; category := document |};
    {| name := "Microsoft PowerPoint"; format := "pptx"; extension := "pptx";
       mime := "application/vnd.openxmlformats-officedocument.presentationml.presentation";
       from := true; to := false; internal := "pptx"; category := document |};
    {| name := "OpenDocument Text"; format := "odt"; extension := "odt";
       mime := "application/vnd.oasis.opendocument.text";
       from := true; to := false; internal := "odt"; category := document |};
    {| name := "Java Archive"; format := "jar"; extension := "jar";
       mime := "application/x-java-archive";
       from := true; to := false; internal := "jar"; category := archive |};
    {| name := "Android Package"; format := "apk"; extension := "apk";
       mime := "application/vnd.android.package-archive";
       from := true; to := false; internal := "apk"; category := archive |} ].

(** The callback of [inputFiles.map] in [RenameHandler.doConvert]. *)
Definition rename_file (outputFormat : FileFormat) (file : FileData) : FileData :=
  {| file_name := stem (file_name file) ++ "." ++ extension outputFormat;
     bytes := bytes file |}.

Definition RenameHandler : FormatHandler :=
  {| handler_name := "rename";
     supportedFormats := Some rename_formats;
     ready := true;
     init := InitSets true (Some rename_formats);
     doConvert := fun inputFiles _ outputFormat =>
                    inr (map (rename_file outputFormat) inputFiles) |}.

(** The source's [handlerClasses = [CanvasToBlobHandler, RenameHandler]].
    The canvas handler works through the DOM, which is not modelled: it is
    taken as any handler object [canvas]. *)
Definition source_handlerClasses (canvas : FormatHandler) : list FormatHandler :=
  [canvas; RenameHandler].

(** ** Auto-detection of the input format ([ConverterApp.tsx]) *)

(** What [handleFilesSelected] passes to [setInputFormat], if anything;
    [types] lists the [type] of each selected file. *)
Definition detected_input (st : ConverterState) (types : list string) : option FileFormat :=
  match types with
  | [] => None
  | m :: _ =>
      if m =? "" then None
      else
        match findFormatByMime st m with
        | Some f => if from f then Some f else None
        | None => None
        end
  end.

(** ** More predicates on paths and traces *)

(** A handler that routing can use: it has a format list and is ready. *)
Definition usable (h : FormatHandler) : bool :=
  match supportedFormats h with
  | Some _ => ready h
  | None => false
  end.

(** The steps of a path hand over from one to the next: from [a] to [b]. *)
Fixpoint linked (a b : FileFormat) (p : list Step) : Prop :=
  match p with
  | [] => a = b
  | s :: rest => inputFormat s = a ∧ linked (outputFormat s) b rest
  end.

(** [a] occurs in [l] at an earlier position than [b]. *)
Definition before {A} (l : list A) (a b : A) : Prop :=
  ∃ l1 l2 l3, l = l1 ++ a :: l2 ++ b :: l3.

(** The catalog as the loop over the handlers leaves it, before the sort:
    the first declaration of every (mime, format-code) pair, in registration
    order. *)
Definition collected (hs : list FormatHandler) : list FileFormat :=
  fold_left collect_format (declared_formats hs) [].

(** The label [convert] records for a completed step. *)
Definition step_label (toUpperCase : string → string) (s : Step) : string :=
  toUpperCase (format (outputFormat s)).

(** The files a sequence of steps turns [fs] into, when none of them throws. *)
Fixpoint piped (steps : list Step) (fs : list FileData) : option (list FileData) :=
  match steps with
  | [] => Some fs
  | s :: rest =>
      match fst (step_outcome s fs) with
      | inr out => piped rest out
      | inl _ => None
      end
  end.

(** The six mime types that [normalizeMimeType] rewrites. *)
Definition is_alias (m : string) : bool :=
  (m =? "audio/x-wav") || (m =? "audio/vnd.wave") || (m =? "image/x-icon")
  || (m =? "image/qoi") || (m =? "video/bink") || (m =? "video/binka").

(** [s] contains the character [c]. *)
Fixpoint contains_char (c : Ascii.ascii) (s : string) : bool :=
  match s with
  | EmptyString => false
  | String a s' => Ascii.eqb a c || contains_char c s'
  end.

(** ** More sample data *)

(** The ICO entry of [handlers/canvasToBlob.ts], filed under a mime type
    that [normalizeMimeType] rewrites. *)
Definition ico_format : FileFormat :=
  {| name := "ICO Icon"; format := "ico"; extension := "ico"; mime := "image/x-icon";
     from := true; to := false; internal := "ico"; category := image |}.

Definition wav_format := sample_format "WAV Audio" "wav" "audio/wav" true true audio.

Definition icon_handler := sample_handler "icons" [ico_format; png_format].
Definition wav_handler := sample_handler "audio" [wav_format].

(** A handler in the manner of [PdfToImgHandler] where there is no [window]:
    [init()] returns at once, the declared formats stay, [ready] stays false. *)
Definition idle_handler : FormatHandler :=
  {| handler_name := "PDF to Image";
     supportedFormats :=
       Some [ sample_format "Portable Document Format" "pdf" "application/pdf"
                true false document;
              png_output ];
     ready := false;
     init := InitSets false
       (Some [ sample_format "Portable Document Format" "pdf" "application/pdf"
                 true false document;
               png_output ]);
     doConvert := fun _ _ _ => inl (JsError "window is not defined") |}.

(** A handler that declares SVG to PNG and whose conversion throws an object
    without a string conversion, as [Object.create(null)] is:
    [String(e)] throws a [TypeError] for it. *)
Definition opaque_svg_handler : FormatHandler :=
  {| handler_name := "svg"; supportedFormats := Some [svg_input; png_output];
     ready := true; init := InitSets true (Some [svg_input; png_output]);
     doConvert := fun _ _ _ =>
       inl (JsOpaque (JsError "Cannot convert object to primitive value")) |}.

(** A handler that declares SVG to PNG and whose conversion throws a string. *)
Definition string_svg_handler : FormatHandler :=
  {| handler_name := "svg"; supportedFormats := Some [svg_input; png_output];
     ready := true; init := InitSets true (Some [svg_input; png_output]);
     doConvert := fun _ _ _ => inl (JsValue "out of memory") |}.

(** A file whose bytes can be read, and one whose read is rejected. *)
Definition upload (n : string) (b : list Byte.byte) : File :=
  {| upload_name := n; arrayBuffer := inr b |}.

Definition unreadable (n : string) : File :=
  {| upload_name := n;
     arrayBuffer := inl (JsError "The requested file could not be read") |}.

(** The [try] block of the step [s] enters [doConvert] of its handler, once. *)
Definition calls_own_handler (s : Step) : Prop :=
  ∀ files, convert_calls (snd (step_outcome s files)) = [handler_name (handler s)].

(** ** Output names of [handlers/canvasToBlob.ts] *)

(** [(name.split('.').slice(0, -1).join('.') || name) + '.' + extension], the
    name [CanvasToBlobHandler.doConvert] gives the file it produces. *)
Definition canvas_output_name (inputName : string) (outputFormat : FileFormat) : string :=
  (getBaseFileName inputName ++ "." ++ extension outputFormat)%string.

(** * Properties *)

#[local] Set Warnings "-clear-no-such-hyp".

(** ** Double-precision arithmetic *)

Lemma inject_Z_pos z : (0 < z)%Z → (0 < inject_Z z)%Q.
Proof. intros H. by rewrite (Zlt_Qlt 0 z) in H. Qed.

Lemma pow2_pos e : (0 < 2 ^ e)%Q.
Proof. by apply Qpower_0_lt. Qed.

Lemma pow2_le a b : (a <= b)%Z → (2 ^ a <= 2 ^ b)%Q.
Proof. intros H. by apply Qpower_le_compat_l. Qed.

Lemma pow2_succ e : (2 ^ (e + 1) == 2 * 2 ^ e)%Q.
Proof. rewrite Qpower_plus by done. change (2 ^ 1)%Q with 2%Q. ring. Qed.

Lemma pow2_Z n : (0 <= n)%Z → (inject_Z (2 ^ n) == 2 ^ n)%Q.
Proof. intros H. by rewrite Zpower_Qpower. Qed.

Lemma ilog2_spec x : (0 < x)%Q → (2 ^ ilog2 x <= x)%Q ∧ (x < 2 ^ (ilog2 x + 1))%Q.
Proof.
  intros Hx. destruct x as [a b]. unfold ilog2. cbn [Qnum Qden].
  assert (Ha : (0 < a)%Z) by (unfold Qlt in Hx; simpl in Hx; lia).
  set (la := Z.log2 a). set (lb := Z.log2 (Z.pos b)).
  pose proof (Z.log2_spec a Ha) as [Ha1 Ha2]. fold la in Ha1, Ha2.
  pose proof (Z.log2_spec (Z.pos b) ltac:(lia)) as [Hb1 Hb2]. fold lb in Hb1, Hb2.
  pose proof (Z.log2_nonneg a) as Hla. fold la in Hla.
  pose proof (Z.log2_nonneg (Z.pos b)) as Hlb. fold lb in Hlb.
  assert (Hq : (a # b == inject_Z a / inject_Z (Z.pos b))%Q) by apply Qmake_Qdiv.
  assert (Hbpos : (0 < inject_Z (Z.pos b))%Q) by (by apply inject_Z_pos).
  rewrite <- Z.add_1_r in Ha2, Hb2.
  rewrite Zle_Qle in Ha1, Hb1. rewrite Zlt_Qlt in Ha2, Hb2.
  rewrite pow2_Z in Ha1, Hb1, Ha2, Hb2 by lia.
  assert (Hla' : (2 ^ la == 2 ^ (la - lb) * 2 ^ lb)%Q).
  { rewrite <- Qpower_plus by done. by replace (la - lb + lb)%Z with la by lia. }
  pose proof (pow2_pos (la - lb)) as Hk. pose proof (pow2_pos lb) as Hplb.
  pose proof (pow2_succ la) as Hsa. pose proof (pow2_succ lb) as Hsb.
  destruct (Qle_bool (2 ^ (la - lb)) (a # b)) eqn:E.
  - apply Qle_bool_iff in E. split; [done|].
    rewrite Hq. apply Qlt_shift_div_r; [done|].
    rewrite pow2_succ. nra.
  - assert (E' : (a # b < 2 ^ (la - lb))%Q).
    { apply Qnot_le_lt. intros H. apply Qle_bool_iff in H. congruence. }
    replace (la - lb - 1 + 1)%Z with (la - lb)%Z by lia. split; [|done].
    rewrite Hq. apply Qle_shift_div_l; [done|].
    assert (Hk' : (2 ^ (la - lb) == 2 * 2 ^ (la - lb - 1))%Q).
    { rewrite <- pow2_succ. by replace (la - lb - 1 + 1)%Z with (la - lb)%Z by lia. }
    pose proof (pow2_pos (la - lb - 1)). nra.
Qed.

Lemma ilog2_mono x y : (0 < x)%Q → (x <= y)%Q → (ilog2 x <= ilog2 y)%Z.
Proof.
  intros Hx Hxy.
  destruct (ilog2_spec x Hx) as [H1 _].
  destruct (ilog2_spec y) as [_ H2]; [lra|].
  assert (H : (2 ^ ilog2 x < 2 ^ (ilog2 y + 1))%Q) by lra.
  apply Qpower_lt_compat_l_inv in H; [lia|done].
Qed.

Lemma rne_floor s : (Qfloor s <= rne s <= Qfloor s + 1)%Z.
Proof.
  unfold rne. destruct (Qcompare _ _); [destruct (Z.even _)|..]; lia.
Qed.

Lemma rne_Z z : rne (inject_Z z) = z.
Proof.
  unfold rne. rewrite Qfloor_Z.
  destruct (Qcompare_spec (inject_Z z - inject_Z z) (1 # 2)) as [E|E|E];
    [exfalso; lra|done|exfalso; lra].
Qed.

Lemma rne_mono s t : (s <= t)%Q → (rne s <= rne t)%Z.
Proof.
  intros Hst. pose proof (Qfloor_resp_le _ _ Hst) as Hf.
  pose proof (rne_floor s) as Hs. pose proof (rne_floor t) as Ht.
  destruct (decide (Qfloor s = Qfloor t)) as [Heq|Hne]; [|lia].
  unfold rne in *. rewrite <- Heq in *. set (q := Qfloor s) in *.
  destruct (Qcompare_spec (s - inject_Z q) (1 # 2)) as [Es|Es|Es];
    destruct (Qcompare_spec (t - inject_Z q) (1 # 2)) as [Et|Et|Et];
    try destruct (Z.even q); try lia; exfalso; lra.
Qed.

Lemma rne_ge a s : (inject_Z a <= s)%Q → (a <= rne s)%Z.
Proof. intros H. apply rne_mono in H. by rewrite rne_Z in H. Qed.

Lemma rne_le b s : (s <= inject_Z b)%Q → (rne s <= b)%Z.
Proof. intros H. apply rne_mono in H. by rewrite rne_Z in H. Qed.

(** The scaled value lies in the binade of 53-bit integers. *)
Lemma fl_mantissa x :
  (0 < x)%Q → (2 ^ 52 <= rne (x / 2 ^ (ilog2 x - 52)) <= 2 ^ 53)%Z.
Proof.
  intros Hx. destruct (ilog2_spec x Hx) as [H1 H2].
  set (p := ilog2 x) in *. pose proof (pow2_pos (p - 52)) as He.
  assert (Hp : (2 ^ p == 2 ^ 52 * 2 ^ (p - 52))%Q).
  { rewrite <- Qpower_plus by done. by replace (52 + (p - 52))%Z with p by lia. }
  assert (Hp' : (2 ^ (p + 1) == 2 ^ 53 * 2 ^ (p - 52))%Q).
  { rewrite <- Qpower_plus by done. by replace (53 + (p - 52))%Z with (p + 1)%Z by lia. }
  split.
  - apply rne_ge. apply Qle_shift_div_l; [done|]. rewrite pow2_Z by lia. lra.
  - apply rne_le. apply Qle_shift_div_r; [done|]. rewrite pow2_Z by lia. lra.
Qed.

Lemma fl_pos x : (0 < x)%Q → (0 < fl x)%Q.
Proof.
  intros Hx. unfold fl. pose proof (fl_mantissa x Hx) as [H _].
  pose proof (pow2_pos (ilog2 x - 52)).
  assert ((0 < inject_Z (rne (x / 2 ^ (ilog2 x - 52))))%Q).
  { apply inject_Z_pos. lia. }
  nra.
Qed.

Lemma fl_mono x y : (0 < x)%Q → (x <= y)%Q → (fl x <= fl y)%Q.
Proof.
  intros Hx Hxy. assert (Hy : (0 < y)%Q) by lra.
  pose proof (ilog2_mono x y Hx Hxy) as Hp.
  pose proof (fl_mantissa x Hx) as [_ Hmx]. pose proof (fl_mantissa y Hy) as [Hmy _].
  unfold fl. set (px := ilog2 x) in *. set (py := ilog2 y) in *.
  pose proof (pow2_pos (px - 52)) as Hex. pose proof (pow2_pos (py - 52)) as Hey.
  destruct (decide (px = py)) as [Heq|Hne].
  - rewrite <- Heq. apply Qmult_le_compat_r; [|lra].
    rewrite <- Zle_Qle. apply rne_mono.
    apply Qle_shift_div_l; [done|].
    assert (Hd : (x / 2 ^ (px - 52) * 2 ^ (px - 52) == x)%Q) by (field; lra).
    lra.
  - assert (Hlt : (px + 1 <= py)%Z) by lia.
    rewrite Zle_Qle in Hmx, Hmy. rewrite pow2_Z in Hmx, Hmy by lia.
    assert (H1 : (2 ^ 53 * 2 ^ (px - 52) == 2 ^ (px + 1))%Q).
    { rewrite <- Qpower_plus by done. by replace (53 + (px - 52))%Z with (px + 1)%Z by lia. }
    assert (H2 : (2 ^ 52 * 2 ^ (py - 52) == 2 ^ py)%Q).
    { rewrite <- Qpower_plus by done. by replace (52 + (py - 52))%Z with py by lia. }
    pose proof (pow2_le _ _ Hlt) as H3.
    set (mx := inject_Z (rne (x / 2 ^ (px - 52)))) in *.
    set (my := inject_Z (rne (y / 2 ^ (py - 52)))) in *.
    assert ((mx * 2 ^ (px - 52) <= 2 ^ 53 * 2 ^ (px - 52))%Q) by (apply Qmult_le_compat_r; lra).
    assert ((2 ^ 52 * 2 ^ (py - 52) <= my * 2 ^ (py - 52))%Q) by (apply Qmult_le_compat_r; lra).
    lra.
Qed.

Lemma Math_round_mono x y : (x <= y)%Q → (Math_round x <= Math_round y)%Z.
Proof. intros H. apply Qfloor_resp_le. lra. Qed.

Lemma fl_1 : (fl 1 == 1)%Q.
Proof. by vm_compute. Qed.

Lemma fl_80 : (fl 80 == 80)%Q.
Proof. by vm_compute. Qed.

Lemma fl_100 : (fl 100 == 100)%Q.
Proof. by vm_compute. Qed.

(** The shape both percentages share: a ratio in (0, 1], rounded, scaled by
    an integer constant, rounded, and rounded to an integer. *)
Lemma scaled_range x c :
  (0 < x <= 1)%Q → (0 < inject_Z c)%Q → (fl (inject_Z c) == inject_Z c)%Q →
  (0 <= Math_round (fl (fl x * inject_Z c)) <= c)%Z.
Proof.
  intros [Hx0 Hx1] Hc Hfc.
  pose proof (fl_pos x Hx0) as Hp. pose proof (fl_mono x 1 Hx0 Hx1) as Hm.
  rewrite fl_1 in Hm.
  assert (Hy0 : (0 < fl x * inject_Z c)%Q) by nra.
  assert (Hy1 : (fl x * inject_Z c <= inject_Z c)%Q) by nra.
  pose proof (fl_pos _ Hy0) as Hp'. pose proof (fl_mono _ _ Hy0 Hy1) as Hm'.
  rewrite Hfc in Hm'. unfold Math_round. split.
  - replace 0%Z with (Qfloor 0) by done. apply Qfloor_resp_le. lra.
  - assert (H : (Qfloor (fl (fl x * inject_Z c) + (1 # 2)) < c + 1)%Z); [|lia].
    rewrite Zlt_Qlt. eapply Qle_lt_trans; [apply Qfloor_le|].
    rewrite inject_Z_plus. change (inject_Z 1) with 1%Q. lra.
Qed.

Lemma scaled_mono x y c :
  (0 < x)%Q → (x <= y)%Q → (0 < c)%Q →
  (Math_round (fl (fl x * c)) <= Math_round (fl (fl y * c)))%Z.
Proof.
  intros Hx Hxy Hc. apply Math_round_mono.
  pose proof (fl_pos x Hx). pose proof (fl_mono x y Hx Hxy).
  apply fl_mono; nra.
Qed.

Lemma ratio_range (a b : Q) : (0 < a)%Q → (a <= b)%Q → (0 < a / b <= 1)%Q.
Proof.
  intros Ha Hab. assert (Hb : (0 < b)%Q) by lra. split.
  - apply Qlt_shift_div_l; [done|]. lra.
  - apply Qle_shift_div_r; [done|]. lra.
Qed.

Lemma ratio_mono (a a' b : Q) : (0 < b)%Q → (a <= a')%Q → (a / b <= a' / b)%Q.
Proof.
  intros Hb Ha. apply Qle_shift_div_l; [done|].
  assert (a / b * b == a)%Q by (field; lra). lra.
Qed.

Lemma inject_nat_le (i j : nat) : i <= j → (inject_Z (Z.of_nat i) <= inject_Z (Z.of_nat j))%Q.
Proof. intros H. rewrite <- Zle_Qle. lia. Qed.

Lemma inject_nat_nonneg (i : nat) : (0 <= inject_Z (Z.of_nat i))%Q.
Proof. apply (inject_nat_le 0 i). lia. Qed.

Lemma init_progress_range i n : i < n → (0 <= init_progress i n <= 100)%Z.
Proof.
  intros Hi. unfold init_progress.
  apply (scaled_range _ 100); [|done|apply fl_100].
  pose proof (inject_nat_nonneg i).
  assert ((inject_Z (Z.of_nat i) + 1 <= inject_Z (Z.of_nat n))%Q).
  { change 1%Q with (inject_Z 1). rewrite <- inject_Z_plus, <- Zle_Qle. lia. }
  apply ratio_range; lra.
Qed.

Lemma init_progress_mono i j n : i <= j → 0 < n → (init_progress i n <= init_progress j n)%Z.
Proof.
  intros Hij Hj. unfold init_progress.
  pose proof (inject_nat_nonneg i). pose proof (inject_nat_le i j Hij).
  assert (Hn : (0 < inject_Z (Z.of_nat n))%Q) by (apply inject_Z_pos; lia).
  apply scaled_mono; [|apply ratio_mono; lra|done].
  apply Qlt_shift_div_l; [done|]. lra.
Qed.

Lemma step_progress_range i n : i < n → (10 <= step_progress i n <= 90)%Z.
Proof.
  intros Hi. unfold step_progress.
  pose proof (scaled_range (inject_Z (Z.of_nat i + 1) / inject_Z (Z.of_nat n)) 80) as H.
  change (inject_Z 80) with 80%Q in H.
  destruct H as [H0 H1]; [|done|apply fl_80|lia].
  apply ratio_range; [apply inject_Z_pos; lia|rewrite <- Zle_Qle; lia].
Qed.

Lemma step_progress_mono i j n : i <= j → 0 < n → (step_progress i n <= step_progress j n)%Z.
Proof.
  intros Hij Hj. unfold step_progress.
  assert (Hn : (0 < inject_Z (Z.of_nat n))%Q) by (apply inject_Z_pos; lia).
  apply Z.add_le_mono_l. apply scaled_mono; [| |done].
  - apply Qlt_shift_div_l; [done|]. 
    assert ((0 < inject_Z (Z.of_nat i + 1))%Q) by (apply inject_Z_pos; lia). lra.
  - apply ratio_mono; [done|]. rewrite <- Zle_Qle. lia.
Qed.

(** On routes of at most three steps, all that [findConversionPath] returns
    with the bound [convert] passes, the double computation gives the nearest
    integer exactly. *)
Lemma step_progress_exact i n :
  i < n → n <= 3 → step_progress i n = (10 + round_div ((Z.of_nat i + 1) * 80) (Z.of_nat n))%Z.
Proof.
  intros Hi Hn.
  destruct n as [|[|[|[|n]]]]; [lia| | | |lia];
    destruct i as [|[|[|i]]]; try lia; by vm_compute.
Qed.

(** ** The pathfinder *)

Section Pathfinder.

Variable hs : list FormatHandler.

Lemma can_handle_true a b h :
  can_handle a b h = true ↔
  ∃ fs, supportedFormats h = Some fs ∧ ready h = true ∧
        canInput fs (mime a) = true ∧ canOutput fs (mime b) = true.
Proof.
  unfold can_handle. destruct (supportedFormats h) as [fs|]; [|naive_solver].
  destruct (ready h); simpl; rewrite ?andb_true_iff; naive_solver.
Qed.

Lemma findHandler_Some a b h :
  findHandler hs a b = Some h → h ∈ hs ∧ can_handle a b h = true.
Proof.
  intros H. apply find_some in H as [H1 H2].
  split; [by apply list_elem_of_In | done].
Qed.

Lemma findHandler_None a b :
  findHandler hs a b = None → ¬ edge hs (mime a) (mime b).
Proof.
  intros H (h & fs & Hin & Hfs & Hr & Hi & Ho).
  apply list_elem_of_In in Hin.
  pose proof (find_none _ _ H h Hin) as Hn.
  assert (can_handle a b h = true) by (apply can_handle_true; eauto).
  congruence.
Qed.

Lemma edge_findHandler a b :
  edge hs (mime a) (mime b) → ∃ h, findHandler hs a b = Some h.
Proof.
  intros He. destruct (findHandler hs a b) eqn:E; [eauto|].
  by apply findHandler_None in E.
Qed.

Lemma can_handle_edge a b h :
  h ∈ hs → can_handle a b h = true → edge hs (mime a) (mime b).
Proof.
  intros Hin (fs & ? & ? & ? & ?)%can_handle_true. exists h, fs. eauto.
Qed.

Lemma canOutput_elem fs f :
  f ∈ fs → to f = true → canOutput fs (mime f) = true.
Proof.
  intros Hin Ht. unfold canOutput. apply existsb_exists. exists f.
  split; [by apply list_elem_of_In|]. rewrite String.eqb_refl. by rewrite Ht.
Qed.

Lemma canOutput_witness fs m :
  canOutput fs m = true → ∃ f, f ∈ fs ∧ mime f = m ∧ to f = true.
Proof.
  unfold canOutput. intros (f & Hin & Hf)%existsb_exists.
  apply andb_true_iff in Hf as [He Ht]. apply String.eqb_eq in He.
  exists f. split; [by apply list_elem_of_In | done].
Qed.

(** *** How one expansion changes the frontier *)

Lemma grows_refl P fr : grows P fr fr.
Proof.
  exists []. simpl. rewrite !app_nil_r.
  repeat split; try done; [set_solver | constructor].
Qed.

Lemma grows_visited P fr fr' : grows P fr fr' → visited fr ⊆ visited fr'.
Proof. intros (news & _ & _ & -> & _). set_solver. Qed.

Lemma grows_trans P fr1 fr2 fr3 :
  grows P fr1 fr2 → grows P fr2 fr3 → grows P fr1 fr3.
Proof.
  intros (n1 & Hq1 & Hp1 & Hv1 & Hd1 & Hf1) (n2 & Hq2 & Hp2 & Hv2 & Hd2 & Hf2).
  exists (n1 ++ n2). rewrite Hq2, Hq1, Hp2, Hp1, Hv2, Hv1, map_app, list_to_set_app_L.
  rewrite <- !(assoc_L (++)). repeat split; try done.
  - set_solver.
  - apply NoDup_app. repeat split; try done.
    intros m Hm1 Hm2. apply list_elem_of_fmap in Hm2 as (e & -> & He).
    rewrite Forall_forall in Hf2. destruct (Hf2 e He) as [Hn _].
    apply Hn. rewrite Hv1. apply elem_of_union_l. by apply elem_of_list_to_set.
  - apply Forall_app. split; [done|].
    eapply Forall_impl; [exact Hf2|]. intros e [Hn HP]. split; [|done].
    intros Hin. apply Hn. rewrite Hv1. set_solver.
Qed.

Lemma expand_format_grows skip h cur p fr f fs :
  h ∈ hs → supportedFormats h = Some fs → ready h = true →
  canInput fs (mime cur) = true → f ∈ fs →
  grows (pushed_from hs skip cur p) fr (expand_format skip h cur p fr f).
Proof.
  intros Hh Hfs Hr Hc Hf. unfold expand_format.
  destruct (negb (to f) || skip f) eqn:E; [apply grows_refl|].
  apply orb_false_iff in E as [Et Es]. apply negb_false_iff in Et.
  case_bool_decide as Hv; [apply grows_refl|].
  eexists [ _ ]. simpl. repeat split; try done.
  - set_solver.
  - apply NoDup_singleton.
  - constructor; [|constructor]. split; [done|].
    exists h, fs. simpl. eauto 10.
Qed.

Lemma fold_expand_format_grows skip h cur p fs :
  h ∈ hs → supportedFormats h = Some fs → ready h = true →
  canInput fs (mime cur) = true →
  ∀ l fr, (∀ f, f ∈ l → f ∈ fs) →
    grows (pushed_from hs skip cur p) fr (fold_left (expand_format skip h cur p) l fr).
Proof.
  intros Hh Hfs Hr Hc. induction l as [|f l IH]; intros fr Hl; simpl.
  - apply grows_refl.
  - eapply grows_trans.
    + eapply expand_format_grows; eauto. apply Hl. left.
    + apply IH. intros g Hg. apply Hl. by right.
Qed.

Lemma expand_handler_grows skip cur p fr h :
  h ∈ hs → grows (pushed_from hs skip cur p) fr (expand_handler skip cur p fr h).
Proof.
  intros Hh. unfold expand_handler.
  destruct (supportedFormats h) as [fs|] eqn:Hfs; [|apply grows_refl].
  destruct (ready h) eqn:Hr; simpl; [|apply grows_refl].
  destruct (canInput fs (mime cur)) eqn:Hc; simpl; [|apply grows_refl].
  eapply fold_expand_format_grows; eauto.
Qed.

Lemma fold_expand_handler_grows skip cur p :
  ∀ l fr, (∀ h, h ∈ l → h ∈ hs) →
    grows (pushed_from hs skip cur p) fr (fold_left (expand_handler skip cur p) l fr).
Proof.
  induction l as [|h l IH]; intros fr Hl; simpl.
  - apply grows_refl.
  - eapply grows_trans.
    + apply expand_handler_grows. apply Hl. left.
    + apply IH. intros g Hg. apply Hl. by right.
Qed.

Lemma expand_grows skip cur p fr :
  grows (pushed_from hs skip cur p) fr (expand skip hs cur p fr).
Proof. apply fold_expand_handler_grows. auto. Qed.

(** Every admissible successor of [cur] is visited once [cur] is expanded. *)
Lemma expand_format_visits skip h cur p fr f :
  to f = true → skip f = false →
  mime f ∈ visited (expand_format skip h cur p fr f).
Proof.
  intros Ht Hs. unfold expand_format. rewrite Ht, Hs. simpl.
  case_bool_decide; [done|]. simpl. set_solver.
Qed.

Lemma fold_expand_format_visits skip h cur p fs :
  h ∈ hs → supportedFormats h = Some fs → ready h = true →
  canInput fs (mime cur) = true →
  ∀ l fr f, (∀ g, g ∈ l → g ∈ fs) → f ∈ l → to f = true → skip f = false →
    mime f ∈ visited (fold_left (expand_format skip h cur p) l fr).
Proof.
  intros Hh Hfs Hr Hc. induction l as [|g l IH]; intros fr f Hl Hf Ht Hs; simpl.
  - by apply elem_of_nil in Hf.
  - apply elem_of_cons in Hf as [->|Hf].
    + eapply grows_visited.
      * eapply fold_expand_format_grows; eauto. intros x Hx. apply Hl. by right.
      * by apply expand_format_visits.
    + apply IH; auto. intros x Hx. apply Hl. by right.
Qed.

Lemma fold_expand_handler_visits skip cur p :
  ∀ l fr h fs f, (∀ g, g ∈ l → g ∈ hs) → h ∈ l →
    supportedFormats h = Some fs → ready h = true →
    canInput fs (mime cur) = true → f ∈ fs → to f = true → skip f = false →
    mime f ∈ visited (fold_left (expand_handler skip cur p) l fr).
Proof.
  induction l as [|g l IH]; intros fr h fs f Hl Hh Hfs Hr Hc Hf Ht Hs; simpl.
  - by apply elem_of_nil in Hh.
  - apply elem_of_cons in Hh as [<-|Hh].
    + eapply grows_visited.
      * apply fold_expand_handler_grows. intros x Hx. apply Hl. by right.
      * unfold expand_handler. rewrite Hfs, Hr, Hc. simpl.
        eapply fold_expand_format_visits; eauto. apply Hl. left.
    + eapply IH; eauto. intros x Hx. apply Hl. by right.
Qed.

Lemma expand_visits skip cur p fr b :
  edge hs (mime cur) b → (∀ f, mime f = b → skip f = false) →
  b ∈ visited (expand skip hs cur p fr).
Proof.
  intros (h & fs & Hh & Hfs & Hr & Hi & Ho) Hs.
  apply canOutput_witness in Ho as (f & Hf & <- & Ht).
  eapply fold_expand_handler_visits; eauto.
Qed.

(** *** Termination of the search loop *)

Lemma pushed_from_mime skip cur p e :
  pushed_from hs skip cur p e → entry_mime e ∈ all_mimes hs.
Proof.
  intros (h & fs & Hh & Hfs & _ & _ & Hf & _). unfold all_mimes, entry_mime.
  apply elem_of_list_to_set, list_elem_of_In, in_flat_map.
  exists h. split; [by apply list_elem_of_In|]. rewrite Hfs. simpl.
  apply in_map. by apply list_elem_of_In.
Qed.

Lemma grows_measure skip cur p fr fr' :
  grows (pushed_from hs skip cur p) fr fr' →
  length (queue fr') + size (all_mimes hs ∖ visited fr')
  = length (queue fr) + size (all_mimes hs ∖ visited fr).
Proof.
  intros (news & -> & _ & -> & Hd & Hf).
  set (N := list_to_set (map entry_mime news) : gset string).
  assert (HN : size N = length news).
  { unfold N. rewrite size_list_to_set by done. by rewrite length_map. }
  assert (Hsub : N ⊆ all_mimes hs ∖ visited fr).
  { intros m Hm. unfold N in Hm. apply elem_of_list_to_set in Hm.
    apply list_elem_of_fmap in Hm as (e & -> & He).
    rewrite Forall_forall in Hf. destruct (Hf e He) as [Hn HP].
    apply elem_of_difference. split; [by eapply pushed_from_mime|done]. }
  assert (Hsplit : all_mimes hs ∖ visited fr = N ∪ all_mimes hs ∖ (N ∪ visited fr)).
  { apply set_eq. intros m. destruct (decide (m ∈ N)); set_solver. }
  rewrite Hsplit.
  rewrite (size_union N (all_mimes hs ∖ (N ∪ visited fr))) by set_solver. fold N.
  rewrite length_app. lia.
Qed.

Lemma expand_measure skip cur p fr :
  length (queue (expand skip hs cur p fr))
    + size (all_mimes hs ∖ visited (expand skip hs cur p fr))
  = length (queue fr) + size (all_mimes hs ∖ visited fr).
Proof. eapply grows_measure, expand_grows. Qed.

Lemma bfs_loop_terminates out maxDepth fuel : ∀ fr,
  iterations_bound hs fr <= fuel → is_Some (bfs_loop hs out maxDepth fuel fr).
Proof.
  unfold iterations_bound.
  induction fuel as [|fuel IH]; intros fr Hm; [lia|]. simpl.
  destruct (queue fr) as [|current rest] eqn:Hq; [eauto|].
  simpl in Hm.
  destruct (maxDepth <=? Z.of_nat (depth current))%Z.
  - apply IH. simpl. lia.
  - destruct (findHandler hs (entry_format current) out); [eauto|].
    apply IH. rewrite expand_measure. simpl. lia.
Qed.

Lemma bfs_loop_fuel out maxDepth fuel : ∀ fr x,
  bfs_loop hs out maxDepth fuel fr = Some x →
  ∀ fuel', fuel <= fuel' → bfs_loop hs out maxDepth fuel' fr = Some x.
Proof.
  induction fuel as [|fuel IH]; intros fr x H fuel' Hle; [done|].
  destruct fuel' as [|fuel']; [lia|]. simpl in *.
  destruct (queue fr) as [|current rest]; [done|].
  destruct (maxDepth <=? Z.of_nat (depth current))%Z.
  - apply IH; [done|lia].
  - destruct (findHandler hs (entry_format current) out); [done|].
    apply IH; [done|lia].
Qed.

(** *** Each mime type is pushed at most once *)

Lemma grows_log_ok P fr fr' : grows P fr fr' → log_ok fr → log_ok fr'.
Proof.
  unfold log_ok. intros (news & _ & Hp & Hv & Hd & Hf) [Hnd Hset].
  rewrite Hp, Hv. split.
  - apply NoDup_app. repeat split; try done.
    intros m Hm1 Hm2. apply list_elem_of_fmap in Hm2 as (e & -> & He).
    rewrite Forall_forall in Hf. destruct (Hf e He) as [Hn _].
    apply Hn. rewrite <- Hset. by apply elem_of_list_to_set.
  - rewrite list_to_set_app_L, Hset. set_solver.
Qed.

Lemma bfs_loop_log_ok out maxDepth fuel : ∀ fr r fr',
  bfs_loop hs out maxDepth fuel fr = Some (r, fr') → log_ok fr → log_ok fr'.
Proof.
  induction fuel as [|fuel IH]; intros fr r fr' H Hlog; [done|]. simpl in H.
  destruct (queue fr) as [|current rest]; [by simplify_eq|].
  destruct (maxDepth <=? Z.of_nat (depth current))%Z.
  - eapply IH; [exact H|done].
  - destruct (findHandler hs (entry_format current) out).
    + by simplify_eq.
    + eapply IH; [exact H|]. eapply grows_log_ok; [apply expand_grows|done].
Qed.

Lemma seed_log_ok inp : log_ok (seed hs inp).
Proof.
  eapply grows_log_ok; [apply expand_grows|]. split; [constructor|done].
Qed.

(** *** Soundness: a returned path is a route within the bound *)

Lemma walk_snoc n a b c : walk hs n a b → edge hs b c → walk hs (S n) a c.
Proof.
  induction 1 as [a|n a b' c' He Hw IH]; intros Hbc.
  - eapply walk_cons; [done|constructor].
  - eapply walk_cons; [done|]. by apply IH.
Qed.

Lemma route_walk a b p : route hs a b p → walk hs (length p) (mime a) (mime b).
Proof.
  induction 1 as [a|a b c p h Hr IH Hh Hc]; [constructor|].
  rewrite length_app. simpl. rewrite Nat.add_1_r.
  eapply walk_snoc; [done|]. by eapply can_handle_edge.
Qed.

Lemma route_steps a b p :
  route hs a b p →
  Forall (fun s => handler s ∈ hs ∧
                   can_handle (inputFormat s) (outputFormat s) (handler s) = true) p.
Proof.
  induction 1 as [a|a b c p h Hr IH Hh Hc]; [constructor|].
  apply Forall_app. split; [done|]. constructor; [|constructor]. done.
Qed.

Lemma pushed_from_route inp skip cur p e :
  route hs inp cur p → pushed_from hs skip cur p e →
  route hs inp (entry_format e) (entry_path e).
Proof.
  intros Hr (h & fs & Hh & Hfs & Hrd & Hc & Hf & Ht & _ & ->).
  apply route_snoc; [done..|]. apply can_handle_true. exists fs.
  repeat split; try done. by apply canOutput_elem.
Qed.

Lemma pushed_from_depth skip cur p e :
  pushed_from hs skip cur p e → depth e = S (length p).
Proof.
  intros (h & fs & _ & _ & _ & _ & _ & _ & _ & Hp). unfold depth.
  rewrite Hp, length_app. simpl. lia.
Qed.

Lemma grows_sound inp skip cur p fr fr' :
  route hs inp cur p → grows (pushed_from hs skip cur p) fr fr' →
  sound hs inp fr → sound hs inp fr'.
Proof.
  unfold sound. intros Hr (news & -> & _ & _ & _ & Hf) Hs.
  apply Forall_app. split; [done|].
  eapply Forall_impl; [exact Hf|]. intros e [_ HP]. by eapply pushed_from_route.
Qed.

Lemma seed_sound inp : sound hs inp (seed hs inp).
Proof.
  eapply grows_sound; [apply route_nil|apply expand_grows|]. constructor.
Qed.

Lemma bfs_loop_sound inp out maxDepth fuel : ∀ fr p fr',
  sound hs inp fr → bfs_loop hs out maxDepth fuel fr = Some (Some p, fr') →
  route hs inp out p ∧ (Z.of_nat (length p) <= maxDepth)%Z.
Proof.
  induction fuel as [|fuel IH]; intros fr p fr' Hs H; [done|]. simpl in H.
  destruct (queue fr) as [|current rest] eqn:Hq; [done|].
  unfold sound in Hs. rewrite Hq in Hs. apply Forall_cons in Hs as [Hc Hrest].
  destruct (maxDepth <=? Z.of_nat (depth current))%Z eqn:Hd.
  - eapply IH; [|exact H]. done.
  - apply Z.leb_gt in Hd.
    destruct (findHandler hs (entry_format current) out) as [h|] eqn:Hf.
    + simplify_eq. apply findHandler_Some in Hf as [Hh Hcan]. split.
      * by apply route_snoc.
      * rewrite length_app. simpl. unfold depth in Hd. lia.
    + eapply IH; [|exact H].
      eapply grows_sound; [exact Hc|apply expand_grows|done].
Qed.

(** *** Completeness: a short enough walk is found *)

Lemma owalk_walk V n a t : owalk hs V n a t → walk hs n a t.
Proof.
  induction 1 as [a t He|n a b t He Hb Hw IH].
  - eapply walk_cons; [done|constructor].
  - by eapply walk_cons.
Qed.

Lemma owalk_pos V n a t : owalk hs V n a t → 1 <= n.
Proof. destruct 1; lia. Qed.

Lemma walk_owalk n a t : walk hs n a t → n ≠ 0 → owalk hs ∅ n a t.
Proof.
  induction 1 as [a|n a b c He Hw IH]; intros Hn; [done|].
  destruct n as [|n].
  - inversion Hw; subst. by apply owalk_last.
  - apply owalk_step with b; [done|set_solver|]. by apply IH.
Qed.

(** Once more nodes are visited, a walk is re-anchored at its last newly
    visited node. *)
Lemma owalk_reanchor V V' n a t :
  owalk hs V n a t → V ⊆ V' →
  ∃ n' a', owalk hs V' n' a' t ∧
           ((a' = a ∧ n' <= n) ∨ (a' ∈ V' ∧ (a' ∉ V) ∧ n' < n)).
Proof.
  intros Hw Hsub. induction Hw as [a t He|n a b t He Hb Hw IH].
  - exists 1, a. split; [by apply owalk_last|]. left. done.
  - destruct IH as (n' & a' & Hw' & [[-> Hle]|(Hin & Hnin & Hlt)]).
    + destruct (decide (b ∈ V')) as [HbV|HbV].
      * exists n', b. split; [done|]. right. repeat split; [done..|lia].
      * exists (S n'), a. split; [by apply owalk_step with b|]. left. split; [done|lia].
    + exists n', a'. split; [done|]. right. repeat split; [done..|lia].
Qed.

Lemma levels_same c q : Forall (fun e => depth e = c) q → levels q.
Proof.
  induction 1 as [|x q Hx Hq IH]; simpl; [done|]. split; [|done].
  eapply Forall_impl; [exact Hq|]. simpl. intros e He. lia.
Qed.

Lemma levels_app c q news :
  levels q → Forall (fun y => depth y <= c <= S (depth y)) q →
  Forall (fun e => depth e = c) news → levels (q ++ news).
Proof.
  intros Hl Hq Hn. induction q as [|y q IH]; simpl.
  - by eapply levels_same.
  - simpl in Hl. destruct Hl as [Hy Hl]. apply Forall_cons in Hq as [Hyc Hq].
    split; [|by apply IH]. apply Forall_app. split; [done|].
    eapply Forall_impl; [exact Hn|]. simpl. intros e He. lia.
Qed.

Lemma grows_levels skip cur p x rest fr fr' :
  queue fr = rest → levels (x :: rest) → depth x = length p →
  grows (pushed_from hs skip cur p) fr fr' → levels (queue fr').
Proof.
  intros Hq [Hx Hl] Hd (news & -> & _ & _ & _ & Hf). rewrite Hq.
  apply (levels_app (S (depth x))); [done| |].
  - eapply Forall_impl; [exact Hx|]. simpl. intros e He. lia.
  - eapply Forall_impl; [exact Hf|]. simpl. intros e [_ HP].
    apply pushed_from_depth in HP. lia.
Qed.

Lemma grows_new_entry P fr fr' m :
  grows P fr fr' → m ∈ visited fr' → m ∉ visited fr →
  ∃ e, e ∈ queue fr' ∧ entry_mime e = m ∧ P e.
Proof.
  intros (news & -> & _ & -> & _ & Hf) Hin Hnin.
  apply elem_of_union in Hin as [Hin|Hin]; [|done].
  apply elem_of_list_to_set, list_elem_of_fmap in Hin as (e & -> & He).
  exists e. rewrite Forall_forall in Hf. destruct (Hf e He) as [_ HP].
  split; [|done]. apply elem_of_app. by right.
Qed.

Lemma grows_queue P fr fr' e : grows P fr fr' → e ∈ queue fr → e ∈ queue fr'.
Proof. intros (news & -> & _) He. apply elem_of_app. by left. Qed.

(** Expanding the head entry [x] keeps some entry on track. *)
Lemma expand_on_track k t skip cur p x rest fr fr' :
  queue fr = rest → levels (x :: rest) →
  depth x = length p → entry_mime x = mime cur →
  (∀ f, skip f = false) → ¬ edge hs (mime cur) t →
  fr' = expand skip hs cur p fr →
  (∃ e r, e ∈ x :: rest ∧ owalk hs (visited fr) r (entry_mime e) t ∧ depth e + r <= k) →
  on_track hs k t fr'.
Proof.
  intros Hq [Hx Hl] Hd Hm Hskip Hne -> (e & r & He & Hw & Hk).
  pose proof (expand_grows skip cur p fr) as Hg.
  pose proof (grows_visited _ _ _ Hg) as Hsub.
  assert (Hnew : ∀ m n, m ∈ visited (expand skip hs cur p fr) → m ∉ visited fr →
            owalk hs (visited (expand skip hs cur p fr)) n m t →
            S (depth x) + n <= k → on_track hs k t (expand skip hs cur p fr)).
  { intros m n Hin Hnin Hw' Hle.
    destruct (grows_new_entry _ _ _ m Hg Hin Hnin) as (e' & He' & Hm' & HP).
    exists e', n. rewrite Hm'. repeat split; [done..|].
    apply pushed_from_depth in HP. lia. }
  apply elem_of_cons in He as [->|He].
  - inversion Hw as [a t' Hedge|n a b t' Hedge Hb Hw']; subst.
    { exfalso. apply Hne. by rewrite <- Hm. }
    rewrite Hm in Hedge.
    assert (Hbv : b ∈ visited (expand skip hs cur p fr)) by (by apply expand_visits).
    destruct (owalk_reanchor _ _ _ _ _ Hw' Hsub)
      as (n' & a' & Hw'' & [[-> Hle]|(Hin & Hnin & Hlt)]).
    + apply (Hnew b n'); [done..|lia].
    + apply (Hnew a' n'); [done..|lia].
  - destruct (owalk_reanchor _ _ _ _ _ Hw Hsub)
      as (n' & a' & Hw'' & [[-> Hle]|(Hin & Hnin & Hlt)]).
    + exists e, n'. repeat split; [|done|lia].
      eapply grows_queue; [exact Hg|]. by rewrite Hq.
    + apply (Hnew a' n'); [done..|].
      rewrite Forall_forall in Hx. specialize (Hx e He). lia.
Qed.

Lemma bfs_loop_complete k out maxDepth fuel : ∀ fr res fr',
  bfs_loop hs out maxDepth fuel fr = Some (res, fr') →
  levels (queue fr) →
  on_track hs k (mime out) fr → (Z.of_nat k <= maxDepth)%Z →
  ∃ p, res = Some p ∧ length p <= k.
Proof.
  induction fuel as [|fuel IH]; intros fr res fr' H Hl Ht Hk; [done|].
  simpl in H. destruct Ht as (e & r & He & Hw & Her).
  destruct (queue fr) as [|x rest] eqn:Hq; [by apply elem_of_nil in He|].
  pose proof (owalk_pos _ _ _ _ Hw) as Hr.
  assert (Hxe : depth x <= depth e).
  { apply elem_of_cons in He as [->|He]; [done|].
    destruct Hl as [Hx _]. rewrite Forall_forall in Hx. specialize (Hx e He). lia. }
  destruct (maxDepth <=? Z.of_nat (depth x))%Z eqn:Hd.
  - apply Z.leb_le in Hd.
    eapply IH; [exact H|by destruct Hl| |done].
    exists e, r. simpl. repeat split; [|done..].
      apply elem_of_cons in He as [->|He]; [lia|done].
  - apply Z.leb_gt in Hd.
    destruct (findHandler hs (entry_format x) out) as [h|] eqn:Hf.
    + simplify_eq. eexists. split; [done|]. rewrite length_app. simpl.
      unfold depth in *. lia.
    + apply findHandler_None in Hf.
      set (fr1 := shift fr rest) in *.
      pose proof (expand_grows (fun _ => false) (entry_format x) (entry_path x) fr1) as Hg.
      eapply IH; [exact H| | |done].
      * eapply (grows_levels _ _ _ x rest fr1); [done|done|done|exact Hg].
      * eapply (expand_on_track k (mime out) _ (entry_format x) (entry_path x) x rest fr1);
          [done|done|done|done|done|done|done|].
        exists e, r. done.
Qed.

End Pathfinder.

(** *** The pathfinder as a whole *)

Lemma walk_zero hs a b : walk hs 0 a b → a = b.
Proof. by inversion 1. Qed.

Lemma walk_one hs a b : walk hs 1 a b ↔ edge hs a b.
Proof.
  split.
  - inversion 1 as [|n a' b' c He Hw]; subst. by apply walk_zero in Hw as ->.
  - intros He. eapply walk_cons; [done|constructor].
Qed.

Lemma seed_levels hs inp : levels (queue (seed hs inp)).
Proof.
  destruct (expand_grows hs (fun f => mime f =? mime inp) inp [] empty_frontier)
    as (news & Hq & _ & _ & _ & Hf).
  unfold seed. rewrite Hq. simpl. apply (levels_same 1).
  eapply Forall_impl; [exact Hf|]. simpl. intros e [_ HP].
  by apply pushed_from_depth in HP.
Qed.

Lemma seed_on_track hs inp t k :
  walk hs k (mime inp) t → (∀ n, n < k → ¬ walk hs n (mime inp) t) →
  ¬ edge hs (mime inp) t → mime inp ≠ t →
  on_track hs k t (seed hs inp).
Proof.
  intros Hw Hmin Hne Hst.
  assert (Hk : k ≠ 0) by (intros ->; by apply walk_zero in Hw).
  apply walk_owalk in Hw; [|done].
  inversion Hw as [a t' He|n a b t' He Hb Hw']; subst; [done|].
  assert (Hbs : b ≠ mime inp).
  { intros ->. apply (Hmin n); [lia|]. by eapply owalk_walk. }
  pose proof (expand_grows hs (fun f => mime f =? mime inp) inp [] empty_frontier) as Hg.
  fold (seed hs inp) in Hg.
  assert (Hbv : b ∈ visited (seed hs inp)).
  { apply expand_visits; [done|]. intros f <-. by apply String.eqb_neq. }
  assert (Hsub : (∅ : gset string) ⊆ visited (seed hs inp)) by set_solver.
  destruct (owalk_reanchor _ _ _ _ _ _ Hw' Hsub) as (n' & a' & Hw'' & Hcase).
  assert (Ha' : a' ∈ visited (seed hs inp) ∧ n' <= n).
  { destruct Hcase as [[-> Hle]|(Hin & _ & Hlt)]; split; [done|lia|done|lia]. }
  destruct Ha' as [Hin Hle].
  destruct (grows_new_entry _ _ _ a' Hg Hin) as (e & He' & Hm & HP); [set_solver|].
  exists e, n'. rewrite Hm. repeat split; [done..|].
  apply pushed_from_depth in HP. simpl in HP. lia.
Qed.

Lemma findConversionPath_sound hs inp out maxDepth p :
  findConversionPath hs inp out maxDepth = Some p →
  route hs inp out p ∧ (length p = 1 ∨ (Z.of_nat (length p) <= maxDepth)%Z).
Proof.
  unfold findConversionPath. intros H.
  destruct (findHandler hs inp out) as [h|] eqn:Hf.
  - simplify_eq. apply findHandler_Some in Hf as [Hh Hc]. split; [|by left].
    by apply (route_snoc hs inp inp out [] h (route_nil hs inp)).
  - destruct (maxDepth <=? 1)%Z; [done|].
    destruct (bfs_loop hs out maxDepth _ _) as [[res fr']|] eqn:Hb; [|done].
    subst res. eapply bfs_loop_sound in Hb as [Hr Hl]; [|apply seed_sound].
    split; [done|by right].
Qed.

Lemma findConversionPath_walk hs inp out maxDepth p :
  findConversionPath hs inp out maxDepth = Some p →
  walk hs (length p) (mime inp) (mime out).
Proof. intros [Hr _]%findConversionPath_sound. by apply route_walk. Qed.

(** If no walk of at most [maxDepth] edges exists, the pathfinder says so. *)
Lemma findConversionPath_no_walk hs inp out maxDepth :
  (1 <= maxDepth)%Z →
  (∀ n, (Z.of_nat n <= maxDepth)%Z → ¬ walk hs n (mime inp) (mime out)) →
  findConversionPath hs inp out maxDepth = None.
Proof.
  intros Hd Hno. destruct (findConversionPath hs inp out maxDepth) as [p|] eqn:E; [|done].
  pose proof (findConversionPath_walk _ _ _ _ _ E) as Hw.
  apply findConversionPath_sound in E as [_ [Hl|Hl]].
  - exfalso. apply (Hno (length p)); [lia|done].
  - exfalso. by apply (Hno (length p)).
Qed.

(** ** The registry *)

Lemma collect_format_new catalog f :
  declared catalog f = false → collect_format catalog f = catalog ++ [f].
Proof. unfold collect_format. intros ->. by destruct f. Qed.

Lemma collect_format_old catalog f :
  declared catalog f = true → collect_format catalog f = catalog.
Proof. unfold collect_format. by intros ->. Qed.

Lemma same_key_true f g : same_key f g = true ↔ key g = key f.
Proof.
  unfold same_key, key. rewrite andb_true_iff, !String.eqb_eq.
  split; [intros [H1 H2]; by rewrite H1, H2 | by intros [= H1 H2]].
Qed.

Lemma same_key_refl f : same_key f f = true.
Proof. by apply same_key_true. Qed.

Lemma declared_true catalog f : declared catalog f = true ↔ key f ∈ map key catalog.
Proof.
  unfold declared. rewrite existsb_exists. split.
  - intros (g & Hg & Hk). apply same_key_true in Hk. rewrite <- Hk.
    apply list_elem_of_fmap. exists g. split; [done|by apply list_elem_of_In].
  - intros (g & Hk & Hg)%list_elem_of_fmap. exists g.
    split; [by apply list_elem_of_In|]. by apply same_key_true.
Qed.

Lemma declared_false catalog f : declared catalog f = false ↔ key f ∉ map key catalog.
Proof.
  rewrite <- declared_true. destruct (declared catalog f); naive_solver.
Qed.


(** The entries of the merged catalog: those already there, and the first
    declaration of every pair that was not. *)
Lemma collect_elem D : ∀ acc g,
  g ∈ fold_left collect_format D acc ↔
  g ∈ acc ∨ (declared acc g = false ∧ find (same_key g) D = Some g).
Proof.
  induction D as [|f D IH]; intros acc g; simpl; [naive_solver|].
  rewrite IH. destruct (same_key g f) eqn:Hk.
  - assert (Hd : declared acc g = declared acc f).
    { apply same_key_true in Hk. destruct (declared acc f) eqn:E.
      - apply declared_true. rewrite <- Hk. by apply declared_true.
      - apply declared_false. rewrite <- Hk. by apply declared_false. }
    destruct (declared acc f) eqn:E.
    + rewrite collect_format_old by done. rewrite Hd. naive_solver.
    + rewrite collect_format_new by done. rewrite Hd.
      assert (declared (acc ++ [f]) g = true) as ->.
      { apply declared_true. rewrite map_app. apply elem_of_app. right.
        apply same_key_true in Hk. rewrite <- Hk. simpl. left. }
      rewrite elem_of_app, list_elem_of_singleton. naive_solver.
  - assert (Hne : key f ≠ key g).
    { intros Heq. apply same_key_true in Heq. congruence. }
    destruct (declared acc f) eqn:E.
    + by rewrite collect_format_old.
    + rewrite collect_format_new by done.
      assert (declared (acc ++ [f]) g = declared acc g) as ->.
      { destruct (declared acc g) eqn:Eg.
        - apply declared_true. rewrite map_app. apply elem_of_app. left.
          by apply declared_true.
        - apply declared_false. rewrite map_app. intros [Hin|Hin]%elem_of_app.
          + by apply declared_false in Eg.
          + simpl in Hin. apply list_elem_of_singleton in Hin. congruence. }
      rewrite elem_of_app, list_elem_of_singleton.
      split; [|naive_solver]. intros [[Hin| ->]|H]; [naive_solver| |naive_solver].
      by rewrite same_key_refl in Hk.
Qed.

Lemma find_same_key D f : f ∈ D → ∃ g, find (same_key f) D = Some g ∧ key g = key f.
Proof.
  intros Hin. destruct (find (same_key f) D) as [g|] eqn:E.
  - exists g. split; [done|]. apply find_some in E as [_ Hk]. by apply same_key_true.
  - apply list_elem_of_In in Hin. pose proof (find_none _ _ E f Hin) as Hn.
    by rewrite same_key_refl in Hn.
Qed.

Lemma find_ext {A} (p q : A → bool) l : (∀ x, p x = q x) → find p l = find q l.
Proof. intros H. induction l as [|x l IH]; simpl; [done|]. by rewrite H, IH. Qed.

Lemma same_key_ext f g : key f = key g → ∀ x, same_key f x = same_key g x.
Proof. unfold same_key, key. intros [= -> ->] x. done. Qed.



(** *** The sort *)

Lemma insert_by_perm {A} (cmp : A → A → Z) x l : insert_by cmp x l ≡ₚ x :: l.
Proof.
  induction l as [|y l IH]; simpl; [done|].
  destruct (cmp x y <=? 0)%Z; [done|]. rewrite IH. apply Permutation_swap.
Qed.

Lemma sort_by_perm {A} (cmp : A → A → Z) l : sort_by cmp l ≡ₚ l.
Proof.
  induction l as [|x l IH]; simpl; [done|].
  rewrite insert_by_perm. by rewrite IH.
Qed.

Lemma insert_by_sorted {A} (cmp : A → A → Z) x l :
  (∀ a b, (0 < cmp a b)%Z → (cmp b a <= 0)%Z) →
  (∀ a b c, (cmp a b <= 0)%Z → (cmp b c <= 0)%Z → (cmp a c <= 0)%Z) →
  StronglySorted (fun a b => (cmp a b <= 0)%Z) l →
  StronglySorted (fun a b => (cmp a b <= 0)%Z) (insert_by cmp x l).
Proof.
  intros Htot Htr. induction 1 as [|y l Hs IH Hy]; simpl.
  - repeat constructor.
  - destruct (cmp x y <=? 0)%Z eqn:E.
    + apply Z.leb_le in E. constructor; [by constructor|].
      constructor; [done|]. eapply Forall_impl; [exact Hy|]. simpl. eauto.
    + apply Z.leb_gt in E. constructor; [done|].
      rewrite insert_by_perm. constructor; [by apply Htot|done].
Qed.

Lemma sort_by_sorted {A} (cmp : A → A → Z) l :
  (∀ a b, (0 < cmp a b)%Z → (cmp b a <= 0)%Z) →
  (∀ a b c, (cmp a b <= 0)%Z → (cmp b c <= 0)%Z → (cmp a c <= 0)%Z) →
  StronglySorted (fun a b => (cmp a b <= 0)%Z) (sort_by cmp l).
Proof.
  intros Htot Htr. induction l as [|x l IH]; simpl; [constructor|].
  by apply insert_by_sorted.
Qed.

Lemma category_index_inj a b : category_index a = category_index b → a = b.
Proof. by destruct a, b. Qed.

Lemma compare_formats_le lc a b :
  (compare_formats lc a b <= 0)%Z ↔ catalog_le lc a b.
Proof.
  unfold compare_formats, catalog_le. case_bool_decide as Hc.
  - split; [intros H; left|intros [H|[H _]]; [lia|done]].
    assert (category_index (category a) ≠ category_index (category b))
      by (intros ?%category_index_inj; done). lia.
  - rewrite Hc. split; [by right|]. intros [H|[_ H]]; [lia|done].
Qed.

Section Registry.

Variable localeCompare : string → string → Z.
Variable handlerClasses : list FormatHandler.

(** *** Running the loop over the handler classes *)

Lemma init_step_run i h st :
  try_catch (init_handler handlerClasses i h) (fun e => emit (EvWarn e)) st
  = (inr tt, settle st h, init_events_of handlerClasses i h).
Proof.
  unfold try_catch, init_handler, call_init, settle, initialised, init_events_of.
  unfold mbind, M_bind, emit, throw, mret, M_ret. simpl.
  destruct (init h) as [e|r fs]; simpl; [done|].
  unfold register. destruct fs as [fs|]; simpl; [done|].
  by destruct st.
Qed.

Lemma init_loop_run classes : ∀ i st,
  init_loop handlerClasses i classes st
  = (inr tt, fold_left settle classes st, init_events handlerClasses i classes).
Proof.
  induction classes as [|h rest IH]; intros i st; simpl; [done|].
  unfold mbind, M_bind at 1. rewrite init_step_run. by rewrite IH.
Qed.

Lemma settle_all classes : ∀ st,
  fold_left settle classes st
  = {| handlers := handlers st ++ omap initialised classes;
       allFormats := fold_left collect_format
                       (declared_formats (omap initialised classes)) (allFormats st);
       initialized := initialized st |}.
Proof.
  induction classes as [|h rest IH]; intros st; simpl.
  - rewrite app_nil_r. by destruct st.
  - rewrite IH. unfold settle. destruct (initialised h) as [h'|]; simpl; [|done].
    unfold declared_formats. simpl. rewrite fold_left_app.
    by rewrite <- (assoc_L (++)).
Qed.

(** A run that passes the guard leaves [loaded_state], whatever came before. *)
Lemma initializeConverter_fresh st :
  initialized st && (0 <? length (allFormats st))%nat = false →
  initializeConverter localeCompare handlerClasses st
  = (inr (allFormats (loaded_state localeCompare handlerClasses)),
     loaded_state localeCompare handlerClasses,
     loading_events localeCompare handlerClasses).
Proof.
  intros Hg. unfold initializeConverter.
  unfold mbind at 1, M_bind at 1, get_state at 1. rewrite Hg.
  unfold mbind, M_bind, set_handlers, set_allFormats, set_initialized,
    get_state, put_state, emit, mret, M_ret. simpl.
  unfold mbind, M_bind. rewrite init_loop_run, settle_all. simpl.
  rewrite ?app_nil_r. reflexivity.
Qed.

(** A run that meets the guard does nothing. *)
Lemma initializeConverter_cached st :
  initialized st && (0 <? length (allFormats st))%nat = true →
  initializeConverter localeCompare handlerClasses st = (inr (allFormats st), st, []).
Proof.
  intros Hg. unfold initializeConverter.
  unfold mbind, M_bind, get_state. by rewrite Hg.
Qed.

End Registry.

(** ** The executor *)

Lemma run_step_run s fs st :
  run_step s fs st = (fst (step_outcome s fs), st, snd (step_outcome s fs)).
Proof.
  unfold run_step, step_outcome.
  destruct (own_format (handler s) from (mime (inputFormat s))) as [hin|]; [|done].
  destruct (own_format (handler s) to (mime (outputFormat s))) as [hout|]; [|done].
  unfold call_doConvert, mbind, M_bind, emit, throw, mret, M_ret. simpl.
  by destruct (doConvert (handler s) fs hin hout).
Qed.

Lemma run_steps_run up steps : ∀ i n fs labels st,
  run_steps up steps i n fs labels st
  = (fst (exec_steps up steps i n fs labels), st,
     snd (exec_steps up steps i n fs labels)).
Proof.
  induction steps as [|s rest IH]; intros i n fs labels st; simpl; [done|].
  unfold mbind at 1, M_bind at 1, emit at 1.
  unfold mbind at 1, M_bind at 1, try_catch.
  unfold mbind at 1, M_bind at 1. rewrite run_step_run.
  destruct (step_outcome s fs) as [[e|out] tr]; simpl.
  - unfold caught, mbind, M_bind, emit, of_result.
    destruct (exn_message e) as [raised|text]; simpl;
      unfold throw, mret, M_ret; simpl; by rewrite ?app_nil_r.
  - rewrite IH.
    destruct (exec_steps up rest (S i) n out _) as [r tr']. simpl.
    by rewrite app_nil_r.
Qed.

Section Executor.

Variable localeCompare : string → string → Z.
Variable toUpperCase : string → string.
Variable handlerClasses : list FormatHandler.

(** [convert] initialises the registry if need be and then routes and runs
    on the handlers in place. *)
Lemma convert_run files inp out st :
  convert localeCompare toUpperCase handlerClasses files inp out st
  = let st1 := if initialized st then st else loaded_state localeCompare handlerClasses in
    (fst (route_and_run toUpperCase (handlers st1) files inp out), st1,
     (if initialized st then [] else loading_events localeCompare handlerClasses)
     ++ EvProgress finding_report
        :: snd (route_and_run toUpperCase (handlers st1) files inp out)).
Proof.
  unfold convert.
  unfold mbind at 1, M_bind at 1, get_state at 1.
  unfold mbind at 1, M_bind at 1.
  assert (Hpre :
    (if negb (initialized st)
     then initializeConverter localeCompare handlerClasses ≫= (fun _ => mret ())
     else mret ()) st
    = (inr (), (if initialized st then st else loaded_state localeCompare handlerClasses),
       if initialized st then [] else loading_events localeCompare handlerClasses)).
  { destruct (initialized st) eqn:Hi; simpl; [done|].
    unfold mbind, M_bind. rewrite initializeConverter_fresh by (by rewrite Hi).
    unfold mret, M_ret. by rewrite app_nil_r. }
  rewrite Hpre. clear Hpre. cbv zeta.
  set (st1 := if initialized st then st else loaded_state localeCompare handlerClasses).
  unfold mbind at 1, M_bind at 1, emit at 1.
  unfold route_and_run.
  destruct (mime inp =? mime out) eqn:Hm.
  { unfold mbind, M_bind, of_result.
    destruct (read_files files) as [e|fileData]; unfold throw, mret, M_ret; simpl;
      by rewrite ?app_nil_r. }
  unfold mbind at 1, M_bind at 1, get_state at 1.
  destruct (findConversionPath (handlers st1) inp out 3) as [steps|] eqn:Hp.
  2:{ unfold mret, M_ret. simpl. done. }
  unfold mbind at 1, M_bind at 1, emit at 1.
  unfold mbind at 1, M_bind at 1, of_result.
  destruct (read_files files) as [e|currentFiles].
  { unfold throw. simpl. done. }
  unfold mret at 1, M_ret at 1.
  unfold mbind at 1, M_bind at 1. rewrite run_steps_run.
  destruct (exec_steps toUpperCase steps 0 (length steps) currentFiles _)
    as [[e|[res|[outs labels]]] tr]; simpl.
  - done.
  - unfold mret, M_ret. simpl. by rewrite ?app_nil_r.
  - unfold mbind, M_bind, emit, mret, M_ret. simpl. by rewrite ?app_nil_r.
Qed.

Lemma convert_state files inp out st r st' tr :
  convert localeCompare toUpperCase handlerClasses files inp out st = (r, st', tr) →
  st' = if initialized st then st else loaded_state localeCompare handlerClasses.
Proof. rewrite convert_run. cbv zeta. intros Heq. by simplify_eq. Qed.

End Executor.

Section States.

Variable localeCompare : string → string → Z.
Variable handlerClasses : list FormatHandler.

(** The module is in its fresh state or in the loaded one. *)
Lemma reachable_cases st :
  reachable localeCompare handlerClasses st →
  st = initial_state ∨ st = loaded_state localeCompare handlerClasses.
Proof.
  induction 1 as [|st r st' tr Hr IH Hrun|up st files inp out r st' tr Hr IH Hrun].
  - by left.
  - right. destruct (initialized st && (0 <? length (allFormats st))%nat) eqn:Hg.
    + rewrite initializeConverter_cached in Hrun by done. simplify_eq.
      destruct IH as [-> | ->]; [done|done].
    + rewrite initializeConverter_fresh in Hrun by done. by simplify_eq.
  - apply convert_state in Hrun. subst st'.
    destruct IH as [-> | ->]; simpl; [by right|by right].
Qed.

Lemma initializeConverter_state st r st' tr :
  reachable localeCompare handlerClasses st →
  initializeConverter localeCompare handlerClasses st = (r, st', tr) →
  st' = loaded_state localeCompare handlerClasses ∧
  r = inr (allFormats (loaded_state localeCompare handlerClasses)).
Proof.
  intros Hr Hrun.
  destruct (initialized st && (0 <? length (allFormats st))%nat) eqn:Hg.
  - rewrite initializeConverter_cached in Hrun by done. simplify_eq.
    destruct (reachable_cases _ Hr) as [-> | ->]; [done|done].
  - rewrite initializeConverter_fresh in Hrun by done. by simplify_eq.
Qed.

End States.

(** ** Claims about the pathfinder *)

(** C1 (shortest-path property), as the code has it.  Let the capability
    graph over the ready handlers contain a conversion path of [k] edges
    from [mime inp] to [mime out] and none of fewer edges, the two mime types
    being distinct.  Then [findConversionPath] with [maxDepth >= k] returns a
    route of exactly [k] steps.  With [maxDepth < k] it returns no path
    provided [k >= 2]; a direct conversion ([k = 1]) is returned whatever the
    bound is, because the direct check precedes the test of [maxDepth]. *)
Theorem findConversionPath_shortest hs inp out maxDepth k :
  mime inp ≠ mime out →
  walk hs k (mime inp) (mime out) →
  (∀ n, n < k → ¬ walk hs n (mime inp) (mime out)) →
  ((Z.of_nat k <= maxDepth)%Z →
     ∃ p, findConversionPath hs inp out maxDepth = Some p ∧
          length p = k ∧ route hs inp out p) ∧
  ((maxDepth < Z.of_nat k)%Z → 2 <= k →
     findConversionPath hs inp out maxDepth = None) ∧
  (k = 1 → ∃ h, findConversionPath hs inp out maxDepth =
                  Some [ {| handler := h; inputFormat := inp; outputFormat := out |} ]).
Proof.
  intros Hne Hw Hmin.
  assert (Hk0 : k ≠ 0) by (intros ->; by apply walk_zero in Hw).
  assert (Hlen : ∀ p, findConversionPath hs inp out maxDepth = Some p → k <= length p).
  { intros p Hp. apply findConversionPath_walk in Hp.
    destruct (decide (k <= length p)) as [|Hlt]; [done|].
    exfalso. apply (Hmin (length p)); [lia|done]. }
  split; [|split].
  - intros Hk.
    destruct (findConversionPath hs inp out maxDepth) as [p|] eqn:E.
    + exists p. pose proof (Hlen p eq_refl) as Hge.
      pose proof (findConversionPath_sound _ _ _ _ _ E) as [Hr _].
      split; [done|]. split; [|done].
      revert E. unfold findConversionPath.
      destruct (findHandler hs inp out) as [h|] eqn:Hf.
      * intros E. simplify_eq. simpl in *.
        apply findHandler_Some in Hf as [Hh Hc].
        destruct (decide (k = 1)) as [|Hk1]; [done|].
        exfalso. apply (Hmin 1); [lia|]. apply walk_one. by eapply can_handle_edge.
      * apply findHandler_None in Hf.
        destruct (maxDepth <=? 1)%Z; [done|].
        destruct (bfs_loop hs out maxDepth _ _) as [[res fr']|] eqn:Hb; [|done].
        intros ->.
        eapply (bfs_loop_complete hs k) in Hb as (p' & Hp' & Hle);
          [| apply seed_levels | by apply seed_on_track | done].
        simplify_eq. lia.
    + exfalso. revert E. unfold findConversionPath.
      destruct (findHandler hs inp out) as [h|] eqn:Hf; [done|].
      apply findHandler_None in Hf.
      assert (Hk2 : 2 <= k).
      { destruct (decide (k = 1)) as [->|]; [|lia].
        by apply walk_one in Hw. }
      destruct (maxDepth <=? 1)%Z eqn:Hd; [apply Z.leb_le in Hd; lia|].
      destruct (bfs_loop_terminates hs out maxDepth
                  (iterations_bound hs (seed hs inp)) (seed hs inp)) as [[res fr'] Hb];
        [done|].
      rewrite Hb. intros ->.
      eapply (bfs_loop_complete hs k) in Hb as (p' & Hp' & Hle);
        [| apply seed_levels | by apply seed_on_track | done].
      done.
  - intros Hlt Hk2.
    destruct (findConversionPath hs inp out maxDepth) as [p|] eqn:E; [|done].
    pose proof (Hlen p eq_refl) as Hge.
    apply findConversionPath_sound in E as [_ [Hl|Hl]]; lia.
  - intros ->. apply walk_one in Hw.
    destruct (edge_findHandler hs inp out Hw) as [h Hf].
    exists h. unfold findConversionPath. by rewrite Hf.
Qed.

Lemma sample_html_png_walk :
  walk [html_handler; svg_handler] 2 (mime html_format) (mime png_format).
Proof.
  apply walk_cons with "image/svg+xml".
  - exists html_handler, [html_format; svg_output].
    split; [left|]. by vm_compute.
  - apply walk_one. exists svg_handler, [svg_input; png_output].
    split; [right; left|]. by vm_compute.
Qed.

Lemma sample_html_png_minimal n :
  n < 2 → ¬ walk [html_handler; svg_handler] n (mime html_format) (mime png_format).
Proof.
  intros Hn Hw. destruct n as [|[|n]]; [|  |lia].
  - by apply walk_zero in Hw.
  - apply walk_one in Hw as (h & fs & Hh & Hfs & Hr & Hi & Ho).
    apply elem_of_cons in Hh as [->|Hh].
    { simpl in Hfs. by simplify_eq. }
    apply elem_of_cons in Hh as [->|Hh].
    { simpl in Hfs. by simplify_eq. }
    by apply elem_of_nil in Hh.
Qed.

Lemma findConversionPath_shortest_witness :
  ((Z.of_nat 2 <= 3)%Z →
     ∃ p, findConversionPath [html_handler; svg_handler] html_format png_format 3 = Some p ∧
          length p = 2 ∧ route [html_handler; svg_handler] html_format png_format p) ∧
  ((3 < Z.of_nat 2)%Z → 2 <= 2 →
     findConversionPath [html_handler; svg_handler] html_format png_format 3 = None) ∧
  (2 = 1 → ∃ h, findConversionPath [html_handler; svg_handler] html_format png_format 3 =
                  Some [ {| handler := h; inputFormat := html_format;
                            outputFormat := png_format |} ]).
Proof.
  apply (findConversionPath_shortest [html_handler; svg_handler] html_format png_format 3 2).
  - by vm_compute.
  - exact sample_html_png_walk.
  - exact sample_html_png_minimal.
Defined.

(** C1, counterexample to the claim as stated: with a direct handler from PNG
    to JPEG the shortest path has [k = 1] edges; for the hop bound
    [maxDepth = 0 < k] the claim demands no path, yet the one-step path is
    returned. *)
Lemma findConversionPath_zero_bound_direct :
  mime png_format ≠ mime jpeg_format ∧
  walk [raster_handler] 1 (mime png_format) (mime jpeg_format) ∧
  (∀ n, n < 1 → ¬ walk [raster_handler] n (mime png_format) (mime jpeg_format)) ∧
  (0 < Z.of_nat 1)%Z ∧
  findConversionPath [raster_handler] png_format jpeg_format 0
    = Some [ {| handler := raster_handler; inputFormat := png_format;
                outputFormat := jpeg_format |} ] ∧
  findConversionPath [raster_handler] png_format jpeg_format 0 ≠ None.
Proof.
  split; [by vm_compute|]. split.
  { apply walk_one. exists raster_handler, [png_format; jpeg_format].
    split; [left|]. by vm_compute. }
  split.
  { intros n Hn Hw. replace n with 0 in Hw by lia. by apply walk_zero in Hw. }
  split; [lia|]. split; [reflexivity|done].
Qed.

(** C9 (cycle safety).  For every handler list, cyclic capability graphs
    included, the search loop started on the seeded frontier stops within
    [iterations_bound] iterations, with one and the same outcome for every
    larger iteration budget; the log of queue pushes of the whole search has
    no duplicates and lists exactly the visited set, so each mime type is
    enqueued at most once; and [findConversionPath] returns that outcome. *)
Theorem findConversionPath_terminates hs inp out maxDepth :
  ∃ res fr,
    (∀ fuel, iterations_bound hs (seed hs inp) <= fuel →
       bfs_loop hs out maxDepth fuel (seed hs inp) = Some (res, fr)) ∧
    NoDup (pushes fr) ∧ list_to_set (pushes fr) = visited fr ∧
    (findHandler hs inp out = None → (1 < maxDepth)%Z →
       findConversionPath hs inp out maxDepth = res).
Proof.
  destruct (bfs_loop_terminates hs out maxDepth
              (iterations_bound hs (seed hs inp)) (seed hs inp)) as [[res fr] Hb]; [done|].
  exists res, fr. split; [|split; [|split]].
  - intros fuel Hle. by eapply bfs_loop_fuel.
  - eapply bfs_loop_log_ok in Hb as [Hnd _]; [done|apply seed_log_ok].
  - eapply bfs_loop_log_ok in Hb as [_ Hset]; [done|apply seed_log_ok].
  - intros Hf Hd. unfold findConversionPath. rewrite Hf, Hb.
    destruct (maxDepth <=? 1)%Z eqn:E; [apply Z.leb_le in E; lia|done].
Qed.

(** HTML to JPEG needs three steps: found with the bound 3, not with 2. *)
Example three_steps_need_bound_three :
  option_map length
    (findConversionPath [html_handler; svg_handler; raster_handler]
       html_format jpeg_format 3) = Some 3 ∧
  findConversionPath [html_handler; svg_handler; raster_handler]
    html_format jpeg_format 2 = None.
Proof. by vm_compute. Qed.

(** A cyclic graph, PNG -> JPEG -> PNG: the search for a route to SVG ends
    with no path. *)
Example cyclic_search_ends :
  findConversionPath [raster_handler] png_format svg_output 3 = None.
Proof. by vm_compute. Qed.

(** ** Claims about the registry and the catalog *)

Lemma init_calls_app tr1 tr2 : init_calls (tr1 ++ tr2) = init_calls tr1 ++ init_calls tr2.
Proof. apply omap_app. Qed.

Lemma init_calls_events classes0 classes : ∀ i,
  init_calls (init_events classes0 i classes) = map handler_name classes.
Proof.
  induction classes as [|h rest IH]; intros i; simpl; [done|].
  unfold init_events_of. rewrite init_calls_app, IH.
  destruct (init h); done.
Qed.

Lemma init_calls_loading lc classes :
  init_calls (loading_events lc classes) = map handler_name classes.
Proof.
  unfold loading_events. rewrite !init_calls_app, init_calls_events. simpl.
  by rewrite app_nil_r.
Qed.

Lemma omap_initialised_filter (classes : list FormatHandler) :
  omap initialised (filter (fun h => is_Some (initialised h)) classes)
  = omap initialised classes.
Proof.
  induction classes as [|h rest IH]; [done|].
  destruct (initialised h) as [h'|] eqn:E.
  - rewrite filter_cons_True by (by rewrite E).
    change (omap initialised (h :: ?l)) with
      (match initialised h with Some y => y :: omap initialised l | None => omap initialised l end).
    by rewrite E, IH.
  - rewrite filter_cons_False by (rewrite E; by intros [? ?]).
    change (omap initialised (h :: rest)) with
      (match initialised h with Some y => y :: omap initialised rest
       | None => omap initialised rest end).
    by rewrite E.
Qed.

Lemma loaded_catalog_elem lc classes g :
  g ∈ allFormats (loaded_state lc classes) ↔
  find (same_key g) (declared_formats (omap initialised classes)) = Some g.
Proof.
  simpl. rewrite sort_by_perm, collect_elem.
  split; [intros [H|[_ H]]; [by apply elem_of_nil in H|done]|by right].
Qed.




(** Two handlers declare (image/png, png), the svg handler first: the catalog
    keeps one entry for the pair, the svg handler's. *)
Example png_declared_twice :
  filter (fun x => same_key png_format x = true)
    (allFormats (loaded_state ordinal_compare [svg_handler; raster_handler]))
  = [png_output].
Proof. by vm_compute. Qed.

(** The renamer always registers: its [init()] returns, and its formats are
    those of the class body; so the catalog of the source's registry is never
    empty, whatever the canvas handler does. *)
Lemma source_catalog_nonempty lc canvas :
  allFormats (loaded_state lc (source_handlerClasses canvas)) ≠ [].
Proof.
  set (D := declared_formats (omap initialised (source_handlerClasses canvas))).
  assert (Hin : ∃ f, f ∈ D).
  { exists zip_format.
    unfold D, source_handlerClasses, declared_formats.
    apply list_elem_of_In, in_flat_map. exists RenameHandler. split.
    - apply list_elem_of_In, list_elem_of_omap. exists RenameHandler.
      split; [set_solver|done].
    - simpl. by left. }
  destruct Hin as (f & Hf).
  destruct (find_same_key _ _ Hf) as (g & Hg & Hk).
  assert (Hcat : g ∈ allFormats (loaded_state lc (source_handlerClasses canvas))).
  { apply loaded_catalog_elem. fold D.
    by rewrite (find_ext _ _ _ (same_key_ext g f Hk)). }
  intros He. rewrite He in Hcat. by apply elem_of_nil in Hcat.
Qed.

(** C5 (idempotence).  The registry is the source's: the canvas handler,
    whatever it does, and the renamer.  Once a run of [initializeConverter]
    has completed, the catalog is not empty, so the guard holds: a further
    call returns the catalog held in the state, leaves the state (catalog and
    handler list) as it is and has no effect at all, no handler being
    initialised again; a conversion in between does not change the state
    either, so this holds of every later call. *)
Theorem initializeConverter_idempotent lc canvas st r st1 tr :
  initializeConverter lc (source_handlerClasses canvas) st = (r, st1, tr) →
  r = inr (allFormats st1) ∧
  allFormats st1 ≠ [] ∧
  initializeConverter lc (source_handlerClasses canvas) st1
    = (inr (allFormats st1), st1, []) ∧
  (∀ toUpperCase files inp out,
     snd (fst (convert lc toUpperCase (source_handlerClasses canvas) files inp out st1))
     = st1).
Proof.
  intros Hrun.
  assert (H : r = inr (allFormats st1) ∧ initialized st1 = true ∧ allFormats st1 ≠ []).
  { destruct (initialized st && (0 <? length (allFormats st))%nat) eqn:Hg.
    - rewrite initializeConverter_cached in Hrun by done. simplify_eq.
      apply andb_true_iff in Hg as [Hi Hl]. apply Nat.ltb_lt in Hl.
      split; [done|]. split; [done|]. intros He. rewrite He in Hl. simpl in Hl. lia.
    - rewrite initializeConverter_fresh in Hrun by done. simplify_eq.
      split; [done|]. split; [done|]. apply source_catalog_nonempty. }
  destruct H as (Hr & Hi & Hne). split; [done|]. split; [done|]. split.
  - apply initializeConverter_cached. rewrite Hi. simpl.
    apply Nat.ltb_lt. destruct (allFormats st1); [done|simpl; lia].
  - intros up files inp out. rewrite convert_run. cbv zeta. simpl. by rewrite Hi.
Qed.

Lemma initializeConverter_idempotent_witness :
  let classes := source_handlerClasses broken_handler in
  let st1 := loaded_state ordinal_compare classes in
  (inr (allFormats st1) : Exn + list FileFormat) = inr (allFormats st1) ∧
  allFormats st1 ≠ [] ∧
  initializeConverter ordinal_compare classes st1 = (inr (allFormats st1), st1, []) ∧
  (∀ toUpperCase files inp out,
     snd (fst (convert ordinal_compare toUpperCase classes files inp out st1)) = st1).
Proof.
  apply (initializeConverter_idempotent ordinal_compare broken_handler initial_state
           (inr (allFormats (loaded_state ordinal_compare
                               (source_handlerClasses broken_handler))))
           (loaded_state ordinal_compare (source_handlerClasses broken_handler))
           (loading_events ordinal_compare (source_handlerClasses broken_handler))).
  reflexivity.
Defined.

(** Where there is no DOM the canvas handler's [init()] throws; the first
    run still leaves the renamer's seven formats in the catalog, and the
    second call enters no [init()] and reports nothing. *)
Example second_call_is_silent :
  let classes := source_handlerClasses broken_handler in
  let '(r1, st1, tr1) := initializeConverter ordinal_compare classes initial_state in
  let '(r2, st2, tr2) := initializeConverter ordinal_compare classes st1 in
  init_calls tr1 = ["broken"; "rename"] ∧
  map format (allFormats st1) = ["xlsx"; "pptx"; "docx"; "odt"; "apk"; "jar"; "zip"] ∧
  r2 = r1 ∧ st2 = st1 ∧ tr2 = [].
Proof. by vm_compute. Qed.

(** The guard tests the catalog as well as the flag.  On a registry whose
    classes declare no format (not the source's, which lists the renamer) a
    run ends with an empty catalog, and the next call runs again. *)
Example guard_tests_the_catalog :
  ∃ st1 tr1,
    initializeConverter ordinal_compare [unloaded_handler] initial_state
      = (inr [], st1, tr1) ∧
    initialized st1 = true ∧
    init_calls (snd (initializeConverter ordinal_compare [unloaded_handler] st1))
      = ["FFmpeg"].
Proof. eexists _, _. split; [reflexivity|]. by vm_compute. Qed.

(** C8 (initialisation failures are absorbed).  A run of
    [initializeConverter] that passes the guard returns normally, whatever
    the handlers' [init()] do; it enters [init()] of every class, in order,
    also after a failure; the handler list holds just the handlers whose
    [init()] returned; state and catalog are what they would be had the
    failing classes not been listed at all; and every step of every path
    that [findConversionPath] returns on this handler list uses a handler
    whose [init()] returned. *)
Theorem init_failures_absorbed lc classes st :
  initialized st && (0 <? length (allFormats st))%nat = false →
  ∃ fs tr,
    initializeConverter lc classes st = (inr fs, loaded_state lc classes, tr) ∧
    init_calls tr = map handler_name classes ∧
    handlers (loaded_state lc classes) = omap initialised classes ∧
    handlers (loaded_state lc classes)
      = handlers (loaded_state lc (filter (fun h => is_Some (initialised h)) classes)) ∧
    allFormats (loaded_state lc classes)
      = allFormats (loaded_state lc (filter (fun h => is_Some (initialised h)) classes)) ∧
    (∀ inp out maxDepth p,
       findConversionPath (handlers (loaded_state lc classes)) inp out maxDepth = Some p →
       Forall (fun s => ∃ c, c ∈ classes ∧ initialised c = Some (handler s)) p).
Proof.
  intros Hg. eexists _, _. split; [by apply initializeConverter_fresh|].
  split; [apply init_calls_loading|]. split; [done|].
  split; [simpl; by rewrite omap_initialised_filter|].
  split; [simpl; by rewrite omap_initialised_filter|].
  intros inp out maxDepth p [Hr _]%findConversionPath_sound.
  apply route_steps in Hr. eapply Forall_impl; [exact Hr|]. simpl.
  intros s [Hin _]. apply list_elem_of_omap in Hin as (c & Hc & Hi). eauto.
Qed.

Lemma init_failures_absorbed_witness :
  ∃ fs tr,
    initializeConverter ordinal_compare [broken_handler; raster_handler] initial_state
      = (inr fs, loaded_state ordinal_compare [broken_handler; raster_handler], tr) ∧
    init_calls tr = map handler_name [broken_handler; raster_handler] ∧
    handlers (loaded_state ordinal_compare [broken_handler; raster_handler])
      = omap initialised [broken_handler; raster_handler] ∧
    handlers (loaded_state ordinal_compare [broken_handler; raster_handler])
      = handlers (loaded_state ordinal_compare
          (filter (fun h => is_Some (initialised h)) [broken_handler; raster_handler])) ∧
    allFormats (loaded_state ordinal_compare [broken_handler; raster_handler])
      = allFormats (loaded_state ordinal_compare
          (filter (fun h => is_Some (initialised h)) [broken_handler; raster_handler])) ∧
    (∀ inp out maxDepth p,
       findConversionPath (handlers (loaded_state ordinal_compare [broken_handler; raster_handler]))
         inp out maxDepth = Some p →
       Forall (fun s => ∃ c, c ∈ [broken_handler; raster_handler] ∧
                             initialised c = Some (handler s)) p).
Proof.
  apply (init_failures_absorbed ordinal_compare [broken_handler; raster_handler] initial_state).
  reflexivity.
Defined.

(** The failing handler's [init()] is entered, the exception is logged, the
    next handler is initialised, and only the latter is registered. *)
Example broken_handler_skipped :
  let '(r, st, tr) :=
    initializeConverter ordinal_compare [broken_handler; raster_handler] initial_state in
  r = inr [jpeg_format; png_format] ∧
  map handler_name (handlers st) = ["raster"] ∧
  init_calls tr = ["broken"; "raster"] ∧
  EvWarn (JsError "document is not defined") ∈ tr.
Proof. vm_compute. repeat split. do 3 right. left. Qed.

(** *** The order of the catalog *)

Lemma StronglySorted_iff {A} (R S : A → A → Prop) l :
  (∀ a b, R a b → S a b) → StronglySorted R l → StronglySorted S l.
Proof.
  intros HRS. induction 1 as [|x l Hs IH Hx]; constructor; [done|].
  eapply Forall_impl; [exact Hx|]. auto.
Qed.

Lemma find_sorted_first {A} (R : A → A → Prop) (p : A → bool) l f :
  StronglySorted R l → (∀ x, R x x) → find p l = Some f →
  ∀ g, g ∈ l → p g = true → R f g.
Proof.
  intros Hs Hrefl. induction Hs as [|x l Hs IH Hx]; intros Hf g Hg Hp; [done|].
  simpl in Hf. destruct (p x) eqn:Hpx.
  - simplify_eq. apply elem_of_cons in Hg as [->|Hg]; [done|].
    rewrite Forall_forall in Hx. by apply Hx.
  - apply elem_of_cons in Hg as [->|Hg]; [congruence|]. by apply IH.
Qed.

Section CatalogOrder.

Variable localeCompare : string → string → Z.

(** [localeCompare] is a consistent comparator, as the contract of
    [Array.prototype.sort] asks of its argument. *)
Hypothesis localeCompare_total :
  ∀ a b, (0 < localeCompare a b)%Z → (localeCompare b a <= 0)%Z.
Hypothesis localeCompare_trans :
  ∀ a b c, (localeCompare a b <= 0)%Z → (localeCompare b c <= 0)%Z →
           (localeCompare a c <= 0)%Z.

Lemma localeCompare_refl a : (localeCompare a a <= 0)%Z.
Proof.
  destruct (decide (0 < localeCompare a a)%Z) as [H|H]; [by apply localeCompare_total|lia].
Qed.

Lemma catalog_le_refl a : catalog_le localeCompare a a.
Proof. right. split; [done|apply localeCompare_refl]. Qed.

Lemma compare_formats_total a b :
  (0 < compare_formats localeCompare a b)%Z → (compare_formats localeCompare b a <= 0)%Z.
Proof.
  unfold compare_formats. repeat case_bool_decide; try congruence; [lia|].
  apply localeCompare_total.
Qed.

Lemma compare_formats_trans a b c :
  (compare_formats localeCompare a b <= 0)%Z →
  (compare_formats localeCompare b c <= 0)%Z →
  (compare_formats localeCompare a c <= 0)%Z.
Proof.
  rewrite !compare_formats_le. unfold catalog_le.
  intros [Hab|[Hab Hab']] [Hbc|[Hbc Hbc']].
  - left. lia.
  - left. rewrite <- Hbc. done.
  - left. rewrite Hab. done.
  - right. split; [congruence|]. by eapply localeCompare_trans.
Qed.

Lemma loaded_catalog_sorted classes :
  StronglySorted (catalog_le localeCompare) (allFormats (loaded_state localeCompare classes)).
Proof.
  simpl. eapply StronglySorted_iff; [intros a b; apply compare_formats_le|].
  apply sort_by_sorted; [apply compare_formats_total|apply compare_formats_trans].
Qed.

End CatalogOrder.

(** *** The sort is stable *)

Lemma before_cons {A} (l : list A) x a b : before l a b → before (x :: l) a b.
Proof. intros (l1 & l2 & l3 & ->). by exists (x :: l1), l2, l3. Qed.

Lemma before_head {A} (l : list A) x b : b ∈ l → before (x :: l) x b.
Proof.
  intros (l2 & l3 & ->)%list_elem_of_split. by exists [], l2, l3.
Qed.

Lemma before_cons_inv {A} (l : list A) x a b :
  before (x :: l) a b → (a = x ∧ b ∈ l) ∨ before l a b.
Proof.
  intros (l1 & l2 & l3 & Heq). destruct l1 as [|y l1]; simpl in Heq; simplify_eq.
  - left. split; [done|]. set_solver.
  - right. by exists l1, l2, l3.
Qed.

Lemma before_elem_r {A} (l : list A) a b : before l a b → b ∈ l.
Proof. intros (l1 & l2 & l3 & ->). set_solver. Qed.

Lemma before_elem_l {A} (l : list A) a b : before l a b → a ∈ l.
Proof. intros (l1 & l2 & l3 & ->). set_solver. Qed.

(** Where [insert_by] puts [x]: after the elements it ranks strictly below
    [x], before all the others. *)
Lemma insert_by_before {A} (cmp : A → A → Z) x l a b :
  before (insert_by cmp x l) a b →
  (a = x ∧ b ∈ l) ∨ (b = x ∧ a ∈ l ∧ (0 < cmp x a)%Z) ∨ before l a b.
Proof.
  induction l as [|y l IH]; simpl.
  - intros (l1 & l2 & l3 & Heq). destruct l1 as [|? [|? ?]]; destruct l2; simplify_eq.
  - destruct (cmp x y <=? 0)%Z eqn:E.
    + intros [[-> Hb]|H]%before_cons_inv; [by left|by right; right].
    + apply Z.leb_gt in E.
      intros [[-> Hb]|H]%before_cons_inv.
      * rewrite insert_by_perm in Hb. apply elem_of_cons in Hb as [-> | Hb].
        -- right; left. split; [done|]. split; [set_solver|done].
        -- right; right. by apply before_head.
      * destruct (IH H) as [[-> Hb]|[(-> & Ha & Hc)|Hb]].
        -- left. split; [done|]. set_solver.
        -- right; left. split; [done|]. split; [set_solver|done].
        -- right; right. by apply before_cons.
Qed.

(** Elements that the comparator does not rank apart keep their order. *)
Lemma sort_by_stable {A} (cmp : A → A → Z) l a b :
  before (sort_by cmp l) a b → (cmp b a <= 0)%Z → before l a b.
Proof.
  revert a b. induction l as [|x l IH]; intros a b; simpl.
  - intros (l1 & l2 & l3 & Heq). by destruct l1.
  - intros [[-> Hb]|[(-> & Ha & Hc)|H]]%insert_by_before Hle.
    + apply before_head. by rewrite sort_by_perm in Hb.
    + lia.
    + apply before_cons. by apply IH.
Qed.

Lemma find_none_iff {A} (p : A → bool) l :
  find p l = None ↔ ∀ x, x ∈ l → p x = false.
Proof.
  induction l as [|y l IH]; simpl.
  - split; [intros _ x Hx; by apply elem_of_nil in Hx|done].
  - destruct (p y) eqn:E.
    + split; [done|]. intros H. specialize (H y ltac:(set_solver)). congruence.
    + rewrite IH. split.
      * intros H x [->|Hx]%elem_of_cons; auto.
      * intros H x Hx. apply H. set_solver.
Qed.

(** C10 (the catalog is sorted).  Let [localeCompare] be a consistent
    comparator.  Whenever [initializeConverter] has completed, what it
    returns is what [getFormats] returns: the formats collected from the
    registered handlers (the first declaration of every pair, nothing added
    and nothing lost), rearranged so that they are ordered by category, in
    the order image, video, audio, document, archive, other, and by display
    name within a category, entries that this order does not tell apart
    staying in registration order.  [findFormatByMime] finds an entry
    whenever the catalog holds one of the normalised mime type, and the one
    it returns comes first among them in the sorted order. *)
Theorem catalog_sorted lc classes st r st' tr :
  (∀ a b, (0 < lc a b)%Z → (lc b a <= 0)%Z) →
  (∀ a b c, (lc a b <= 0)%Z → (lc b c <= 0)%Z → (lc a c <= 0)%Z) →
  reachable lc classes st →
  initializeConverter lc classes st = (r, st', tr) →
  r = inr (getFormats st') ∧
  getFormats st' ≡ₚ collected (handlers st') ∧
  StronglySorted (catalog_le lc) (getFormats st') ∧
  (∀ a b, before (getFormats st') a b → catalog_le lc b a →
          before (collected (handlers st')) a b) ∧
  (∀ m,
     match findFormatByMime st' m with
     | Some f =>
         f ∈ getFormats st' ∧ mime f = normalizeMimeType m ∧
         ∀ g, g ∈ getFormats st' → mime g = normalizeMimeType m → catalog_le lc f g
     | None => ∀ g, g ∈ getFormats st' → mime g ≠ normalizeMimeType m
     end).
Proof.
  intros Htot Htr Hr Hrun.
  destruct (initializeConverter_state _ _ _ _ _ _ Hr Hrun) as [-> ->].
  pose proof (loaded_catalog_sorted lc Htot Htr classes) as Hs.
  unfold getFormats, collected.
  split; [done|]. split; [apply sort_by_perm|]. split; [done|]. split.
  - intros a b Hab Hle. apply (sort_by_stable (compare_formats lc)); [done|].
    by apply compare_formats_le.
  - intros m. unfold findFormatByMime.
    destruct (find _ _) as [f|] eqn:Hf.
    + pose proof (find_some _ _ Hf) as [Hin Hm]. apply String.eqb_eq in Hm.
      split; [by apply list_elem_of_In|]. split; [done|].
      intros g Hg Hgm. eapply find_sorted_first; [exact Hs| |exact Hf|done|].
      * intros x. by apply catalog_le_refl.
      * by apply String.eqb_eq.
    + intros g Hg. rewrite find_none_iff in Hf. specialize (Hf g Hg).
      by apply String.eqb_neq in Hf.
Qed.

Lemma ordinal_compare_le a b :
  (ordinal_compare a b <= 0)%Z ↔ a = b ∨ String_as_OT.lt a b.
Proof.
  unfold ordinal_compare.
  destruct (String_as_OT.compare_spec a b) as [He|Hl|Hg].
  - split; [by left|lia].
  - split; [by right|lia].
  - split; [lia|]. intros [->|Hl].
    + by apply (StrictOrder_Irreflexive b) in Hg.
    + exfalso. apply (StrictOrder_Irreflexive a).
      by apply (StrictOrder_Transitive a b a).
Qed.

Lemma ordinal_compare_total a b :
  (0 < ordinal_compare a b)%Z → (ordinal_compare b a <= 0)%Z.
Proof.
  intros H. apply ordinal_compare_le. right. revert H. unfold ordinal_compare.
  destruct (String_as_OT.compare_spec a b); [lia|lia|done].
Qed.

Lemma ordinal_compare_trans a b c :
  (ordinal_compare a b <= 0)%Z → (ordinal_compare b c <= 0)%Z →
  (ordinal_compare a c <= 0)%Z.
Proof.
  rewrite !ordinal_compare_le. intros [->|Hab] [->|Hbc]; [by left|by right|by right|].
  right. by apply (StrictOrder_Transitive a b c).
Qed.

Lemma catalog_sorted_witness :
  let st' := loaded_state ordinal_compare [raster_handler; apng_handler] in
  (inr (allFormats st') : Exn + list FileFormat) = inr (getFormats st') ∧
  getFormats st' ≡ₚ collected (handlers st') ∧
  StronglySorted (catalog_le ordinal_compare) (getFormats st') ∧
  (∀ a b, before (getFormats st') a b → catalog_le ordinal_compare b a →
          before (collected (handlers st')) a b) ∧
  (∀ m,
     match findFormatByMime st' m with
     | Some f =>
         f ∈ getFormats st' ∧ mime f = normalizeMimeType m ∧
         ∀ g, g ∈ getFormats st' → mime g = normalizeMimeType m →
              catalog_le ordinal_compare f g
     | None => ∀ g, g ∈ getFormats st' → mime g ≠ normalizeMimeType m
     end).
Proof.
  apply (catalog_sorted ordinal_compare [raster_handler; apng_handler] initial_state
           (inr (allFormats (loaded_state ordinal_compare [raster_handler; apng_handler])))
           (loaded_state ordinal_compare [raster_handler; apng_handler])
           (loading_events ordinal_compare [raster_handler; apng_handler])).
  - exact ordinal_compare_total.
  - exact ordinal_compare_trans.
  - apply reach_initial.
  - reflexivity.
Defined.

(** The raster handler registers its PNG entry first, the APNG handler its
    entry for the same mime type later; the lookup by mime type returns the
    latter, whose display name sorts first. *)
Example lookup_follows_sorted_order :
  map format (collected (handlers (loaded_state ordinal_compare [raster_handler; apng_handler])))
    = ["png"; "jpeg"; "apng"] ∧
  map format (getFormats (loaded_state ordinal_compare [raster_handler; apng_handler]))
    = ["apng"; "jpeg"; "png"] ∧
  findFormatByMime (loaded_state ordinal_compare [raster_handler; apng_handler]) "image/png"
    = Some apng_format.
Proof. by vm_compute. Qed.

(** ** Claims about the executor *)


Lemma convert_calls_app tr1 tr2 :
  convert_calls (tr1 ++ tr2) = convert_calls tr1 ++ convert_calls tr2.
Proof. apply omap_app. Qed.

Lemma progress_reports_app tr1 tr2 :
  progress_reports (tr1 ++ tr2) = progress_reports tr1 ++ progress_reports tr2.
Proof. apply omap_app. Qed.

Lemma convert_calls_init_events classes0 classes : ∀ i,
  convert_calls (init_events classes0 i classes) = [].
Proof.
  induction classes as [|h rest IH]; intros i; simpl; [done|].
  unfold init_events_of. rewrite convert_calls_app, IH. by destruct (init h).
Qed.

Lemma convert_calls_loading lc classes : convert_calls (loading_events lc classes) = [].
Proof.
  unfold loading_events. by rewrite !convert_calls_app, convert_calls_init_events.
Qed.

Lemma convert_calls_prefix lc classes st tr :
  convert_calls ((if initialized st then [] else loading_events lc classes) ++ tr)
  = convert_calls tr.
Proof.
  rewrite convert_calls_app. destruct (initialized st); [done|].
  by rewrite convert_calls_loading.
Qed.



(** Without the shortcut the registered handler would have been picked for
    the pair; with it, a first call initialises the registry and still enters
    no [doConvert]. *)
Example identity_skips_capable_handler :
  option_map handler_name
    (findHandler (handlers (loaded_state ordinal_compare [raster_handler]))
       png_format png_output) = Some "raster" ∧
  let '(r, st, tr) :=
    convert ordinal_compare ascii_toUpperCase [raster_handler]
      [ upload "a.png" [Byte.x89; Byte.x50] ] png_format png_output initial_state in
  option_map path (match r with inr res => Some res | inl _ => None end) = Some (Some ["PNG"]) ∧
  init_calls tr = ["raster"] ∧ convert_calls tr = [] ∧
  map progress (progress_reports tr) = [0; 50; 100; 0]%Z.
Proof. by vm_compute. Qed.

(** C6 (no route).  When the mime types differ and the capability graph over
    the registered handlers has no conversion path of at most three edges,
    the bound [convert] searches with, [convert] returns, without throwing,
    a result with [success = false], no path, no files and the message that
    names both format codes. *)
Theorem convert_no_route lc toUpperCase classes files inp out st :
  mime inp ≠ mime out →
  (∀ n, n <= 3 →
     ¬ walk (handlers (if initialized st then st else loaded_state lc classes))
         n (mime inp) (mime out)) →
  ∃ st' tr,
    convert lc toUpperCase classes files inp out st
    = (inr {| success := false;
              result_message :=
                "No conversion path found from " ++ toUpperCase (format inp) ++ " to "
                  ++ toUpperCase (format out) ++ ". Try a different output format.";
              path := None;
              files := None |}, st', tr) ∧
    convert_calls tr = [].
Proof.
  intros Hm Hno. rewrite convert_run. cbv zeta. unfold route_and_run.
  assert ((mime inp =? mime out) = false) as -> by (by apply String.eqb_neq).
  rewrite findConversionPath_no_walk; [|lia|].
  - eexists _, _. split; [reflexivity|]. simpl. by rewrite convert_calls_prefix.
  - intros n Hn. apply Hno. lia.
Qed.

Lemma raster_only_no_walk n :
  ¬ walk [raster_handler] n (mime png_format) (mime svg_output).
Proof.
  assert (Hreach : ∀ k a b, walk [raster_handler] k a b →
            b = "image/svg+xml" → a = "image/svg+xml").
  { induction 1 as [a|k a b c He Hw IH]; intros Hc; [done|].
    specialize (IH Hc). subst b. destruct He as (h & fs & Hh & Hfs & _ & _ & Ho).
    apply list_elem_of_singleton in Hh as ->. simpl in Hfs. by simplify_eq. }
  intros Hw. by apply Hreach in Hw.
Qed.

Lemma convert_no_route_witness :
  ∃ st' tr,
    convert ordinal_compare ascii_toUpperCase [raster_handler] [] png_format svg_output
      initial_state
    = (inr {| success := false;
              result_message :=
                "No conversion path found from PNG to SVG. Try a different output format.";
              path := None;
              files := None |}, st', tr) ∧
    convert_calls tr = [].
Proof.
  apply (convert_no_route ordinal_compare ascii_toUpperCase [raster_handler] []
           png_format svg_output initial_state).
  - by vm_compute.
  - intros n _. apply raster_only_no_walk.
Defined.

(** C2 (partial failure), as the code has it.  When the route found has two
    steps, the [try] block of the first step yields files and the handler of
    the second step throws an [Error] with the message [text], or another
    value of which [String] makes [text], [convert] returns a result with
    [success = false], the path labels of the source format and of the first
    step's output only, and the message "Conversion failed at step 2: "
    followed by [text]. *)
Theorem convert_partial_failure lc toUpperCase classes files fs inp out st
    s1 s2 files1 hin hout e text :
  mime inp ≠ mime out →
  findConversionPath (handlers (if initialized st then st else loaded_state lc classes))
    inp out 3 = Some [s1; s2] →
  read_files files = inr fs →
  fst (step_outcome s1 fs) = inr files1 →
  own_format (handler s2) from (mime (inputFormat s2)) = Some hin →
  own_format (handler s2) to (mime (outputFormat s2)) = Some hout →
  doConvert (handler s2) files1 hin hout = inl e →
  e = JsError text ∨ e = JsValue text →
  ∃ st' tr,
    convert lc toUpperCase classes files inp out st
    = (inr {| success := false;
              result_message := "Conversion failed at step 2: " ++ text;
              path := Some [toUpperCase (format inp);
                            toUpperCase (format (outputFormat s1))];
              files := None |}, st', tr) ∧
    convert_calls tr = [handler_name (handler s1); handler_name (handler s2)] ∧
    EvError e ∈ tr.
Proof.
  intros Hm Hp Hread H1 Hin Hout He Htext. rewrite convert_run. cbv zeta.
  unfold route_and_run.
  assert ((mime inp =? mime out) = false) as -> by (by apply String.eqb_neq).
  rewrite Hp, Hread. simpl.
  destruct (step_outcome s1 fs) as [o1 tr1] eqn:E1. simpl in H1. subst o1.
  assert (E2 : step_outcome s2 files1
               = (inl e, [EvConvert (handler_name (handler s2)) files1 hin hout])).
  { unfold step_outcome. by rewrite Hin, Hout, He. }
  rewrite E2. simpl.
  assert (Hc : caught 1 e [toUpperCase (format inp); toUpperCase (format (outputFormat s1))]
               = inr (failure_at 1 text
                        [toUpperCase (format inp); toUpperCase (format (outputFormat s1))])).
  { by destruct Htext as [-> | ->]. }
  rewrite Hc. simpl.
  assert (Htr1 : ∃ hin1 hout1,
            tr1 = [EvConvert (handler_name (handler s1)) fs hin1 hout1]).
  { unfold step_outcome in E1.
    destruct (own_format (handler s1) from _) as [a|]; [|done].
    destruct (own_format (handler s1) to _) as [b|]; [|done].
    simplify_eq. eauto. }
  destruct Htr1 as (hin1 & hout1 & ->).
  eexists _, _. split; [reflexivity|]. split.
  - by rewrite convert_calls_prefix.
  - apply elem_of_app. right. simpl. do 6 right. left.
Qed.

Lemma convert_partial_failure_witness :
  ∃ st' tr,
    convert ordinal_compare ascii_toUpperCase [html_handler; failing_svg_handler]
      [ upload "page.html" [Byte.x3c] ] html_format png_format initial_state
    = (inr {| success := false;
              result_message := "Conversion failed at step 2: Failed to load image";
              path := Some ["HTML"; "SVG"];
              files := None |}, st', tr) ∧
    convert_calls tr = ["html"; "svg"] ∧
    EvError (JsError "Failed to load image") ∈ tr.
Proof.
  apply (convert_partial_failure ordinal_compare ascii_toUpperCase
           [html_handler; failing_svg_handler]
           [ upload "page.html" [Byte.x3c] ]
           [ {| file_name := "page.html"; bytes := [Byte.x3c] |} ]
           html_format png_format initial_state
           {| handler := html_handler; inputFormat := html_format; outputFormat := svg_output |}
           {| handler := failing_svg_handler; inputFormat := svg_output;
              outputFormat := png_format |}
           [ {| file_name := "page.html"; bytes := [Byte.x3c] |} ]
           svg_input png_output (JsError "Failed to load image") "Failed to load image").
  - by vm_compute.
  - reflexivity.
  - reflexivity.
  - reflexivity.
  - reflexivity.
  - reflexivity.
  - reflexivity.
  - by left.
Defined.

(** C2, counterexample to the claim as stated.  The route from HTML to PNG
    has two steps; the first step's handler converts; the second step's
    handler raises an object that has no string conversion.  The [catch]
    block then throws while it builds the message, and [convert] returns no
    result at all: it rejects with the [TypeError] of the conversion. *)
Lemma convert_rejects_on_unprintable_error :
  let s1 := {| handler := html_handler; inputFormat := html_format;
               outputFormat := svg_output |} in
  let s2 := {| handler := opaque_svg_handler; inputFormat := svg_output;
               outputFormat := png_format |} in
  let fs := [ {| file_name := "page.html"; bytes := [Byte.x3c] |} ] in
  findConversionPath [html_handler; opaque_svg_handler] html_format png_format 3
    = Some [s1; s2] ∧
  fst (step_outcome s1 fs) = inr fs ∧
  doConvert (handler s2) fs svg_input png_output
    = inl (JsOpaque (JsError "Cannot convert object to primitive value")) ∧
  fst (fst (convert ordinal_compare ascii_toUpperCase [html_handler; opaque_svg_handler]
              [ upload "page.html" [Byte.x3c] ] html_format png_format initial_state))
    = inl (JsError "Cannot convert object to primitive value") ∧
  ¬ ∃ res,
      fst (fst (convert ordinal_compare ascii_toUpperCase [html_handler; opaque_svg_handler]
                  [ upload "page.html" [Byte.x3c] ] html_format png_format initial_state))
      = inr res.
Proof.
  split; [by vm_compute|]. split; [by vm_compute|]. split; [by vm_compute|].
  assert (H : fst (fst (convert ordinal_compare ascii_toUpperCase
                          [html_handler; opaque_svg_handler]
                          [ upload "page.html" [Byte.x3c] ] html_format png_format
                          initial_state))
              = inl (JsError "Cannot convert object to primitive value"))
    by (by vm_compute).
  split; [done|]. intros [res Hres]. rewrite H in Hres. done.
Qed.

(** A thrown string is reported as it is. *)
Example thrown_string_is_reported :
  fst (fst (convert ordinal_compare ascii_toUpperCase [html_handler; string_svg_handler]
              [ upload "page.html" [Byte.x3c] ] html_format png_format initial_state))
  = inr {| success := false;
           result_message := "Conversion failed at step 2: out of memory";
           path := Some ["HTML"; "SVG"];
           files := None |}.
Proof. by vm_compute. Qed.

(** *** Progress reports *)

Lemma round_div_bounds num den :
  (0 < den)%Z →
  (- den < 2 * (den * round_div num den - num) <= den)%Z.
Proof.
  intros Hd. unfold round_div.
  pose proof (Z.div_mod (2 * num + den) (2 * den)) as Hdm.
  pose proof (Z.mod_pos_bound (2 * num + den) (2 * den)) as Hm.
  lia.
Qed.

Lemma round_div_range num den hi :
  (0 < den)%Z → (0 <= num)%Z → (num <= hi * den)%Z → (0 <= round_div num den <= hi)%Z.
Proof.
  intros Hd Hn Hh. pose proof (round_div_bounds num den Hd) as Hb. nia.
Qed.

Lemma init_events_range classes0 classes : ∀ i,
  i + length classes <= length classes0 →
  Forall in_range (progress_reports (init_events classes0 i classes)).
Proof.
  induction classes as [|h rest IH]; intros i Hi; simpl; [constructor|].
  simpl in Hi. unfold init_events_of. rewrite progress_reports_app.
  assert (Hr : in_range
            {| stage := initializing;
               progress := init_progress i (length classes0);
               message := "Initializing " ++ handler_name h ++ "..." |}).
  { unfold in_range. simpl. apply init_progress_range. lia. }
  simpl. constructor; [done|].
  destruct (init h); simpl; apply IH; lia.
Qed.

Lemma loading_events_range lc classes :
  Forall in_range (progress_reports (loading_events lc classes)).
Proof.
  unfold loading_events. rewrite !progress_reports_app. simpl.
  constructor; [unfold in_range; simpl; lia|].
  apply Forall_app. split; [apply init_events_range; lia|].
  repeat constructor; unfold in_range; simpl; lia.
Qed.

Lemma exec_steps_range up steps : ∀ i n fs labels,
  i + length steps <= n →
  Forall in_range (progress_reports (snd (exec_steps up steps i n fs labels))).
Proof.
  induction steps as [|s rest IH]; intros i n fs labels Hi; simpl; [constructor|].
  simpl in Hi.
  assert (Hr : in_range (step_report up s i n)).
  { unfold in_range. simpl. pose proof (step_progress_range i n). lia. }
  assert (Hs : progress_reports (snd (step_outcome s fs)) = []).
  { unfold step_outcome.
    destruct (own_format (handler s) from _); [|done].
    by destruct (own_format (handler s) to _). }
  destruct (step_outcome s fs) as [[e|out] tr]; simpl in Hs.
  - simpl. constructor; [done|]. rewrite progress_reports_app, Hs. constructor.
  - specialize (IH (S i) n out (labels ++ [up (format (outputFormat s))])).
    destruct (exec_steps up rest (S i) n out _) as [r tr']. simpl in *.
    constructor; [done|]. rewrite progress_reports_app, Hs. simpl. apply IH. lia.
Qed.

(** Once the steps before [s] have run to completion, the report for [s] is
    emitted, and the events of [s] itself follow at once. *)
Lemma exec_steps_reaches up done : ∀ s rest i n fs labels fs' labels' tr_done,
  exec_steps up done i n fs labels = (inr (inr (fs', labels')), tr_done) →
  ∃ post,
    snd (exec_steps up (done ++ s :: rest) i n fs labels)
    = tr_done ++ EvProgress (step_report up s (i + length done) n)
        :: snd (step_outcome s fs') ++ post.
Proof.
  induction done as [|d done IH]; intros s rest i n fs labels fs' labels' tr_done Hd.
  - simpl in Hd. simplify_eq. simpl. rewrite Nat.add_0_r.
    destruct (step_outcome s fs') as [[e|out] tr]; simpl.
    + eexists. reflexivity.
    + destruct (exec_steps up rest (S i) n out _) as [r tr']. simpl.
      eexists. reflexivity.
  - simpl in Hd. simpl.
    destruct (step_outcome d fs) as [[e|out] tr].
    { destruct (caught _ _ _); simplify_eq. }
    destruct (exec_steps up done (S i) n out _) as [r tr'] eqn:E. simplify_eq.
    destruct (IH s rest (S i) n out _ _ _ _ E) as (post & Hpost).
    destruct (exec_steps up (done ++ s :: rest) (S i) n out _) as [r2 tr2]. simpl in *.
    subst tr2. exists post. rewrite <- (assoc_L (++)).
    replace (i + S (length done)) with (S i + length done) by lia. done.
Qed.

Lemma route_and_run_found up hs files fs inp out steps :
  mime inp ≠ mime out →
  findConversionPath hs inp out 3 = Some steps →
  read_files files = inr fs →
  ∃ tail,
    snd (route_and_run up hs files inp out)
    = EvProgress (route_report up steps)
        :: snd (exec_steps up steps 0 (length steps) fs [up (format inp)]) ++ tail ∧
    (tail = [] ∨ tail = [EvProgress complete_report]).
Proof.
  intros Hm Hp Hread. unfold route_and_run.
  assert ((mime inp =? mime out) = false) as -> by (by apply String.eqb_neq).
  rewrite Hp, Hread.
  destruct (exec_steps up steps 0 (length steps) fs _)
    as [[e|[res|[outs labels]]] tr]; simpl.
  - exists []. rewrite app_nil_r. by split; [|left].
  - exists []. rewrite app_nil_r. by split; [|left].
  - eexists. by split; [|right].
Qed.

Lemma route_and_run_range up hs files inp out :
  Forall in_range (progress_reports (snd (route_and_run up hs files inp out))).
Proof.
  unfold route_and_run.
  destruct (mime inp =? mime out); [by destruct (read_files files)|].
  destruct (findConversionPath hs inp out 3) as [steps|]; [|constructor].
  destruct (read_files files) as [e|fs].
  { simpl. repeat constructor; unfold in_range; simpl; lia. }
  pose proof (exec_steps_range up steps 0 (length steps) fs [up (format inp)]) as Hr.
  destruct (exec_steps up steps 0 (length steps) fs _)
    as [[e|[res|[outs labels]]] tr]; simpl in *.
  - constructor; [unfold in_range; simpl; lia|]. apply Hr. lia.
  - constructor; [unfold in_range; simpl; lia|]. apply Hr. lia.
  - constructor; [unfold in_range; simpl; lia|].
    rewrite progress_reports_app. apply Forall_app. split; [apply Hr; lia|].
    repeat constructor; unfold in_range; simpl; lia.
Qed.

(** C7 (progress interpolation), as the code has it.  Let [convert] find a
    route of [n] steps and let the steps [done] before the step [s] run to
    completion.  Then [convert] reports, after the events of [done] and
    immediately before the events of [s] itself, a progress record of stage
    [converting] whose percentage [p] is [10 + round(80 * i / n)] for the
    1-based index [i] of [s]: the nearest integer to [10 + 80 * i / n], which
    lies between 10 and 90.  Every percentage that [convert] reports,
    those of the registry initialisation included, lies between 0 and 100. *)
Theorem convert_step_progress lc toUpperCase classes files fs inp out st
    steps done s rest fs' labels' tr_done :
  mime inp ≠ mime out →
  findConversionPath (handlers (if initialized st then st else loaded_state lc classes))
    inp out 3 = Some steps →
  read_files files = inr fs →
  steps = done ++ s :: rest →
  exec_steps toUpperCase done 0 (length steps) fs [toUpperCase (format inp)]
    = (inr (inr (fs', labels')), tr_done) →
  let n := Z.of_nat (length steps) in
  let i := (Z.of_nat (length done) + 1)%Z in
  let p := (10 + round_div (i * 80) n)%Z in
  (∃ pre post,
     snd (convert lc toUpperCase classes files inp out st)
     = (pre ++ tr_done)
       ++ EvProgress {| stage := converting; progress := p;
                        message := "Converting to "
                                     ++ toUpperCase (format (outputFormat s)) ++ "..." |}
       :: snd (step_outcome s fs') ++ post) ∧
  (10 <= p <= 90)%Z ∧
  (- n < 2 * (n * (p - 10) - 80 * i) <= n)%Z ∧
  Forall in_range (progress_reports (snd (convert lc toUpperCase classes files inp out st))).
Proof.
  intros Hm Hp Hread Hsteps Hdone n i p.
  assert (Hlen : length done < length steps).
  { rewrite Hsteps, length_app. simpl. lia. }
  assert (Hshort : length steps <= 3).
  { apply findConversionPath_sound in Hp as [_ [H|H]]; lia. }
  assert (Hexact : step_progress (length done) (length steps) = p).
  { rewrite step_progress_exact by done. unfold p, i, n. done. }
  split; [|split; [|split]].
  - rewrite convert_run. cbv zeta. simpl.
    destruct (route_and_run_found toUpperCase _ files fs _ _ _ Hm Hp Hread) as (tail & -> & _).
    rewrite Hsteps in Hdone |- *.
    destruct (exec_steps_reaches toUpperCase done s rest 0 _ fs _ _ _ _ Hdone) as (post & ->).
    exists ((if initialized st then [] else loading_events lc classes)
            ++ [EvProgress finding_report;
                EvProgress (route_report toUpperCase (done ++ s :: rest))]),
           (post ++ tail).
    unfold step_report. simpl. rewrite <- Hsteps, Hexact.
    rewrite <- !app_assoc. simpl. rewrite <- !app_assoc. simpl.
    reflexivity.
  - pose proof (step_progress_range (length done) (length steps) Hlen) as H. lia.
  - pose proof (round_div_bounds (i * 80) n) as H. unfold p, i, n in *. lia.
  - rewrite convert_run. cbv zeta. simpl. rewrite progress_reports_app.
    apply Forall_app. split.
    + destruct (initialized st); [constructor|apply loading_events_range].
    + simpl. constructor; [unfold in_range; simpl; lia|apply route_and_run_range].
Qed.

Lemma convert_step_progress_witness :
  let s1 := {| handler := html_handler; inputFormat := html_format;
               outputFormat := svg_output |} in
  let s2 := {| handler := svg_handler; inputFormat := svg_output;
               outputFormat := png_format |} in
  let n := Z.of_nat (length [s1; s2]) in
  let i := (Z.of_nat (length [s1]) + 1)%Z in
  let p := (10 + round_div (i * 80) n)%Z in
  (∃ pre post,
     snd (convert ordinal_compare ascii_toUpperCase [html_handler; svg_handler] []
            html_format png_format initial_state)
     = (pre ++ [ EvProgress (step_report ascii_toUpperCase s1 0 2);
                 EvConvert "html" [] html_format svg_output ])
       ++ EvProgress {| stage := converting; progress := p;
                        message := "Converting to "
                          ++ ascii_toUpperCase (format (outputFormat s2)) ++ "..." |}
       :: snd (step_outcome s2 []) ++ post) ∧
  (10 <= p <= 90)%Z ∧
  (- n < 2 * (n * (p - 10) - 80 * i) <= n)%Z ∧
  Forall in_range
    (progress_reports
       (snd (convert ordinal_compare ascii_toUpperCase [html_handler; svg_handler] []
               html_format png_format initial_state))).
Proof.
  apply (convert_step_progress ordinal_compare ascii_toUpperCase [html_handler; svg_handler]
           [] [] html_format png_format initial_state
           [ {| handler := html_handler; inputFormat := html_format; outputFormat := svg_output |};
             {| handler := svg_handler; inputFormat := svg_output; outputFormat := png_format |} ]
           [ {| handler := html_handler; inputFormat := html_format; outputFormat := svg_output |} ]
           {| handler := svg_handler; inputFormat := svg_output; outputFormat := png_format |}
           [] [] [ascii_toUpperCase (format html_format); ascii_toUpperCase (format svg_output)]).
  - by vm_compute.
  - reflexivity.
  - reflexivity.
  - reflexivity.
  - reflexivity.
Defined.

(** C7, counterexample to the claim as stated, on the source's registry
    (here without a DOM, so that the canvas handler fails to initialise): the
    renamer takes DOCX to ZIP in one step, and the percentage reported before
    that first and last step is 90, ten points away from the
    [10 + 90 * (1 / 1) = 100] of the claim. *)
Lemma one_step_route_reports_90 :
  let classes := source_handlerClasses broken_handler in
  option_map (map (fun s => handler_name (handler s)))
    (findConversionPath (handlers (loaded_state ordinal_compare classes))
       docx_format zip_format 3) = Some ["rename"] ∧
  map progress
    (progress_reports
       (snd (convert ordinal_compare ascii_toUpperCase classes
               [ upload "a.docx" [Byte.x50; Byte.x4b] ] docx_format zip_format
               (loaded_state ordinal_compare classes))))
    = [0; 10; 90; 100]%Z ∧
  step_progress 0 1 = 90%Z ∧
  (10 + 90 * 1 / 1 = 100)%Z ∧
  (Z.abs (step_progress 0 1 - (10 + 90 * 1 / 1)) = 10)%Z.
Proof. by vm_compute. Qed.

(** ** The scenarios of the specification, run on the model *)

(** A raster handler for PNG and JPEG: PNG to JPEG takes the one-step path. *)
Example scenario_direct :
  fst (fst (convert ordinal_compare ascii_toUpperCase [raster_handler]
              [ upload "a.png" [Byte.x89; Byte.x50] ]
              png_format jpeg_format initial_state))
  = inr {| success := true;
           result_message := "Successfully converted to JPEG";
           path := Some ["PNG"; "JPEG"];
           files := Some [ {| file_name := "a.png"; bytes := [Byte.x89; Byte.x50] |} ] |}.
Proof. by vm_compute. Qed.

(** HTML to SVG by one handler, SVG to PNG by another: the two-step path. *)
Example scenario_two_steps :
  option_map (map (fun s => (handler_name (handler s), mime (inputFormat s),
                             mime (outputFormat s))))
    (findConversionPath [html_handler; svg_handler] html_format png_format 3)
  = Some [("html", "text/html", "image/svg+xml"); ("svg", "image/svg+xml", "image/png")] ∧
  fst (fst (convert ordinal_compare ascii_toUpperCase [html_handler; svg_handler] []
              html_format png_format initial_state))
  = inr {| success := true;
           result_message := "Successfully converted to PNG";
           path := Some ["HTML"; "SVG"; "PNG"];
           files := Some [] |}.
Proof. by vm_compute. Qed.

(** No handler bridges PNG to HTML: a failure without a path. *)
Example scenario_no_route :
  fst (fst (convert ordinal_compare ascii_toUpperCase [raster_handler; html_handler] []
              png_format html_format initial_state))
  = inr {| success := false;
           result_message :=
             "No conversion path found from PNG to HTML. Try a different output format.";
           path := None;
           files := None |}.
Proof. by vm_compute. Qed.

Example getCategoryFromMime_samples :
  getCategoryFromMime "image/png" = image ∧
  getCategoryFromMime "text/html" = document ∧
  getCategoryFromMime "application/pdf" = document ∧
  getCategoryFromMime "application/zip" = archive ∧
  getCategoryFromMime "application/x-7z-compressed" = archive ∧
  getCategoryFromMime "application/octet-stream" = other.
Proof. by vm_compute. Qed.

Example normalizeMimeType_samples :
  normalizeMimeType "audio/x-wav" = "audio/wav" ∧
  normalizeMimeType "image/x-icon" = "image/vnd.microsoft.icon" ∧
  normalizeMimeType "image/png" = "image/png".
Proof. by vm_compute. Qed.

(** * Further properties of the code *)

(** ** Routing *)

Lemma canInput_witness fs m :
  canInput fs m = true → ∃ f, f ∈ fs ∧ mime f = m ∧ from f = true.
Proof.
  unfold canInput. intros (f & Hin & Hf)%existsb_exists.
  apply andb_true_iff in Hf as [He Ht]. apply String.eqb_eq in He.
  exists f. split; [by apply list_elem_of_In | done].
Qed.

Lemma find_first {A} (p : A → bool) l :
  match find p l with
  | Some x => ∃ before after, l = before ++ x :: after ∧ p x = true ∧
                              Forall (fun y => p y = false) before
  | None => Forall (fun y => p y = false) l
  end.
Proof.
  induction l as [|y l IH]; simpl; [constructor|].
  destruct (p y) eqn:Hy.
  - exists [], l. by repeat split.
  - destruct (find p l) as [x|].
    + destruct IH as (before & after & -> & Hx & Hb).
      exists (y :: before), after. repeat split; [done|]. by constructor.
    + by constructor.
Qed.

(** [findHandler] returns the first handler, in registration order, that is
    ready and declares both an input format of the source mime type and an
    output format of the destination mime type; it returns nothing exactly
    when no handler qualifies. *)
Theorem findHandler_first_capable hs inp out :
  match findHandler hs inp out with
  | Some h =>
      (∃ before after, hs = before ++ h :: after ∧
                       Forall (fun g => can_handle inp out g = false) before) ∧
      ready h = true ∧
      ∃ fs fi fo, supportedFormats h = Some fs ∧
                  fi ∈ fs ∧ mime fi = mime inp ∧ from fi = true ∧
                  fo ∈ fs ∧ mime fo = mime out ∧ to fo = true
  | None => ¬ edge hs (mime inp) (mime out)
  end.
Proof.
  unfold findHandler. pose proof (find_first (can_handle inp out) hs) as H.
  destruct (find (can_handle inp out) hs) as [h|] eqn:E.
  - destruct H as (before & after & -> & Hc & Hb). split; [eauto|].
    apply can_handle_true in Hc as (fs & Hfs & Hr & Hi & Ho). split; [done|].
    apply canInput_witness in Hi as (fi & ? & ? & ?).
    apply canOutput_witness in Ho as (fo & ? & ? & ?).
    exists fs, fi, fo. done.
  - by apply findHandler_None.
Qed.

(** Direct-route correctness: when some ready handler converts the source
    mime type to the destination mime type, [findConversionPath] returns, for
    every bound, the one-step path through the first such handler in
    registration order. *)
Theorem findConversionPath_direct hs inp out :
  edge hs (mime inp) (mime out) →
  ∃ before h after,
    hs = before ++ h :: after ∧
    can_handle inp out h = true ∧
    Forall (fun g => can_handle inp out g = false) before ∧
    ∀ maxDepth,
      findConversionPath hs inp out maxDepth
      = Some [ {| handler := h; inputFormat := inp; outputFormat := out |} ].
Proof.
  intros [h Hf]%edge_findHandler.
  pose proof (find_first (can_handle inp out) hs) as H.
  unfold findHandler in Hf. rewrite Hf in H.
  destruct H as (before & after & Hhs & Hc & Hb).
  exists before, h, after. repeat split; [done..|].
  intros maxDepth. unfold findConversionPath, findHandler. by rewrite Hf.
Qed.

Lemma findConversionPath_direct_witness :
  ∃ before h after,
    [html_handler; raster_handler; raster_handler] = before ++ h :: after ∧
    can_handle png_format jpeg_format h = true ∧
    Forall (fun g => can_handle png_format jpeg_format g = false) before ∧
    ∀ maxDepth,
      findConversionPath [html_handler; raster_handler; raster_handler]
        png_format jpeg_format maxDepth
      = Some [ {| handler := h; inputFormat := png_format; outputFormat := jpeg_format |} ].
Proof.
  apply (findConversionPath_direct [html_handler; raster_handler; raster_handler]
           png_format jpeg_format).
  exists raster_handler, [png_format; jpeg_format].
  split; [right; left|]. by vm_compute.
Defined.

Lemma linked_snoc a b c p h :
  linked a b p →
  linked a c (p ++ [ {| handler := h; inputFormat := b; outputFormat := c |} ]).
Proof.
  revert a. induction p as [|s p IH]; intros a; simpl.
  - by intros ->.
  - intros [Hs Hl]. split; [done|]. by apply IH.
Qed.

Lemma route_linked hs a b p : route hs a b p → linked a b p.
Proof.
  induction 1 as [a|a b c p h Hr IH Hh Hc]; simpl; [done|]. by apply linked_snoc.
Qed.

Lemma bfs_loop_nonempty hs out maxDepth fuel : ∀ fr p fr',
  bfs_loop hs out maxDepth fuel fr = Some (Some p, fr') → p ≠ [].
Proof.
  induction fuel as [|fuel IH]; intros fr p fr' H; [done|]. simpl in H.
  destruct (queue fr) as [|current rest]; [done|].
  destruct (maxDepth <=? Z.of_nat (depth current))%Z; [by eapply IH|].
  destruct (findHandler hs (entry_format current) out); [|by eapply IH].
  simplify_eq. by destruct (entry_path current).
Qed.

Lemma findConversionPath_nonempty hs inp out maxDepth p :
  findConversionPath hs inp out maxDepth = Some p → p ≠ [].
Proof.
  unfold findConversionPath.
  destruct (findHandler hs inp out); [by intros [= <-]|].
  destruct (maxDepth <=? 1)%Z; [done|].
  destruct (bfs_loop hs out maxDepth _ _) as [[res fr']|] eqn:Hb; [|done].
  intros ->. by eapply bfs_loop_nonempty.
Qed.

(** Every path that [findConversionPath] returns is well formed: it has at
    least one step; the first step starts at the source format, each step
    starts at the format the step before it ends in, and the last step ends
    at the destination format; each step's handler is a registered handler
    that is ready and declares the step's input and output; and unless it is
    a single step, the path has at most [maxDepth] steps. *)
Theorem findConversionPath_well_formed hs inp out maxDepth p :
  findConversionPath hs inp out maxDepth = Some p →
  p ≠ [] ∧
  linked inp out p ∧
  Forall (fun s => handler s ∈ hs ∧ ready (handler s) = true ∧
                   can_handle (inputFormat s) (outputFormat s) (handler s) = true) p ∧
  (length p = 1 ∨ (Z.of_nat (length p) <= maxDepth)%Z).
Proof.
  intros H. pose proof (findConversionPath_nonempty _ _ _ _ _ H) as Hne.
  apply findConversionPath_sound in H as [Hr Hl].
  split; [done|]. split; [by eapply route_linked|]. split; [|done].
  apply route_steps in Hr. eapply Forall_impl; [exact Hr|]. simpl.
  intros s [Hin Hc]. repeat split; [done| |done].
  by apply can_handle_true in Hc as (fs & _ & Hrd & _).
Qed.

Lemma findConversionPath_well_formed_witness :
  [ {| handler := html_handler; inputFormat := html_format; outputFormat := svg_output |};
    {| handler := svg_handler; inputFormat := svg_output; outputFormat := png_format |} ] ≠ [] ∧
  linked html_format png_format
    [ {| handler := html_handler; inputFormat := html_format; outputFormat := svg_output |};
      {| handler := svg_handler; inputFormat := svg_output; outputFormat := png_format |} ] ∧
  Forall (fun s => handler s ∈ [html_handler; svg_handler] ∧ ready (handler s) = true ∧
                   can_handle (inputFormat s) (outputFormat s) (handler s) = true)
    [ {| handler := html_handler; inputFormat := html_format; outputFormat := svg_output |};
      {| handler := svg_handler; inputFormat := svg_output; outputFormat := png_format |} ] ∧
  (length
     [ {| handler := html_handler; inputFormat := html_format; outputFormat := svg_output |};
       {| handler := svg_handler; inputFormat := svg_output; outputFormat := png_format |} ] = 1 ∨
   (Z.of_nat (length
     [ {| handler := html_handler; inputFormat := html_format; outputFormat := svg_output |};
       {| handler := svg_handler; inputFormat := svg_output; outputFormat := png_format |} ])
    <= 3)%Z).
Proof.
  apply (findConversionPath_well_formed [html_handler; svg_handler] html_format png_format 3).
  reflexivity.
Defined.

Lemma existsb_find {A} (p : A → bool) l :
  existsb p l = true → ∃ x, find p l = Some x.
Proof.
  induction l as [|y l IH]; simpl; [done|].
  destruct (p y); [eauto|]. simpl. exact IH.
Qed.

Lemma can_handle_resolves a b h :
  can_handle a b h = true →
  ∃ fs hin hout,
    supportedFormats h = Some fs ∧ hin ∈ fs ∧ hout ∈ fs ∧
    mime hin = mime a ∧ from hin = true ∧ mime hout = mime b ∧ to hout = true ∧
    own_format h from (mime a) = Some hin ∧ own_format h to (mime b) = Some hout.
Proof.
  intros (fs & Hfs & _ & Hi & Ho)%can_handle_true.
  apply existsb_find in Hi as [hin Hin]. apply existsb_find in Ho as [hout Hout].
  pose proof (find_some _ _ Hin) as [Hi1 Hi2].
  pose proof (find_some _ _ Hout) as [Ho1 Ho2].
  apply andb_true_iff in Hi2 as [Hi2 Hi3]. apply String.eqb_eq in Hi2.
  apply andb_true_iff in Ho2 as [Ho2 Ho3]. apply String.eqb_eq in Ho2.
  exists fs, hin, hout. unfold own_format. rewrite Hfs. simpl.
  repeat split; try done; by apply list_elem_of_In.
Qed.

(** On a path that [findConversionPath] returns, the executor's lookup of the
    handler's own descriptors always succeeds: for every step the handler
    lists an input descriptor of the step's input mime type and an output
    descriptor of its output mime type, the [try] block calls [doConvert]
    with exactly these two, and so it throws only if [doConvert] does; the
    error "Format not supported by handler" cannot arise. *)
Theorem found_path_resolves hs inp out maxDepth p :
  findConversionPath hs inp out maxDepth = Some p →
  Forall (fun s =>
    ∃ fs hin hout,
      supportedFormats (handler s) = Some fs ∧ hin ∈ fs ∧ hout ∈ fs ∧
      mime hin = mime (inputFormat s) ∧ from hin = true ∧
      mime hout = mime (outputFormat s) ∧ to hout = true ∧
      ∀ files, step_outcome s files
               = (doConvert (handler s) files hin hout,
                  [ EvConvert (handler_name (handler s)) files hin hout ])) p.
Proof.
  intros [Hr _]%findConversionPath_sound. apply route_steps in Hr.
  eapply Forall_impl; [exact Hr|]. simpl. intros s [_ Hc].
  apply can_handle_resolves in Hc
    as (fs & hin & hout & Hfs & ? & ? & ? & ? & ? & ? & Hin & Hout).
  exists fs, hin, hout. repeat split; try done.
  intros files. unfold step_outcome. by rewrite Hin, Hout.
Qed.

Lemma found_path_resolves_witness :
  Forall (fun s =>
    ∃ fs hin hout,
      supportedFormats (handler s) = Some fs ∧ hin ∈ fs ∧ hout ∈ fs ∧
      mime hin = mime (inputFormat s) ∧ from hin = true ∧
      mime hout = mime (outputFormat s) ∧ to hout = true ∧
      ∀ files, step_outcome s files
               = (doConvert (handler s) files hin hout,
                  [ EvConvert (handler_name (handler s)) files hin hout ]))
    [ {| handler := html_handler; inputFormat := html_format; outputFormat := svg_output |};
      {| handler := svg_handler; inputFormat := svg_output; outputFormat := png_format |} ].
Proof.
  apply (found_path_resolves [html_handler; svg_handler] html_format png_format 3).
  reflexivity.
Defined.

(** *** Handlers that are not ready *)

Lemma find_filter_implied {A} (p : A → bool) (q : A → Prop) `{∀ x, Decision (q x)} l :
  (∀ x, p x = true → q x) → find p (filter q l) = find p l.
Proof.
  intros Hpq. induction l as [|x l IH]; [done|].
  destruct (decide (q x)) as [Hq|Hq].
  - rewrite filter_cons_True by done. simpl. by rewrite IH.
  - rewrite filter_cons_False by done. simpl. rewrite IH.
    destruct (p x) eqn:Hp; [|done]. by apply Hpq in Hp.
Qed.

Lemma fold_left_filter_skip {A B} (f : B → A → B) (q : A → Prop)
    `{∀ x, Decision (q x)} l :
  (∀ acc x, ¬ q x → f acc x = acc) →
  ∀ acc, fold_left f (filter q l) acc = fold_left f l acc.
Proof.
  intros Hskip. induction l as [|x l IH]; intros acc; [done|].
  destruct (decide (q x)) as [Hq|Hq].
  - rewrite filter_cons_True by done. simpl. by rewrite IH.
  - rewrite filter_cons_False by done. simpl. by rewrite Hskip, IH.
Qed.

Lemma can_handle_usable a b h : can_handle a b h = true → usable h = true.
Proof.
  intros (fs & Hfs & Hr & _)%can_handle_true. unfold usable. by rewrite Hfs.
Qed.

Lemma findHandler_usable hs a b :
  findHandler (filter (fun h => usable h = true) hs) a b = findHandler hs a b.
Proof. apply find_filter_implied. intros h. apply can_handle_usable. Qed.

Lemma expand_usable skip hs cur p fr :
  expand skip (filter (fun h => usable h = true) hs) cur p fr = expand skip hs cur p fr.
Proof.
  unfold expand. apply fold_left_filter_skip. intros acc h Hn.
  unfold expand_handler, usable in *.
  destruct (supportedFormats h); [|done]. destruct (ready h); [done|]. done.
Qed.

Lemma bfs_loop_usable hs out maxDepth fuel : ∀ fr,
  bfs_loop (filter (fun h => usable h = true) hs) out maxDepth fuel fr
  = bfs_loop hs out maxDepth fuel fr.
Proof.
  induction fuel as [|fuel IH]; intros fr; [done|]. simpl.
  destruct (queue fr) as [|current rest]; [done|].
  rewrite findHandler_usable, expand_usable, !IH. done.
Qed.

(** Routing ignores handlers that are not ready or have no format list:
    [findConversionPath] gives the same result with and without them in
    the handler list. *)
Theorem findConversionPath_ignores_unready hs inp out maxDepth :
  findConversionPath (filter (fun h => usable h = true) hs) inp out maxDepth
  = findConversionPath hs inp out maxDepth.
Proof.
  unfold findConversionPath. rewrite findHandler_usable.
  destruct (findHandler hs inp out); [done|].
  destruct (maxDepth <=? 1)%Z; [done|].
  assert (Hseed : seed (filter (fun h => usable h = true) hs) inp = seed hs inp)
    by apply expand_usable.
  rewrite Hseed. set (fr := seed hs inp).
  set (f1 := iterations_bound (filter (fun h => usable h = true) hs) fr).
  set (f2 := iterations_bound hs fr).
  destruct (bfs_loop_terminates (filter (fun h => usable h = true) hs) out maxDepth f1 fr)
    as [x Hx]; [done|].
  destruct (bfs_loop_terminates hs out maxDepth f2 fr) as [y Hy]; [done|].
  rewrite Hx, Hy.
  apply bfs_loop_fuel with (fuel' := f1 `max` f2) in Hx; [|lia].
  apply bfs_loop_fuel with (fuel' := f1 `max` f2) in Hy; [|lia].
  rewrite bfs_loop_usable in Hx. rewrite Hy in Hx. by simplify_eq.
Qed.

(** ** Catalog lookups *)

Lemma normalize_fixed m : is_alias m = false → normalizeMimeType m = m.
Proof.
  unfold is_alias, normalizeMimeType. intros H.
  repeat (apply orb_false_iff in H as [H ?]).
  repeat match goal with E : (_ =? _) = false |- _ => rewrite E; clear E end.
  done.
Qed.

Lemma normalize_not_alias m : is_alias (normalizeMimeType m) = false.
Proof.
  unfold normalizeMimeType.
  repeat match goal with
         | |- context [ if (m =? ?a) then _ else _ ] =>
             destruct (m =? a) eqn:?; [reflexivity|]
         end.
  unfold is_alias.
  repeat match goal with E : (_ =? _) = false |- _ => rewrite E; clear E end.
  done.
Qed.

Lemma normalize_idempotent m :
  normalizeMimeType (normalizeMimeType m) = normalizeMimeType m.
Proof. apply normalize_fixed, normalize_not_alias. Qed.

(** [normalizeMimeType] is idempotent and its value is never one of the
    aliases, so [findFormatByMime] answers a legacy alias and its canonical
    mime type alike. *)
Theorem findFormatByMime_alias st m :
  normalizeMimeType (normalizeMimeType m) = normalizeMimeType m ∧
  is_alias (normalizeMimeType m) = false ∧
  findFormatByMime st (normalizeMimeType m) = findFormatByMime st m.
Proof.
  split; [apply normalize_idempotent|]. split; [apply normalize_not_alias|].
  unfold findFormatByMime. by rewrite normalize_idempotent.
Qed.

(** A WAV file typed with the legacy alias finds the WAV entry. *)
Example wav_alias_lookup :
  findFormatByMime (loaded_state ordinal_compare [wav_handler]) "audio/x-wav"
    = Some wav_format ∧
  findFormatByMime (loaded_state ordinal_compare [wav_handler]) "audio/vnd.wave"
    = Some wav_format.
Proof. by vm_compute. Qed.

(** The catalog is not normalised, only the query is: an entry that a
    handler files under one of the six alias mime types is never returned by
    [findFormatByMime], whatever mime type is asked for. *)
Theorem findFormatByMime_misses_alias_entries st g :
  is_alias (mime g) = true → ∀ m, findFormatByMime st m ≠ Some g.
Proof.
  intros Ha m Hf. unfold findFormatByMime in Hf.
  apply find_some in Hf as [_ Hm]. apply String.eqb_eq in Hm.
  rewrite Hm, normalize_not_alias in Ha. done.
Qed.

Lemma findFormatByMime_misses_alias_entries_witness :
  ico_format ∈ allFormats (loaded_state ordinal_compare [icon_handler]) ∧
  ∀ m, findFormatByMime (loaded_state ordinal_compare [icon_handler]) m ≠ Some ico_format.
Proof.
  split; [vm_compute; left|].
  apply (findFormatByMime_misses_alias_entries
           (loaded_state ordinal_compare [icon_handler]) ico_format).
  reflexivity.
Defined.



(** The svg handler reads SVG, but the html handler, registered first,
    declares the same pair as output only: SVG is not offered as input. *)
Example svg_not_offered_as_input :
  map format (getInputFormats (loaded_state ordinal_compare [html_handler; svg_handler]))
    = ["html"] ∧
  findHandler (handlers (loaded_state ordinal_compare [html_handler; svg_handler]))
    svg_input png_format ≠ None.
Proof. by vm_compute. Qed.

(** The input format that [handleFilesSelected] detects is one that
    [getInputFormats] offers; its mime type is the normalised type of the
    first selected file, which is not empty, and it is never filed under an
    alias mime type. *)
Theorem detected_input_offered st types f :
  detected_input st types = Some f →
  f ∈ getInputFormats st ∧
  is_alias (mime f) = false ∧
  ∃ m rest, types = m :: rest ∧ m ≠ "" ∧ mime f = normalizeMimeType m ∧
            findFormatByMime st m = Some f.
Proof.
  unfold detected_input. destruct types as [|m rest]; [done|].
  destruct (m =? "") eqn:Hm; [done|]. apply String.eqb_neq in Hm.
  destruct (findFormatByMime st m) as [g|] eqn:Hf; [|done].
  destruct (from g) eqn:Hg; [|done]. intros [= ->].
  pose proof Hf as Hf'. unfold findFormatByMime in Hf'.
  apply find_some in Hf' as [Hin Hmime]. apply String.eqb_eq in Hmime.
  split; [|split].
  - unfold getInputFormats. apply list_elem_of_filter.
    split; [done|by apply list_elem_of_In].
  - rewrite Hmime. apply normalize_not_alias.
  - exists m, rest. done.
Qed.

Lemma detected_input_offered_witness :
  wav_format ∈ getInputFormats (loaded_state ordinal_compare [wav_handler]) ∧
  is_alias (mime wav_format) = false ∧
  ∃ m rest, ["audio/x-wav"; "image/png"] = m :: rest ∧ m ≠ "" ∧
            mime wav_format = normalizeMimeType m ∧
            findFormatByMime (loaded_state ordinal_compare [wav_handler]) m = Some wav_format.
Proof.
  apply (detected_input_offered (loaded_state ordinal_compare [wav_handler])
           ["audio/x-wav"; "image/png"] wav_format).
  reflexivity.
Defined.

(** An uploaded icon is not detected although the catalog has its entry. *)
Example icon_not_detected :
  detected_input (loaded_state ordinal_compare [icon_handler]) ["image/x-icon"] = None ∧
  ico_format ∈ getInputFormats (loaded_state ordinal_compare [icon_handler]).
Proof. split; [by vm_compute|]. vm_compute. left. Qed.

(** A handler whose [init()] returns without making it ready still has its
    formats in the catalog, each under its (mime, format-code) pair, yet no
    path of [findConversionPath] has a step through it: all steps use ready
    handlers. *)
Theorem unready_handler_listed_not_routed lc classes c h' :
  c ∈ classes → initialised c = Some h' → ready h' = false →
  (∀ fs f, supportedFormats h' = Some fs → f ∈ fs →
     ∃ g, g ∈ allFormats (loaded_state lc classes) ∧ key g = key f) ∧
  (∀ inp out maxDepth p,
     findConversionPath (handlers (loaded_state lc classes)) inp out maxDepth = Some p →
     Forall (fun s => ready (handler s) = true ∧ handler s ≠ h') p).
Proof.
  intros Hc Hi Hr. split.
  - intros fs f Hfs Hf.
    assert (HD : f ∈ declared_formats (omap initialised classes)).
    { unfold declared_formats. apply list_elem_of_In, in_flat_map.
      exists h'. split.
      - apply list_elem_of_In, list_elem_of_omap. eauto.
      - rewrite Hfs. simpl. by apply list_elem_of_In. }
    destruct (find_same_key _ _ HD) as (g & Hg & Hk). exists g. split; [|done].
    apply loaded_catalog_elem. by rewrite (find_ext _ _ _ (same_key_ext g f Hk)).
  - intros inp out maxDepth p [Hp _]%findConversionPath_sound.
    apply route_steps in Hp. eapply Forall_impl; [exact Hp|]. simpl.
    intros s [_ (fs & _ & Hrd & _)%can_handle_true]. split; [done|].
    intros Heq. rewrite Heq in Hrd. congruence.
Qed.

Lemma unready_handler_listed_not_routed_witness :
  (∀ fs f, supportedFormats idle_handler = Some fs → f ∈ fs →
     ∃ g, g ∈ allFormats (loaded_state ordinal_compare [idle_handler; raster_handler]) ∧
          key g = key f) ∧
  (∀ inp out maxDepth p,
     findConversionPath (handlers (loaded_state ordinal_compare [idle_handler; raster_handler]))
       inp out maxDepth = Some p →
     Forall (fun s => ready (handler s) = true ∧ handler s ≠ idle_handler) p).
Proof.
  apply (unready_handler_listed_not_routed ordinal_compare [idle_handler; raster_handler]
           idle_handler idle_handler).
  - left.
  - reflexivity.
  - reflexivity.
Defined.

(** PDF is in the catalog and offered as input, but nothing converts it. *)
Example pdf_listed_without_route :
  map format (getInputFormats (loaded_state ordinal_compare [idle_handler; raster_handler]))
    = ["jpeg"; "pdf"] ∧
  findConversionPath (handlers (loaded_state ordinal_compare [idle_handler; raster_handler]))
    (sample_format "Portable Document Format" "pdf" "application/pdf" true false document)
    png_format 3 = None.
Proof. by vm_compute. Qed.

(** ** Progress never goes backwards *)

Lemma sorted_map_seq (f : nat → Z) n : ∀ i,
  (∀ a b, i <= a → a <= b → b < i + n → (f a <= f b)%Z) →
  StronglySorted Z.le (map f (seq i n)).
Proof.
  induction n as [|n IH]; intros i Hf; simpl; [constructor|].
  constructor.
  - apply IH. intros a b Ha Hab Hb. apply Hf; lia.
  - apply Forall_forall. intros x Hx.
    apply list_elem_of_In, in_map_iff in Hx as (j & <- & Hj).
    apply in_seq in Hj. apply Hf; lia.
Qed.

Lemma sorted_snoc_upper (hi : Z) l :
  StronglySorted Z.le l → Forall (fun p => p <= hi)%Z l →
  StronglySorted Z.le (l ++ [hi]).
Proof.
  intros Hs Hf. induction Hs as [|x l Hs IH Hx]; simpl; [repeat constructor|].
  apply Forall_cons in Hf as [Hxr Hf]. constructor; [by apply IH|].
  apply Forall_app. split; [done|]. by repeat constructor.
Qed.

Lemma sorted_cons_lower (lo : Z) l :
  StronglySorted Z.le l → Forall (fun p => lo <= p)%Z l →
  StronglySorted Z.le (lo :: l).
Proof. intros Hs Hf. by constructor. Qed.

Lemma init_events_percentages classes0 classes : ∀ i,
  map progress (progress_reports (init_events classes0 i classes))
  = map (fun j => init_progress j (length classes0)) (seq i (length classes)).
Proof.
  induction classes as [|h rest IH]; intros i; simpl; [done|].
  unfold init_events_of. rewrite progress_reports_app. simpl.
  rewrite map_app, IH. by destruct (init h).
Qed.

Lemma loading_events_percentages lc classes :
  map progress (progress_reports (loading_events lc classes))
  = [0%Z]
    ++ map (fun j => init_progress j (length classes)) (seq 0 (length classes))
    ++ [100%Z].
Proof.
  unfold loading_events. rewrite !progress_reports_app. simpl.
  by rewrite map_app, init_events_percentages.
Qed.

Lemma loading_events_sorted lc classes :
  StronglySorted Z.le (map progress (progress_reports (loading_events lc classes))).
Proof.
  rewrite loading_events_percentages. simpl.
  assert (Hin : Forall (fun p => 0 <= p <= 100)%Z
            (map (fun j => init_progress j (length classes)) (seq 0 (length classes)))).
  { apply Forall_forall. intros x Hx.
    apply list_elem_of_In, in_map_iff in Hx as (j & <- & Hj). apply in_seq in Hj.
    apply init_progress_range. lia. }
  apply sorted_cons_lower.
  - apply sorted_snoc_upper.
    + apply sorted_map_seq. intros a b _ Hab Hb. apply init_progress_mono; lia.
    + eapply Forall_impl; [exact Hin|]. simpl. lia.
  - apply Forall_app. split; [|repeat constructor; lia].
    eapply Forall_impl; [exact Hin|]. simpl. lia.
Qed.

(** Where the double computation of the percentage gives the nearest integer
    and where it does not: it does for every registry of up to nineteen
    classes. *)
Lemma init_progress_exact i n :
  i < n → n <= 19 →
  init_progress i n = round_div ((2 * Z.of_nat i + 1) * 100) (2 * Z.of_nat n).
Proof.
  intros Hi Hn.
  assert (Hall : forallb (fun n => forallb (fun i =>
            (init_progress i n =? round_div ((2 * Z.of_nat i + 1) * 100) (2 * Z.of_nat n))%Z)
              (seq 0 n)) (seq 0 20) = true) by (by vm_compute).
  rewrite forallb_forall in Hall.
  specialize (Hall n ltac:(apply in_seq; lia)).
  rewrite forallb_forall in Hall.
  specialize (Hall i ltac:(apply in_seq; lia)).
  by apply Z.eqb_eq in Hall.
Qed.

(** The model of the double arithmetic against the machine's: on every
    registry of up to 64 classes and every route of up to 64 steps the two
    give the same percentages. *)
Lemma progress_as_the_hardware_computes i n :
  i < n → n <= 64 →
  init_progress i n = init_progress_hw i n ∧
  step_progress i n = (10 + step_ratio_hw i n)%Z.
Proof.
  intros Hi Hn.
  assert (Hall : forallb (fun n => forallb (fun i =>
            (init_progress i n =? init_progress_hw i n)%Z
            && (step_progress i n =? 10 + step_ratio_hw i n)%Z)
              (seq 0 n)) (seq 0 65) = true) by (by vm_compute).
  rewrite forallb_forall in Hall.
  specialize (Hall n ltac:(apply in_seq; lia)).
  rewrite forallb_forall in Hall.
  specialize (Hall i ltac:(apply in_seq; lia)).
  apply andb_true_iff in Hall as [H1 H2].
  by apply Z.eqb_eq in H1, H2.
Qed.

(** A run of [initializeConverter] that passes the guard reports one
    percentage per handler class between an opening 0 and a closing 100,
    whether or not the class initialises: the value of
    [Math.round(((i + 0.5) / n) * 100)] in double arithmetic.  The
    percentages never decrease and lie between 0 and 100; on a registry of up
    to nineteen classes, as the source's is, each is the integer nearest to
    [(i + 0.5) / n * 100], halves going up. *)
Theorem initializeConverter_progress lc classes st :
  initialized st && (0 <? length (allFormats st))%nat = false →
  let ps := map progress (progress_reports (snd (initializeConverter lc classes st))) in
  let n := length classes in
  ps = [0%Z] ++ map (fun j => init_progress j n) (seq 0 n) ++ [100%Z] ∧
  StronglySorted Z.le ps ∧
  Forall (fun p => 0 <= p <= 100)%Z ps ∧
  (n <= 19 →
   ps = [0%Z]
        ++ map (fun j => round_div ((2 * Z.of_nat j + 1) * 100) (2 * Z.of_nat n)) (seq 0 n)
        ++ [100%Z]).
Proof.
  intros Hg ps n. unfold ps. rewrite initializeConverter_fresh by done. cbn [snd].
  split; [apply loading_events_percentages|].
  split; [apply loading_events_sorted|]. split.
  - apply Forall_fmap. exact (loading_events_range lc classes).
  - intros Hn. rewrite loading_events_percentages. do 2 f_equal.
    apply map_ext_in. intros j Hj%in_seq. apply init_progress_exact; lia.
Qed.

Lemma initializeConverter_progress_witness :
  let classes := [broken_handler; raster_handler; svg_handler] in
  let ps := map progress (progress_reports
              (snd (initializeConverter ordinal_compare classes initial_state))) in
  let n := length classes in
  ps = [0%Z] ++ map (fun j => init_progress j n) (seq 0 n) ++ [100%Z] ∧
  StronglySorted Z.le ps ∧
  Forall (fun p => 0 <= p <= 100)%Z ps ∧
  (n <= 19 →
   ps = [0%Z]
        ++ map (fun j => round_div ((2 * Z.of_nat j + 1) * 100) (2 * Z.of_nat n)) (seq 0 n)
        ++ [100%Z]).
Proof.
  apply (initializeConverter_progress ordinal_compare
           [broken_handler; raster_handler; svg_handler] initial_state).
  reflexivity.
Defined.

(** The source's two classes report 25 and 75; three classes report 17, 50
    and 83; with twenty classes the double computation of the twelfth
    percentage, [(11.5 / 20) * 100], falls just short of 57.5 and is rounded
    to 57, where the nearest integer to the exact value, halves going up,
    is 58. *)
Example init_percentages :
  map progress
    (progress_reports
       (snd (initializeConverter ordinal_compare (source_handlerClasses broken_handler)
               initial_state)))
  = [0; 25; 75; 100]%Z ∧
  map progress
    (progress_reports
       (snd (initializeConverter ordinal_compare
               [broken_handler; raster_handler; svg_handler] initial_state)))
  = [0; 17; 50; 83; 100]%Z ∧
  init_progress 11 20 = 57%Z ∧ init_progress_hw 11 20 = 57%Z ∧
  round_div ((2 * 11 + 1) * 100) (2 * 20) = 58%Z.
Proof. by vm_compute. Qed.

Lemma step_outcome_no_report s fs : progress_reports (snd (step_outcome s fs)) = [].
Proof.
  unfold step_outcome.
  destruct (own_format (handler s) from _); [|done].
  by destruct (own_format (handler s) to _).
Qed.

Lemma exec_steps_sorted up steps : ∀ i n fs labels,
  i + length steps <= n →
  StronglySorted Z.le
    (map progress (progress_reports (snd (exec_steps up steps i n fs labels)))) ∧
  Forall (fun p => step_progress i n <= p <= 90)%Z
    (map progress (progress_reports (snd (exec_steps up steps i n fs labels)))).
Proof.
  induction steps as [|s rest IH]; intros i n fs labels Hi; simpl.
  { split; constructor. }
  simpl in Hi.
  pose proof (step_outcome_no_report s fs) as Hs.
  pose proof (step_progress_range i n) as Hr.
  destruct (step_outcome s fs) as [[e|out] tr]; simpl in Hs.
  - simpl. rewrite progress_reports_app, Hs. simpl.
    split; repeat constructor; lia.
  - specialize (IH (S i) n out (labels ++ [up (format (outputFormat s))])).
    destruct (exec_steps up rest (S i) n out _) as [r tr']. simpl in *.
    rewrite progress_reports_app, Hs. simpl.
    destruct IH as [IHs IHf]; [lia|].
    pose proof (step_progress_mono i (S i) n). split.
    + constructor; [done|]. eapply Forall_impl; [exact IHf|]. simpl. lia.
    + constructor; [lia|]. eapply Forall_impl; [exact IHf|]. simpl. lia.
Qed.

(** The percentages [convert] reports for the conversion proper start at 0
    and never decrease; those of a registry initialisation that a first call
    triggers come before them and never decrease either (the conversion then
    starts again from 0). *)
Theorem convert_progress_monotone lc toUpperCase classes files inp out st :
  ∃ conv,
    snd (convert lc toUpperCase classes files inp out st)
    = (if initialized st then [] else loading_events lc classes)
      ++ EvProgress finding_report :: conv ∧
    StronglySorted Z.le (0%Z :: map progress (progress_reports conv)) ∧
    StronglySorted Z.le (map progress (progress_reports (loading_events lc classes))).
Proof.
  rewrite convert_run. cbv zeta. simpl.
  eexists. split; [reflexivity|]. split; [|apply loading_events_sorted].
  set (hs := handlers (if initialized st then st else loaded_state lc classes)).
  unfold route_and_run.
  destruct (mime inp =? mime out).
  { destruct (read_files files); repeat constructor. }
  destruct (findConversionPath hs inp out 3) as [steps|]; [|repeat constructor].
  destruct (read_files files) as [e|fs].
  { simpl. repeat constructor. lia. }
  pose proof (exec_steps_sorted toUpperCase steps 0 (length steps) fs
                [toUpperCase (format inp)]) as Hx.
  destruct Hx as [Hs Hf]; [lia|].
  assert (Hlo : Forall (fun p => 10 <= p <= 90)%Z
            (map progress (progress_reports
               (snd (exec_steps toUpperCase steps 0 (length steps) fs
                       [toUpperCase (format inp)]))))).
  { destruct steps as [|s rest]; [constructor|].
    pose proof (step_progress_range 0 (length (s :: rest))) as H0. simpl in H0.
    eapply Forall_impl; [exact Hf|]. simpl. lia. }
  assert (Hfail : StronglySorted Z.le
            (0%Z :: 10%Z :: map progress (progress_reports
               (snd (exec_steps toUpperCase steps 0 (length steps) fs
                       [toUpperCase (format inp)]))))).
  { apply sorted_cons_lower.
    + apply sorted_cons_lower; [done|]. eapply Forall_impl; [exact Hlo|]. simpl. lia.
    + constructor; [lia|]. eapply Forall_impl; [exact Hlo|]. simpl. lia. }
  destruct (exec_steps toUpperCase steps 0 (length steps) fs _)
    as [[e|[res|[outs labels]]] tr]; simpl in *; [done|done|].
  rewrite progress_reports_app, map_app. simpl.
  apply sorted_cons_lower.
  + apply sorted_cons_lower.
    * apply sorted_snoc_upper; [done|]. eapply Forall_impl; [exact Hlo|]. simpl. lia.
    * apply Forall_app. split; [|repeat constructor; lia].
      eapply Forall_impl; [exact Hlo|]. simpl. lia.
  + constructor; [lia|]. apply Forall_app. split; [|repeat constructor; lia].
    eapply Forall_impl; [exact Hlo|]. simpl. lia.
Qed.

(** ** Results of [convert] *)

Lemma found_steps_call hs inp out maxDepth p :
  findConversionPath hs inp out maxDepth = Some p → Forall calls_own_handler p.
Proof.
  intros [Hr _]%findConversionPath_sound. apply route_steps in Hr.
  eapply Forall_impl; [exact Hr|]. simpl. intros s [_ Hc].
  apply can_handle_resolves in Hc as (fs & hin & hout & _ & _ & _ & _ & _ & _ & _ & Hi & Ho).
  intros files. unfold step_outcome. by rewrite Hi, Ho.
Qed.



Section Pipeline.

Variable toUpperCase : string → string.

Lemma exec_steps_piped steps : ∀ i n fs labels outs,
  piped steps fs = Some outs →
  fst (exec_steps toUpperCase steps i n fs labels)
  = inr (inr (outs, labels ++ map (step_label toUpperCase) steps)).
Proof.
  induction steps as [|s rest IH]; intros i n fs labels outs Hp; simpl in *.
  - simplify_eq. by rewrite app_nil_r.
  - destruct (step_outcome s fs) as [[e|out] tr]; simpl in *; [done|].
    specialize (IH (S i) n out (labels ++ [toUpperCase (format (outputFormat s))]) outs Hp).
    destruct (exec_steps toUpperCase rest (S i) n out _) as [r tr']. simpl in *.
    rewrite IH. by rewrite <- (assoc_L (++)).
Qed.

Lemma exec_steps_piped_calls steps : ∀ i n fs labels outs,
  Forall calls_own_handler steps → piped steps fs = Some outs →
  convert_calls (snd (exec_steps toUpperCase steps i n fs labels))
  = map (fun s => handler_name (handler s)) steps.
Proof.
  induction steps as [|s rest IH]; intros i n fs labels outs Hc Hp; simpl in *; [done|].
  apply Forall_cons in Hc as [Hs Hc]. specialize (Hs fs).
  destruct (step_outcome s fs) as [[e|out] tr]; simpl in *; [done|].
  specialize (IH (S i) n out (labels ++ [toUpperCase (format (outputFormat s))]) outs Hc Hp).
  destruct (exec_steps toUpperCase rest (S i) n out _) as [r tr']. simpl in *.
  rewrite convert_calls_app, Hs, IH. done.
Qed.

(** The loop stops at the first step that throws, with what the [catch]
    block makes of the thrown value. *)
Lemma exec_steps_fails done : ∀ s rest i n fs labels fs' e,
  piped done fs = Some fs' → fst (step_outcome s fs') = inl e →
  fst (exec_steps toUpperCase (done ++ s :: rest) i n fs labels)
  = match caught (i + length done) e (labels ++ map (step_label toUpperCase) done) with
    | inl raised => inl raised
    | inr res => inr (inl res)
    end.
Proof.
  induction done as [|d done IH]; intros s rest i n fs labels fs' e Hp He; simpl in *.
  - simplify_eq. destruct (step_outcome s fs') as [[e'|out] tr]; simpl in *; [|done].
    simplify_eq. by rewrite Nat.add_0_r, app_nil_r.
  - destruct (step_outcome d fs) as [[e'|out] tr]; simpl in *; [done|].
    specialize (IH s rest (S i) n out
                  (labels ++ [toUpperCase (format (outputFormat d))]) fs' e Hp He).
    destruct (exec_steps toUpperCase (done ++ s :: rest) (S i) n out _) as [r tr'].
    simpl in *. rewrite IH. rewrite <- (assoc_L (++)). simpl.
    by replace (S (i + length done)) with (i + S (length done)) by lia.
Qed.

Lemma exec_steps_fails_calls done : ∀ s rest i n fs labels fs' e,
  Forall calls_own_handler (done ++ [s]) →
  piped done fs = Some fs' → fst (step_outcome s fs') = inl e →
  convert_calls (snd (exec_steps toUpperCase (done ++ s :: rest) i n fs labels))
  = map (fun s => handler_name (handler s)) (done ++ [s]).
Proof.
  induction done as [|d done IH]; intros s rest i n fs labels fs' e Hc Hp He; simpl in *.
  - simplify_eq. apply Forall_cons in Hc as [Hs _]. specialize (Hs fs').
    destruct (step_outcome s fs') as [[e'|out] tr]; simpl in *; [|done].
    rewrite convert_calls_app, Hs. done.
  - apply Forall_cons in Hc as [Hd Hc]. specialize (Hd fs).
    destruct (step_outcome d fs) as [[e'|out] tr]; simpl in *; [done|].
    specialize (IH s rest (S i) n out
                  (labels ++ [toUpperCase (format (outputFormat d))]) fs' e Hc Hp He).
    destruct (exec_steps toUpperCase (done ++ s :: rest) (S i) n out _) as [r tr'].
    simpl in *. rewrite convert_calls_app, Hd, IH. done.
Qed.


Lemma exec_steps_never_complete steps : ∀ i n fs labels,
  Forall (fun p => stage p ≠ complete)
    (progress_reports (snd (exec_steps toUpperCase steps i n fs labels))).
Proof.
  induction steps as [|x l IH]; intros i n fs labels; simpl; [constructor|].
  pose proof (step_outcome_no_report x fs) as Hs.
  destruct (step_outcome x fs) as [[e|o] tr]; simpl in *.
  - rewrite progress_reports_app, Hs. simpl. by repeat constructor.
  - specialize (IH (S i) n o (labels ++ [toUpperCase (format (outputFormat x))])).
    destruct (exec_steps toUpperCase l (S i) n o _) as [r tr']. simpl in *.
    rewrite progress_reports_app, Hs. simpl. by constructor.
Qed.

End Pipeline.

Lemma last_app_snoc {A} (l1 l2 : list A) x : last (l1 ++ l2 ++ [x]) = Some x.
Proof. by rewrite app_assoc, last_snoc. Qed.

Lemma linked_last a b p :
  linked a b p → p ≠ [] → ∃ s, last p = Some s ∧ outputFormat s = b.
Proof.
  revert a. induction p as [|s p IH]; intros a Hl Hne; [done|].
  simpl in Hl. destruct Hl as [_ Hl]. destruct p as [|s' p].
  - simpl in Hl. exists s. done.
  - destruct (IH _ Hl) as (x & Hx & Hb); [done|]. exists x. done.
Qed.

(** Success in full.  When the route found has the steps [steps] and none of
    them throws, each step being fed the files the step before it returned,
    [convert] returns a success whose files are those of the last step and
    whose path lists the source label and then the output label of every
    step, ending in the label of the requested destination; it enters
    [doConvert] of each step's handler once, in order, and its last progress
    report is the [complete] one at 100. *)
Theorem convert_succeeds lc toUpperCase classes files fs inp out st steps outs :
  mime inp ≠ mime out →
  findConversionPath (handlers (if initialized st then st else loaded_state lc classes))
    inp out 3 = Some steps →
  read_files files = inr fs →
  piped steps fs = Some outs →
  ∃ st' tr,
    convert lc toUpperCase classes files inp out st
    = (inr {| success := true;
              result_message := "Successfully converted to " ++ toUpperCase (format out);
              path := Some (toUpperCase (format inp) :: map (step_label toUpperCase) steps);
              files := Some outs |}, st', tr) ∧
    last (toUpperCase (format inp) :: map (step_label toUpperCase) steps)
      = Some (toUpperCase (format out)) ∧
    length (toUpperCase (format inp) :: map (step_label toUpperCase) steps)
      = S (length steps) ∧
    convert_calls tr = map (fun s => handler_name (handler s)) steps ∧
    last (progress_reports tr) = Some complete_report.
Proof.
  intros Hm Hp Hread Hpipe. rewrite convert_run. cbv zeta. unfold route_and_run.
  assert ((mime inp =? mime out) = false) as -> by (by apply String.eqb_neq).
  rewrite Hp, Hread.
  pose proof (exec_steps_piped toUpperCase steps 0 (length steps) fs
                [toUpperCase (format inp)] outs Hpipe) as Hres.
  pose proof (exec_steps_piped_calls toUpperCase steps 0 (length steps) fs
                [toUpperCase (format inp)] outs
                (found_steps_call _ _ _ _ _ Hp) Hpipe) as Hcalls.
  destruct (exec_steps toUpperCase steps 0 (length steps) fs _) as [r tr].
  simpl in *. subst r.
  eexists _, _. split; [reflexivity|]. split; [|split; [|split]].
  - pose proof (findConversionPath_nonempty _ _ _ _ _ Hp) as Hne.
    pose proof (findConversionPath_sound _ _ _ _ _ Hp) as [Hr _].
    destruct (linked_last _ _ _ (route_linked _ _ _ _ Hr) Hne) as (s & Hs & Hout).
    destruct steps as [|s0 steps']; [done|].
    change (last (toUpperCase (format inp) :: map (step_label toUpperCase) (s0 :: steps')))
      with (last (map (step_label toUpperCase) (s0 :: steps'))).
    rewrite fmap_last, Hs. simpl. unfold step_label. by rewrite Hout.
  - simpl. by rewrite length_map.
  - simpl. rewrite convert_calls_prefix. simpl.
    rewrite convert_calls_app, Hcalls. simpl. by rewrite app_nil_r.
  - simpl. rewrite !progress_reports_app. simpl. rewrite progress_reports_app. simpl.
    exact (last_app_snoc _ (_ :: _ :: _) _).
Qed.

Lemma convert_succeeds_witness :
  ∃ st' tr,
    convert ordinal_compare ascii_toUpperCase [html_handler; svg_handler; raster_handler]
      [ upload "page.html" [Byte.x3c] ] html_format jpeg_format initial_state
    = (inr {| success := true;
              result_message := "Successfully converted to JPEG";
              path := Some ["HTML"; "SVG"; "PNG"; "JPEG"];
              files := Some [ {| file_name := "page.html"; bytes := [Byte.x3c] |} ] |},
       st', tr) ∧
    last ["HTML"; "SVG"; "PNG"; "JPEG"] = Some "JPEG" ∧
    length ["HTML"; "SVG"; "PNG"; "JPEG"] = 4 ∧
    convert_calls tr = ["html"; "svg"; "raster"] ∧
    last (progress_reports tr) = Some complete_report.
Proof.
  apply (convert_succeeds ordinal_compare ascii_toUpperCase
           [html_handler; svg_handler; raster_handler]
           [ upload "page.html" [Byte.x3c] ]
           [ {| file_name := "page.html"; bytes := [Byte.x3c] |} ]
           html_format jpeg_format initial_state
           [ {| handler := html_handler; inputFormat := html_format;
                outputFormat := svg_output |};
             {| handler := svg_handler; inputFormat := svg_output;
                outputFormat := png_output |};
             {| handler := raster_handler; inputFormat := png_output;
                outputFormat := jpeg_format |} ]).
  - by vm_compute.
  - reflexivity.
  - reflexivity.
  - reflexivity.
Defined.

Lemma init_events_never_complete classes0 classes : ∀ i,
  Forall (fun p => stage p ≠ complete) (progress_reports (init_events classes0 i classes)).
Proof.
  induction classes as [|h l IH]; intros i; simpl; [constructor|].
  unfold init_events_of. rewrite progress_reports_app. simpl.
  constructor; [done|]. destruct (init h); simpl; apply IH.
Qed.

Lemma loading_never_complete lc classes :
  Forall (fun p => stage p ≠ complete) (progress_reports (loading_events lc classes)).
Proof.
  unfold loading_events. rewrite !progress_reports_app. simpl.
  constructor; [done|]. apply Forall_app.
  split; [apply init_events_never_complete|by repeat constructor].
Qed.

(** Abort at the first failure.  When the steps [done] of the route found
    run without throwing and the next step [s] throws an [Error] whose
    message is [text], or another value of which [String] makes [text],
    [convert] returns a failure whose message names the 1-based index of [s]
    and ends in [text], and whose path lists the source label and the output
    labels of [done] only; [doConvert] is entered for the handlers of [done]
    and of [s], in order, and for no handler of a later step; no [complete]
    progress is reported. *)
Theorem convert_aborts_at_first_failure lc toUpperCase classes files fs inp out st
    done s rest fs' e text :
  mime inp ≠ mime out →
  findConversionPath (handlers (if initialized st then st else loaded_state lc classes))
    inp out 3 = Some (done ++ s :: rest) →
  read_files files = inr fs →
  piped done fs = Some fs' →
  fst (step_outcome s fs') = inl e →
  e = JsError text ∨ e = JsValue text →
  ∃ st' tr,
    convert lc toUpperCase classes files inp out st
    = (inr {| success := false;
              result_message := "Conversion failed at step " ++ pretty (length done + 1)%nat
                                  ++ ": " ++ text;
              path := Some (toUpperCase (format inp) :: map (step_label toUpperCase) done);
              files := None |}, st', tr) ∧
    convert_calls tr = map (fun s => handler_name (handler s)) (done ++ [s]) ∧
    Forall (fun p => stage p ≠ complete) (progress_reports tr).
Proof.
  intros Hm Hp Hread Hpipe He Htext. rewrite convert_run. cbv zeta. unfold route_and_run.
  assert ((mime inp =? mime out) = false) as -> by (by apply String.eqb_neq).
  rewrite Hp, Hread.
  set (n := length (done ++ s :: rest)).
  pose proof (exec_steps_fails toUpperCase done s rest 0 n fs [toUpperCase (format inp)]
                fs' e Hpipe He) as Hres.
  assert (Hcaught : caught (0 + length done) e
                      ([toUpperCase (format inp)] ++ map (step_label toUpperCase) done)
                    = inr (failure_at (length done) text
                             (toUpperCase (format inp) :: map (step_label toUpperCase) done))).
  { by destruct Htext as [-> | ->]. }
  rewrite Hcaught in Hres.
  assert (Hc : Forall calls_own_handler (done ++ [s])).
  { pose proof (found_steps_call _ _ _ _ _ Hp) as Hall.
    apply Forall_app in Hall as [Hd Hs]. apply Forall_cons in Hs as [Hs _].
    apply Forall_app. split; [done|]. by constructor. }
  pose proof (exec_steps_fails_calls toUpperCase done s rest 0 n fs
                [toUpperCase (format inp)] fs' e Hc Hpipe He) as Hcalls.
  pose proof (exec_steps_never_complete toUpperCase (done ++ s :: rest) 0 n fs
                [toUpperCase (format inp)]) as Hstage.
  destruct (exec_steps toUpperCase (done ++ s :: rest) 0 n fs _) as [r tr].
  simpl in *. subst r.
  eexists _, _. split; [reflexivity|]. split.
  - rewrite convert_calls_prefix. simpl. exact Hcalls.
  - rewrite progress_reports_app. apply Forall_app. split.
    + destruct (initialized st); [constructor|apply loading_never_complete].
    + simpl. constructor; [done|]. by constructor.
Qed.

Lemma convert_aborts_at_first_failure_witness :
  ∃ st' tr,
    convert ordinal_compare ascii_toUpperCase
      [html_handler; failing_svg_handler; raster_handler]
      [ upload "page.html" [Byte.x3c] ] html_format jpeg_format initial_state
    = (inr {| success := false;
              result_message := "Conversion failed at step 2: Failed to load image";
              path := Some ["HTML"; "SVG"];
              files := None |}, st', tr) ∧
    convert_calls tr = ["html"; "svg"] ∧
    Forall (fun p => stage p ≠ complete) (progress_reports tr).
Proof.
  apply (convert_aborts_at_first_failure ordinal_compare ascii_toUpperCase
           [html_handler; failing_svg_handler; raster_handler]
           [ upload "page.html" [Byte.x3c] ]
           [ {| file_name := "page.html"; bytes := [Byte.x3c] |} ]
           html_format jpeg_format initial_state
           [ {| handler := html_handler; inputFormat := html_format;
                outputFormat := svg_output |} ]
           {| handler := failing_svg_handler; inputFormat := svg_output;
              outputFormat := png_output |}
           [ {| handler := raster_handler; inputFormat := png_output;
                outputFormat := jpeg_format |} ]
           [ {| file_name := "page.html"; bytes := [Byte.x3c] |} ]
           (JsError "Failed to load image") "Failed to load image").
  - by vm_compute.
  - reflexivity.
  - reflexivity.
  - reflexivity.
  - reflexivity.
  - by left.
Defined.


(** A file that cannot be read makes [convert] reject where a read is due,
    and goes unnoticed where none is: on the identity shortcut and on a found
    route the rejection of the read is thrown on, without a route the failure
    is returned as for any other input. *)
Example unreadable_file_runs :
  fst (fst (convert ordinal_compare ascii_toUpperCase [raster_handler]
              [ unreadable "a.png" ] png_format png_output initial_state))
  = inl (JsError "The requested file could not be read") ∧
  fst (fst (convert ordinal_compare ascii_toUpperCase [raster_handler]
              [ unreadable "a.png" ] png_format jpeg_format initial_state))
  = inl (JsError "The requested file could not be read") ∧
  fst (fst (convert ordinal_compare ascii_toUpperCase [raster_handler]
              [ unreadable "a.png" ] png_format svg_output initial_state))
  = inr {| success := false;
           result_message :=
             "No conversion path found from PNG to SVG. Try a different output format.";
           path := None;
           files := None |}.
Proof. by vm_compute. Qed.

(** ** File names and the renamer *)

Lemma append_String a s t : (String a s ++ t)%string = String a (s ++ t)%string.
Proof. reflexivity. Qed.

Lemma append_empty_r s : (s ++ "")%string = s.
Proof. induction s as [|a s IH]; [done|]. by rewrite append_String, IH. Qed.

Lemma append_assoc s t u : ((s ++ t) ++ u)%string = (s ++ t ++ u)%string.
Proof. induction s as [|a s IH]; [done|]. by rewrite !append_String, IH. Qed.

Lemma split_on_nonempty c s : split_on c s ≠ [].
Proof.
  destruct s as [|a s]; simpl; [done|].
  destruct (Ascii.eqb a c); [done|]. by destruct (split_on c s).
Qed.

Lemma join_cons sep x rest :
  rest ≠ [] → join sep (x :: rest) = (x ++ sep ++ join sep rest)%string.
Proof. by destruct rest. Qed.

Lemma join_String_head sep a seg rest :
  join sep (String a seg :: rest) = String a (join sep (seg :: rest)).
Proof. by destruct rest. Qed.

Lemma join_split c s : join (String c "") (split_on c s) = s.
Proof.
  induction s as [|a s IH]; simpl; [done|].
  destruct (Ascii.eqb a c) eqn:E.
  - apply Ascii.eqb_eq in E as ->.
    rewrite join_cons by apply split_on_nonempty. simpl. by rewrite IH.
  - pose proof (split_on_nonempty c s) as Hne.
    destruct (split_on c s) as [|seg rest]; [done|].
    by rewrite join_String_head, IH.
Qed.

Lemma split_on_app c a b :
  split_on c (a ++ String c b)%string = split_on c a ++ split_on c b.
Proof.
  induction a as [|x a IH]; simpl.
  - by rewrite Ascii.eqb_refl.
  - destruct (Ascii.eqb x c); [by rewrite IH|].
    rewrite IH. pose proof (split_on_nonempty c a) as Hne.
    by destruct (split_on c a).
Qed.

Lemma split_on_free c s : contains_char c s = false → split_on c s = [s].
Proof.
  induction s as [|a s IH]; simpl; [done|].
  intros [Ha Hs]%orb_false_iff. rewrite Ha, IH by done. done.
Qed.

Lemma removelast_snoc {A} (l : list A) x : removelast (l ++ [x]) = l.
Proof.
  induction l as [|y l IH]; simpl; [done|].
  rewrite IH. by destruct l.
Qed.

Lemma stem_extension base ext :
  contains_char "." ext = false → stem (base ++ "." ++ ext)%string = base.
Proof.
  intros H. unfold stem.
  change (base ++ "." ++ ext)%string with (base ++ String "." ext)%string.
  rewrite split_on_app, (split_on_free _ ext H), removelast_snoc.
  apply (join_split "." base).
Qed.

Lemma stem_dotless s : contains_char "." s = false → stem s = "".
Proof. intros H. unfold stem. by rewrite (split_on_free _ s H). Qed.

Lemma prefix_app a b : String.prefix a (a ++ b)%string = true.
Proof.
  induction a as [|x a IH]; simpl; [by destruct b|].
  destruct (Ascii.ascii_dec x x); [done|congruence].
Qed.

Lemma snoc_cases {A} (l : list A) : l ≠ [] → ∃ l' x, l = l' ++ [x].
Proof.
  induction l as [|y l IH]; [done|]. intros _.
  destruct l as [|z l]; [by exists [], y|].
  destruct IH as (l' & x & Hl); [done|]. exists (y :: l'), x. by rewrite Hl.
Qed.

Lemma join_snoc sep l x :
  l ≠ [] → join sep (l ++ [x]) = (join sep l ++ sep ++ x)%string.
Proof.
  induction l as [|y l IH]; [done|]. intros _.
  destruct l as [|z l]; [done|].
  change ((y :: z :: l) ++ [x]) with (y :: ((z :: l) ++ [x])).
  rewrite (join_cons sep y ((z :: l) ++ [x])) by done.
  rewrite IH by done. rewrite (join_cons sep y (z :: l)) by done.
  by rewrite !append_assoc.
Qed.

Lemma stem_prefix s : String.prefix (stem s) s = true.
Proof.
  unfold stem. pose proof (join_split "." s) as Hj.
  destruct (snoc_cases _ (split_on_nonempty "." s)) as (l & x & Hl).
  rewrite Hl in *. rewrite removelast_snoc.
  destruct l as [|y l]; [by destruct s|].
  rewrite join_snoc in Hj by done. rewrite <- Hj. apply prefix_app.
Qed.

(** [getBaseFileName] returns a prefix of the file name, empty only for the
    empty name; a name without a dot comes back unchanged, and so does a name
    whose only dot is the first character. *)
Theorem getBaseFileName_keeps_name s :
  String.prefix (getBaseFileName s) s = true ∧
  (getBaseFileName s = "" → s = "") ∧
  (contains_char "." s = false → getBaseFileName s = s) ∧
  (∀ ext, contains_char "." ext = false →
          getBaseFileName ("." ++ ext)%string = ("." ++ ext)%string).
Proof.
  unfold getBaseFileName. repeat split.
  - destruct (stem s =? "") eqn:E; [|apply stem_prefix].
    rewrite <- (append_empty_r s) at 2. apply prefix_app.
  - destruct (stem s =? "") eqn:E; [done|]. by apply String.eqb_neq in E.
  - intros H. by rewrite stem_dotless.
  - intros ext H. pose proof (stem_extension "" ext H) as Hs.
    change ("" ++ "." ++ ext)%string with ("." ++ ext)%string in Hs. by rewrite Hs.
Qed.

(** [getBaseFileName] strips the last extension: for a non-empty [base] and
    an extension without a dot, the base name of [base.ext] is [base], also
    when [base] itself contains dots. *)
Theorem getBaseFileName_strips_extension base ext :
  base ≠ "" → contains_char "." ext = false →
  getBaseFileName (base ++ "." ++ ext)%string = base.
Proof.
  intros Hb He. unfold getBaseFileName. rewrite stem_extension by done.
  by apply String.eqb_neq in Hb as ->.
Qed.

Lemma getBaseFileName_strips_extension_witness :
  getBaseFileName ("report.final" ++ "." ++ "docx")%string = "report.final".
Proof.
  apply (getBaseFileName_strips_extension "report.final" "docx"); [done|reflexivity].
Defined.

(** [RenameHandler.doConvert] never throws and returns one file per input
    file, in order, with the bytes untouched; the last extension of each name
    is replaced by the extension of the output descriptor, and a name without
    a dot loses its stem: it becomes just a dot and the extension. *)
Theorem RenameHandler_doConvert inputFiles inputFormat outputFormat :
  ∃ outs,
    doConvert RenameHandler inputFiles inputFormat outputFormat = inr outs ∧
    map bytes outs = map bytes inputFiles ∧
    Forall2 (fun f o =>
      (∀ base old, file_name f = (base ++ "." ++ old)%string →
                   contains_char "." old = false →
                   file_name o = (base ++ "." ++ extension outputFormat)%string) ∧
      (contains_char "." (file_name f) = false →
       file_name o = ("." ++ extension outputFormat)%string)) inputFiles outs.
Proof.
  eexists. split; [reflexivity|]. split.
  - rewrite map_map. done.
  - induction inputFiles as [|f l IH]; simpl; constructor; [|done].
    unfold rename_file. simpl. split.
    + intros base old -> H. by rewrite stem_extension.
    + intros H. by rewrite stem_dotless.
Qed.

Lemma rename_own_output m hout :
  own_format RenameHandler to m = Some hout →
  m = "application/zip" ∧ extension hout = "zip".
Proof.
  intros H.
  assert (H' : find (fun f => (mime f =? m) && to f) rename_formats = Some hout) by exact H.
  apply find_some in H' as [Hin Hp].
  apply andb_true_iff in Hp as [Hm Ht]. apply String.eqb_eq in Hm.
  unfold rename_formats in Hin. cbn [In] in Hin.
  destruct Hin as [<-|[<-|[<-|[<-|[<-|[<-|[<-|[]]]]]]]];
    cbn [to] in Ht; try discriminate Ht.
  split; [by rewrite <- Hm|done].
Qed.

(** A conversion that the renamer serves directly succeeds in one step: the
    destination is ZIP, the only format the renamer writes; the result's path
    has the two labels, and its files are the input files with the bytes
    untouched and the last extension of each name replaced by the renamer's
    own [zip], whatever extension the requested destination descriptor
    carries. *)
Theorem convert_by_rename lc toUpperCase classes files fs inp out st :
  mime inp ≠ mime out →
  findHandler (handlers (if initialized st then st else loaded_state lc classes)) inp out
    = Some RenameHandler →
  read_files files = inr fs →
  mime out = "application/zip" ∧
  ∃ st' tr,
    convert lc toUpperCase classes files inp out st
    = (inr {| success := true;
              result_message := "Successfully converted to " ++ toUpperCase (format out);
              path := Some [toUpperCase (format inp); toUpperCase (format out)];
              files := Some (map (fun f => {| file_name := stem (file_name f) ++ ".zip";
                                              bytes := bytes f |}) fs) |},
       st', tr).
Proof.
  intros Hm Hf Hread.
  pose proof (findHandler_Some _ _ _ _ Hf) as [_ Hc].
  apply can_handle_resolves in Hc
    as (l & hin & hout & _ & _ & _ & _ & _ & _ & _ & Hi & Ho).
  destruct (rename_own_output _ _ Ho) as [Hzip Hext]. split; [done|].
  rewrite convert_run. cbv zeta. unfold route_and_run.
  assert ((mime inp =? mime out) = false) as -> by (by apply String.eqb_neq).
  unfold findConversionPath. rewrite Hf, Hread.
  cbn [exec_steps length]. unfold step_outcome. cbn [handler inputFormat outputFormat].
  rewrite Hi, Ho. cbn [doConvert RenameHandler fst snd].
  eexists _, _. unfold rename_file, success_result. rewrite Hext. reflexivity.
Qed.

Lemma convert_by_rename_witness :
  mime zip_format = "application/zip" ∧
  ∃ st' tr,
    convert ordinal_compare ascii_toUpperCase (source_handlerClasses broken_handler)
      [ upload "thesis.v2.docx" [Byte.x50; Byte.x4b] ] docx_format zip_format initial_state
    = (inr {| success := true;
              result_message := "Successfully converted to ZIP";
              path := Some ["DOCX"; "ZIP"];
              files := Some [ {| file_name := "thesis.v2.zip";
                                 bytes := [Byte.x50; Byte.x4b] |} ] |},
       st', tr).
Proof.
  apply (convert_by_rename ordinal_compare ascii_toUpperCase
           (source_handlerClasses broken_handler)
           [ upload "thesis.v2.docx" [Byte.x50; Byte.x4b] ]
           [ {| file_name := "thesis.v2.docx"; bytes := [Byte.x50; Byte.x4b] |} ]
           docx_format zip_format initial_state).
  - by vm_compute.
  - reflexivity.
  - reflexivity.
Defined.

(** A Word document goes to ZIP under its old stem; a file without an
    extension comes out as [.zip]. *)
Example rename_samples :
  map file_name
    (map (rename_file zip_format)
       [ {| file_name := "thesis.v2.docx"; bytes := [] |};
         {| file_name := "README"; bytes := [] |} ])
  = ["thesis.v2.zip"; ".zip"] ∧
  getBaseFileName "README" = "README" ∧
  getBaseFileName ".bashrc" = ".bashrc" ∧
  getBaseFileName "thesis.v2.docx" = "thesis.v2".
Proof. by vm_compute. Qed.

(** The two registered handlers name their output alike when the input name
    has a non-empty stem, replacing its last extension; for a name without
    one the canvas handler appends the extension to the whole name, where the
    renamer leaves only a dot and the extension. *)
Theorem canvas_output_name_extension inputName outputFormat :
  (stem inputName ≠ "" →
     canvas_output_name inputName outputFormat
     = file_name (rename_file outputFormat {| file_name := inputName; bytes := [] |})) ∧
  (∀ base old, base ≠ "" → contains_char "." old = false →
     inputName = (base ++ "." ++ old)%string →
     canvas_output_name inputName outputFormat
     = (base ++ "." ++ extension outputFormat)%string) ∧
  (contains_char "." inputName = false →
     canvas_output_name inputName outputFormat
     = (inputName ++ "." ++ extension outputFormat)%string).
Proof.
  unfold canvas_output_name, getBaseFileName, rename_file. simpl. repeat split.
  - intros H. by apply String.eqb_neq in H as ->.
  - intros base old Hb Ho ->. rewrite stem_extension by done.
    by apply String.eqb_neq in Hb as ->.
  - intros H. by rewrite stem_dotless.
Qed.

(** ** The hop bound *)

Lemma on_track_mono hs k k' t fr : k <= k' → on_track hs k t fr → on_track hs k' t fr.
Proof. intros Hk (e & r & He & Hw & Hle). exists e, r. repeat split; [done..|lia]. Qed.

Lemma seed_on_track_walk hs inp t : ∀ k,
  walk hs k (mime inp) t → k ≠ 0 → ¬ edge hs (mime inp) t →
  on_track hs k t (seed hs inp).
Proof.
  induction k as [k IH] using lt_wf_ind. intros Hw Hk Hne.
  inversion Hw as [|n a b c He Hw']; subst; [done|].
  assert (Hn : n ≠ 0).
  { intros ->. apply walk_zero in Hw' as ->. done. }
  destruct (decide (b = mime inp)) as [->|Hb].
  { apply (on_track_mono hs n); [lia|]. apply IH; [lia|done..]. }
  apply walk_owalk in Hw'; [|done].
  pose proof (expand_grows hs (fun f => mime f =? mime inp) inp [] empty_frontier) as Hg.
  fold (seed hs inp) in Hg.
  assert (Hbv : b ∈ visited (seed hs inp)).
  { apply expand_visits; [done|]. intros f <-. by apply String.eqb_neq. }
  assert (Hsub : (∅ : gset string) ⊆ visited (seed hs inp)) by set_solver.
  destruct (owalk_reanchor _ _ _ _ _ _ Hw' Hsub) as (n' & a' & Hw'' & Hcase).
  assert (Ha' : a' ∈ visited (seed hs inp) ∧ n' <= n).
  { destruct Hcase as [[-> Hle]|(Hin & _ & Hlt)]; split; [done|lia|done|lia]. }
  destruct Ha' as [Hin Hle].
  destruct (grows_new_entry _ _ _ a' Hg Hin) as (e & He' & Hm & HP); [set_solver|].
  exists e, n'. rewrite Hm. repeat split; [done..|].
  apply pushed_from_depth in HP. simpl in HP. lia.
Qed.

(** Whenever the graph has a conversion path within the bound, one at most
    as long is found. *)
Lemma findConversionPath_finds hs inp out maxDepth k :
  walk hs k (mime inp) (mime out) → k ≠ 0 → (Z.of_nat k <= maxDepth)%Z →
  ∃ p, findConversionPath hs inp out maxDepth = Some p ∧ length p <= k.
Proof.
  intros Hw Hk Hd. unfold findConversionPath.
  destruct (findHandler hs inp out) as [h|] eqn:Hf.
  { eexists. split; [done|]. simpl. lia. }
  apply findHandler_None in Hf.
  assert (Hk2 : 2 <= k).
  { destruct k as [|[|k]]; [done| |lia]. by apply walk_one in Hw. }
  destruct (maxDepth <=? 1)%Z eqn:E; [apply Z.leb_le in E; lia|].
  destruct (bfs_loop_terminates hs out maxDepth
              (iterations_bound hs (seed hs inp)) (seed hs inp)) as [[res fr'] Hb]; [done|].
  rewrite Hb.
  eapply (bfs_loop_complete hs k) in Hb as (p & -> & Hle);
    [| apply seed_levels | by apply seed_on_track_walk | done].
  by exists p.
Qed.

(** Raising the hop bound never loses a route and never changes its length:
    if [findConversionPath] finds a path with the bound [maxDepth], it finds
    a path of the same number of steps with every larger bound. *)
Theorem findConversionPath_bound_monotone hs inp out maxDepth maxDepth' p :
  findConversionPath hs inp out maxDepth = Some p →
  (maxDepth <= maxDepth')%Z →
  ∃ p', findConversionPath hs inp out maxDepth' = Some p' ∧ length p' = length p.
Proof.
  intros Hp Hd.
  pose proof (findConversionPath_nonempty _ _ _ _ _ Hp) as Hne.
  pose proof (findConversionPath_walk _ _ _ _ _ Hp) as Hw.
  pose proof (findConversionPath_sound _ _ _ _ _ Hp) as [_ Hl].
  assert (Hk : length p ≠ 0) by (by destruct p).
  destruct Hl as [Hl|Hl].
  - (* a direct path is found whatever the bound *)
    destruct p as [|s [|s' p]]; simpl in Hl; [done| |lia].
    revert Hp. unfold findConversionPath.
    destruct (findHandler hs inp out) as [h|] eqn:Hf.
    + intros [= <-]. eexists. split; [done|]. done.
    + destruct (maxDepth <=? 1)%Z; [done|].
      destruct (bfs_loop hs out maxDepth _ _) as [[res fr']|] eqn:Hb; [|done].
      intros ->. exfalso.
      apply findHandler_None in Hf. apply Hf. by apply walk_one in Hw.
  - destruct (findConversionPath_finds hs inp out maxDepth' (length p) Hw Hk)
      as (p' & Hp' & Hle); [lia|].
    exists p'. split; [done|].
    pose proof (findConversionPath_nonempty _ _ _ _ _ Hp') as Hne'.
    pose proof (findConversionPath_walk _ _ _ _ _ Hp') as Hw'.
    assert (Hk' : length p' ≠ 0) by (by destruct p').
    destruct (findConversionPath_finds hs inp out maxDepth (length p') Hw' Hk')
      as (p'' & Hp'' & Hle'); [lia|].
    rewrite Hp in Hp''. simplify_eq. lia.
Qed.

Lemma findConversionPath_bound_monotone_witness :
  ∃ p', findConversionPath [html_handler; svg_handler; raster_handler]
          html_format png_format 7 = Some p' ∧
        length p'
        = length [ {| handler := html_handler; inputFormat := html_format;
                      outputFormat := svg_output |};
                   {| handler := svg_handler; inputFormat := svg_output;
                      outputFormat := png_format |} ].
Proof.
  apply (findConversionPath_bound_monotone [html_handler; svg_handler; raster_handler]
           html_format png_format 2 7).
  - reflexivity.
  - lia.
Defined.

(** ** The size of a conversion *)

Lemma exec_steps_counts up steps : ∀ i n fs labels,
  Forall calls_own_handler steps →
  length (convert_calls (snd (exec_steps up steps i n fs labels))) <= length steps ∧
  match fst (exec_steps up steps i n fs labels) with
  | inr (inr (_, labels')) =>
      length (convert_calls (snd (exec_steps up steps i n fs labels))) = length steps ∧
      length labels' = length labels + length steps
  | inr (inl res) =>
      success res = false ∧
      ∃ l, path res = Some l ∧ length labels <= length l ∧
           length l + 1
           = length labels + length (convert_calls (snd (exec_steps up steps i n fs labels)))
  | inl _ => True
  end.
Proof.
  induction steps as [|s rest IH]; intros i n fs labels Hc; simpl.
  { split; [done|]. split; [done|lia]. }
  apply Forall_cons in Hc as [Hs Hc]. specialize (Hs fs).
  destruct (step_outcome s fs) as [[e|out] tr]; simpl in *.
  - rewrite convert_calls_app, Hs. simpl. split; [lia|]. unfold caught.
    destruct (exn_message e) as [raised|text]; [done|]. simpl. split; [done|].
    eexists. split; [done|]. split; lia.
  - specialize (IH (S i) n out (labels ++ [up (format (outputFormat s))]) Hc).
    destruct (exec_steps up rest (S i) n out _) as [r tr']. simpl in *.
    rewrite convert_calls_app, Hs. simpl.
    destruct IH as [Hle IH]. split; [lia|].
    destruct r as [e|[res|[outs labels']]]; [done| |].
    + destruct IH as (Hf & l & Hl & Hge & Hn). split; [done|]. exists l. split; [done|].
      rewrite length_app in Hn, Hge. simpl in Hn, Hge. split; lia.
    + destruct IH as [Hn Hl]. rewrite length_app in Hl. simpl in Hl. lia.
Qed.

(** One call of [convert] enters [doConvert] at most three times, the
    default hop bound of [findConversionPath], whether it returns or throws.
    The path of a result, when there is one, has the source label and one
    label per step that completed: one more than the [doConvert] calls made
    when the conversion succeeded, exactly as many when it failed (the
    failing step was entered but is not listed); so it has between one and
    four labels. *)
Theorem convert_at_most_three_steps lc toUpperCase classes inputs inp out st :
  ∃ r st' tr,
    convert lc toUpperCase classes inputs inp out st = (r, st', tr) ∧
    length (convert_calls tr) <= 3 ∧
    ∀ res l, r = inr res → path res = Some l →
             1 <= length l <= 4 ∧
             length l = (if success res then 1 else 0) + length (convert_calls tr).
Proof.
  rewrite convert_run. cbv zeta. eexists _, _, _. split; [reflexivity|].
  rewrite convert_calls_prefix. simpl.
  set (hs := handlers (if initialized st then st else loaded_state lc classes)).
  unfold route_and_run.
  destruct (mime inp =? mime out).
  { destruct (read_files inputs) as [e|fileData]; simpl; (split; [lia|]); [done|].
    intros res l [= <-] [= <-]. simpl. lia. }
  destruct (findConversionPath hs inp out 3) as [steps|] eqn:Hp.
  2:{ simpl. split; [lia|]. by intros res l [= <-]. }
  destruct (read_files inputs) as [e|fs]; [simpl; split; [lia|done]|].
  pose proof (found_steps_call _ _ _ _ _ Hp) as Hc.
  pose proof (findConversionPath_sound _ _ _ _ _ Hp) as [_ Hlen].
  pose proof (exec_steps_counts toUpperCase steps 0 (length steps) fs
                [toUpperCase (format inp)] Hc) as [Hle Hx].
  destruct (exec_steps toUpperCase steps 0 (length steps) fs _)
    as [[e|[res|[outs labels]]] tr]; simpl in *.
  - split; [lia|done].
  - destruct Hx as (Hf & l & Hl & Hge & Hn). split; [lia|].
    intros res' l' [= <-] Hl'. rewrite Hl in Hl'. simplify_eq. rewrite Hf. lia.
  - destruct Hx as [Hn Hl]. rewrite convert_calls_app. simpl. rewrite app_nil_r.
    split; [lia|]. intros res l' [= <-] [= <-]. simpl. lia.
Qed.
